(** * asciichart: the dynamic candle matrix of [src/core-matrix.ts]

    A shallow embedding of the class [DynamicMatrix] and the properties of
    its price levels, row mapping, canvas growth and candle drawing, in two
    models of the same methods.

    The integer model (the definitions at the top level).  A TypeScript
    [number] is an integer ([Z]): this is the program on candles whose
    magnitudes are whole numbers, for which all rows, columns and extents
    are whole as well.  The two price bounds start as [Infinity] and
    [-Infinity], so they live in [num], the integers with the two
    infinities.  The one place where the source leaves the integers is the
    quotient of [priceToRow]; it is computed exactly, over [Q], and
    [Math.round] rounds it half up as ECMAScript does.

    The exact model (the module [Exact]).  Magnitudes, prices, rows and the
    height are rational numbers, and a call returns, or throws where
    [setCell] assigns to an element of a row that [this.data] does not
    have.  On whole numbers the two models agree: by [exact_addFirstCandle]
    and [exact_addCandle] a method of the exact model, called on a state and
    a candle of the integer model, returns what the method of the integer
    model returns, so that no call with whole magnitudes throws.

    Rounding errors of binary floating point are outside both models.

    Results.  In the integer model the methods that read the price bounds
    return [option]: [None] stands for an execution that computes with a
    non-finite bound (or reads a candle the list does not hold), which the
    model does not follow.  Every session built from
    [new DynamicMatrix()] by the public methods returns [Some]
    (see [addCandle_total] and [addFirstCandle_total]). *)

From Stdlib Require Import ZArith QArith Qround String Lia Lqa.
From stdpp Require Import base option list strings pretty.

Local Open Scope Z_scope.

(** ** Data model *)

Inductive CandleType := bullish | bearish.

Record Candle := mkCandle {
  type : CandleType;
  bodySize : Z;
  upperWick : Z;
  lowerWick : Z
}.

(** [PositionedCandle extends Candle]: the candle's own fields are reached
    through the coercion. *)
Record PositionedCandle := mkPositioned {
  candle :> Candle;
  column : Z;
  highPrice : Z;
  openPrice : Z;
  closePrice : Z;
  lowPrice : Z
}.

Inductive num := NegInfinity | Num (z : Z) | Infinity.

Record DynamicMatrix := mkMatrix {
  data : list (list string);
  width : Z;
  height : Z;
  minPrice : num;
  maxPrice : num;
  candles : list PositionedCandle
}.

Definition defaultWidth : Z := 7.
Definition defaultHeight : Z := 7.
Definition buffer : Z := 1.

Definition blank : string := " "%string.
Definition wickSymbol : string := "|"%string.
Definition bullishBody : string := "█"%string.
Definition bearishBody : string := "░"%string.

Global Instance CandleType_eq_dec : EqDecision CandleType.
Proof. solve_decision. Defined.

(** ** Numbers *)

Definition finite (x : num) : option Z :=
  match x with Num z => Some z | _ => None end.

Definition Math_min (a b : num) : num :=
  match a, b with
  | NegInfinity, _ | _, NegInfinity => NegInfinity
  | Infinity, x | x, Infinity => x
  | Num x, Num y => Num (Z.min x y)
  end.

Definition Math_max (a b : num) : num :=
  match a, b with
  | Infinity, _ | _, Infinity => Infinity
  | NegInfinity, x | x, NegInfinity => x
  | Num x, Num y => Num (Z.max x y)
  end.

(** [Math.round]: the nearest integer, a tie going up. *)
Definition Math_round (q : Q) : Z := Qfloor (q + (1 # 2))%Q.

(** [Math.ceil] of a difference of two integers. *)
Definition Math_ceil (z : Z) : Z := Qceiling (inject_Z z).

(** ** Field updates *)

Definition set_data (d : list (list string)) (m : DynamicMatrix) : DynamicMatrix :=
  mkMatrix d (width m) (height m) (minPrice m) (maxPrice m) (candles m).

Definition set_candles (cs : list PositionedCandle) (m : DynamicMatrix) : DynamicMatrix :=
  mkMatrix (data m) (width m) (height m) (minPrice m) (maxPrice m) cs.

Definition set_prices (lo hi : num) (m : DynamicMatrix) : DynamicMatrix :=
  mkMatrix (data m) (width m) (height m) lo hi (candles m).

Definition set_column (col : Z) (c : PositionedCandle) : PositionedCandle :=
  mkPositioned (candle c) col (highPrice c) (openPrice c) (closePrice c) (lowPrice c).

(** [for (let i = from; i < upto; i++) body], threading the state. *)
Definition forRange {S : Type} (from upto : Z) (body : Z → S → S) (s : S) : S :=
  foldl (fun acc i => body i acc) s (seqZ from (upto - from)).

(** ** The canvas *)

Definition createEmptyMatrix (width height : Z) : list (list string) :=
  replicate (Z.to_nat height) (replicate (Z.to_nat width) blank).

(** [grid[row][col] = char] for a cell of the grid.  The callers guard the
    indices; [grid_ok] below is the invariant under which the guarded cell
    exists, so that the assignment neither throws nor extends a row. *)
Definition writeCell (row col : Z) (char : string) (grid : list (list string))
  : list (list string) :=
  alter (<[Z.to_nat col := char]>) (Z.to_nat row) grid.

Definition readCell (grid : list (list string)) (row col : Z) : option string :=
  if (0 <=? row) && (0 <=? col)
  then r ← grid !! Z.to_nat row; r !! Z.to_nat col
  else None.

Definition new_DynamicMatrix : DynamicMatrix :=
  mkMatrix (createEmptyMatrix defaultWidth defaultHeight)
           defaultWidth defaultHeight Infinity NegInfinity [].

Definition copyCell (old : list (list string)) (row col : Z)
    (newMatrix : list (list string)) : list (list string) :=
  match readCell old row col with
  | Some v => writeCell row col v newMatrix
  | None => newMatrix
  end.

(** [expandMatrix]: the copy loop reads [data[row][col]] under the source's
    guard [row < data.length && col < data[row].length] ([copyCell]). *)
Definition expandMatrix (newWidth newHeight : Z) (m : DynamicMatrix) : DynamicMatrix :=
  if (newWidth <=? width m) && (newHeight <=? height m) then m
  else
    let actualWidth := Z.max (width m) newWidth in
    let actualHeight := Z.max (height m) newHeight in
    let newMatrix := createEmptyMatrix actualWidth actualHeight in
    let newMatrix :=
      forRange 0 (height m) (fun row =>
        forRange 0 (width m) (fun col => copyCell (data m) row col)) newMatrix in
    mkMatrix newMatrix actualWidth actualHeight (minPrice m) (maxPrice m) (candles m).

Definition setCell (row col : Z) (char : string) (m : DynamicMatrix) : DynamicMatrix :=
  if (0 <=? row) && (row <? height m) && (0 <=? col) && (col <? width m)
  then set_data (writeCell row col char (data m)) m
  else m.

(** ** Price to row *)

Definition priceToRow (m : DynamicMatrix) (price : Z) : option Z :=
  if (length (candles m) =? 0)%nat then Some 0
  else
    hi ← finite (maxPrice m);
    lo ← finite (minPrice m);
    let priceRange := hi - lo in
    if priceRange =? 0 then Some (height m / 2)
    else
      let normalized := (inject_Z (hi - price) / inject_Z priceRange)%Q in
      let availableHeight := height m - 2 * buffer in
      let row := buffer + Math_round (normalized * inject_Z availableHeight)%Q in
      Some (Z.max buffer (Z.min row (height m - buffer - 1))).

(** ** Drawing *)

Definition drawCandle (c : PositionedCandle) (m : DynamicMatrix) : option DynamicMatrix :=
  highRow ← priceToRow m (highPrice c);
  openRow ← priceToRow m (openPrice c);
  closeRow ← priceToRow m (closePrice c);
  lowRow ← priceToRow m (lowPrice c);
  let bodySymbol := if decide (type c = bullish) then bullishBody else bearishBody in
  let bodyTopRow := Z.min openRow closeRow in
  let bodyBottomRow := Z.max openRow closeRow in
  let m := forRange highRow bodyTopRow
             (fun row => setCell row (column c) wickSymbol) m in
  let m := forRange bodyTopRow (bodyBottomRow + 1)
             (fun row m =>
                let m := if 0 <? column c
                         then setCell row (column c - 1) bodySymbol m else m in
                let m := setCell row (column c) bodySymbol m in
                if column c <? width m - 1
                then setCell row (column c + 1) bodySymbol m else m) m in
  let m := forRange (bodyBottomRow + 1) (lowRow + 1)
             (fun row => setCell row (column c) wickSymbol) m in
  Some m.

(** The loop of [redrawAllCandles]: [this.candles[i].column] is assigned in
    place, then the candle is drawn. *)
Fixpoint redrawFrom (idx : list nat) (currentColumn : Z) (m : DynamicMatrix)
  : option DynamicMatrix :=
  match idx with
  | [] => Some m
  | i :: rest =>
      c ← candles m !! i;
      let c := set_column currentColumn c in
      let m := set_candles (<[i := c]> (candles m)) m in
      m ← drawCandle c m;
      redrawFrom rest (currentColumn + 6) m
  end.

Definition redrawAllCandles (m : DynamicMatrix) : option DynamicMatrix :=
  let m := set_data (createEmptyMatrix (width m) (height m)) m in
  redrawFrom (seq 0 (length (candles m))) 3 m.

(** ** Adding candles *)

(** [addFirstCandle].  The source also computes [centerRow] and
    [halfHeight], which nothing reads; they are left out. *)
Definition addFirstCandle (candle : Candle) (m : DynamicMatrix) : option DynamicMatrix :=
  let totalHeight := bodySize candle + upperWick candle + lowerWick candle in
  let requiredHeight := totalHeight + 2 * buffer in
  let m := if height m <? requiredHeight
           then expandMatrix (width m) requiredHeight m else m in
  let highPrice := 100 + upperWick candle in
  let lowPrice := 100 - bodySize candle - lowerWick candle in
  let '(openPrice, closePrice) :=
    if decide (type candle = bullish)
    then (100 - bodySize candle, 100)
    else (100, 100 - bodySize candle) in
  let positioned := mkPositioned candle 3 highPrice openPrice closePrice lowPrice in
  let m := set_candles (candles m ++ [positioned]) m in
  let m := set_prices (Num lowPrice) (Num highPrice) m in
  redrawAllCandles m.

(** [addCandle].  [priceRange] is a difference of the two bounds after
    their update, and is the first place where they are read. *)
Definition addCandle (candle : Candle) (m : DynamicMatrix) : option DynamicMatrix :=
  if (length (candles m) =? 0)%nat then addFirstCandle candle m
  else
    prevCandle ← last (candles m);
    let prevClose := closePrice prevCandle in
    let openPrice := prevClose in
    let visualSeparation := 1 in
    let openPrice :=
      if decide (type prevCandle = bullish ∧ type candle = bullish)
      then openPrice + visualSeparation
      else if decide (type prevCandle = bearish ∧ type candle = bearish)
      then openPrice - visualSeparation
      else openPrice in
    let '(closePrice, highPrice, lowPrice) :=
      if decide (type candle = bullish)
      then let closePrice := openPrice + bodySize candle in
           (closePrice, closePrice + upperWick candle, openPrice - lowerWick candle)
      else let closePrice := openPrice - bodySize candle in
           (closePrice, openPrice + upperWick candle, closePrice - lowerWick candle) in
    let m := set_prices (Math_min (minPrice m) (Num lowPrice))
                        (Math_max (maxPrice m) (Num highPrice)) m in
    hi ← finite (maxPrice m);
    lo ← finite (minPrice m);
    let priceRange := hi - lo in
    let requiredHeight := Math_ceil priceRange + 2 * buffer in
    let requiredWidth := (Z.of_nat (length (candles m)) + 1) * 6 + 3 in
    let m := if (height m <? requiredHeight) || (width m <? requiredWidth)
             then expandMatrix requiredWidth requiredHeight m else m in
    let positioned :=
      mkPositioned candle (column prevCandle + 6) highPrice openPrice closePrice lowPrice in
    let m := set_candles (candles m ++ [positioned]) m in
    redrawAllCandles m.

(** ** Reading the session *)

Definition getDimensions (m : DynamicMatrix) : Z * Z := (width m, height m).

Definition getCandlePositions (m : DynamicMatrix) : list PositionedCandle := candles m.

(** The lines of [toString]: each row joined without a separator. *)
Definition lines (m : DynamicMatrix) : list string :=
  String.concat EmptyString <$> data m.

Definition toString (m : DynamicMatrix) : string :=
  String.concat (String (Ascii.ascii_of_nat 10) EmptyString) (lines m).

(** ** Sessions, invariants and the vocabulary of the properties *)

(** The sessions a caller can build: [new DynamicMatrix()] followed by any
    calls of the two public methods, with candles satisfying [P]. *)
Inductive reachableBy (P : Candle → Prop) : DynamicMatrix → Prop :=
  | reach_new : reachableBy P new_DynamicMatrix
  | reach_addFirstCandle c m m' :
      reachableBy P m → P c → addFirstCandle c m = Some m' → reachableBy P m'
  | reach_addCandle c m m' :
      reachableBy P m → P c → addCandle c m = Some m' → reachableBy P m'.

Definition reachable : DynamicMatrix → Prop := reachableBy (fun _ => True).

(** The data model of the specification: magnitudes are not negative. *)
Definition valid (c : Candle) : Prop :=
  0 ≤ bodySize c ∧ 0 ≤ upperWick c ∧ 0 ≤ lowerWick c.

Definition in_canvas (m : DynamicMatrix) (row col : Z) : bool :=
  (0 <=? row) && (row <? height m) && (0 <=? col) && (col <? width m).

(** The grid has [height] rows of [width] cells. *)
Definition is_grid (h w : nat) (g : list (list string)) : Prop :=
  length g = h ∧ Forall (fun r => length r = w) g.

Definition grid_ok (m : DynamicMatrix) : Prop :=
  0 ≤ height m ∧ 0 ≤ width m ∧
  is_grid (Z.to_nat (height m)) (Z.to_nat (width m)) (data m).

(** Two states that differ in the grid's cells only. *)
Definition same_frame (m m' : DynamicMatrix) : Prop :=
  width m' = width m ∧ height m' = height m ∧
  minPrice m' = minPrice m ∧ maxPrice m' = maxPrice m ∧
  candles m' = candles m.

(** Case analysis on the integer comparisons of the goal, dropping the
    cases that are arithmetically impossible. *)
Ltac cases_on b :=
  let E := fresh "E" in
  destruct b eqn:E;
  [ first [apply Z.leb_le in E | apply Z.ltb_lt in E | apply Z.eqb_eq in E]
  | first [apply Z.leb_gt in E | apply Z.ltb_ge in E | apply Z.eqb_neq in E] ].

Ltac bool_cases :=
  repeat (match goal with
          | |- context [(?x <=? ?y)%Z] => cases_on (x <=? y)%Z
          | |- context [(?x <? ?y)%Z] => cases_on (x <? y)%Z
          | |- context [(?x =? ?y)%Z] => cases_on (x =? y)%Z
          end; try lia; simpl).

(** A loop body [f row] that writes [v] into the cells of [row] whose column
    satisfies [cols], where they lie on the canvas, and nothing else. *)
Definition paints (f : Z → DynamicMatrix → DynamicMatrix) (cols : Z → bool)
    (v : string) : Prop :=
  ∀ row m, grid_ok m →
    grid_ok (f row m) ∧ same_frame m (f row m) ∧
    ∀ r c, readCell (data (f row m)) r c =
           if (r =? row) && cols c && in_canvas m r c then Some v
           else readCell (data m) r c.

(** The body of the loop that draws the candle's body, three cells wide. *)
Definition bodyStep (col : Z) (v : string) (row : Z) (m : DynamicMatrix) : DynamicMatrix :=
  let m := if 0 <? col then setCell row (col - 1) v m else m in
  let m := setCell row col v m in
  if col <? width m - 1 then setCell row (col + 1) v m else m.

(** What [priceToRow] reads of the session. *)
Definition same_scale (m m' : DynamicMatrix) : Prop :=
  height m' = height m ∧ minPrice m' = minPrice m ∧ maxPrice m' = maxPrice m ∧
  length (candles m') = length (candles m).

(** The row before clamping, for finite bounds that differ. *)
Definition scaledRow (lo hi h price : Z) : Z :=
  buffer + Math_round (inject_Z (hi - price) / inject_Z (hi - lo) * inject_Z (h - 2 * buffer))%Q.

Definition bodySymbolOf (c : Candle) : string :=
  if decide (type c = bullish) then bullishBody else bearishBody.

(** The cell [(r, col)] after a candle with the given rows was drawn over a
    grid where the cell held [old]. *)
Definition drawnCell (c : PositionedCandle) (highRow openRow closeRow lowRow : Z)
    (r col : Z) (old : option string) : option string :=
  let bodyTopRow := Z.min openRow closeRow in
  let bodyBottomRow := Z.max openRow closeRow in
  if (bodyTopRow <=? r) && (r <=? bodyBottomRow) &&
     (column c - 1 <=? col) && (col <=? column c + 1)
  then Some (bodySymbolOf c)
  else if (col =? column c) &&
          ((highRow <=? r) && (r <? bodyTopRow) || (bodyBottomRow <? r) && (r <=? lowRow))
  then Some wickSymbol
  else old.

(** A session with candles has finite price bounds. *)
Definition scale_ok (m : DynamicMatrix) : Prop :=
  candles m ≠ [] → ∃ lo hi, minPrice m = Num lo ∧ maxPrice m = Num hi.

Definition session_ok (m : DynamicMatrix) : Prop :=
  grid_ok m ∧ defaultHeight ≤ height m ∧ defaultWidth ≤ width m ∧ scale_ok m.

(** The columns that [redrawAllCandles] assigns. *)
Definition columnOf (i : nat) : Z := 3 + 6 * Z.of_nat i.

Definition columns_ok (cs : list PositionedCandle) : Prop :=
  ∀ i c, cs !! i = Some c → column c = columnOf i.

Definition recolumned (cs : list PositionedCandle) : list PositionedCandle :=
  imap (fun i c => set_column (columnOf i) c) cs.

(** The rows kept free above and below the candles. *)
Definition is_margin (m : DynamicMatrix) (r : Z) : Prop :=
  0 ≤ r < buffer ∨ height m - buffer ≤ r < height m.

Definition margins_blank (m : DynamicMatrix) : Prop :=
  ∀ r col, is_margin m r → 0 ≤ col < width m →
           readCell (data m) r col = Some blank.

(** The separation [addCandle] applies between the previous close and the
    new open. *)
Definition separation (prev next : CandleType) : Z :=
  match prev, next with
  | bullish, bullish => 1
  | bearish, bearish => -1
  | _, _ => 0
  end.

(** With magnitudes that are not negative the bounds stay ordered. *)
Definition bounds_ordered (m : DynamicMatrix) : Prop :=
  ∀ lo hi, minPrice m = Num lo → maxPrice m = Num hi → lo ≤ hi.

(** [new DynamicMatrix()] after [addFirstCandle] of the bearish candle
    (body 3, upper wick 1, lower wick 2) of the repository's first test. *)
Definition session_bearish : DynamicMatrix :=
  Eval vm_compute in
    default new_DynamicMatrix
      (addFirstCandle (mkCandle bearish 3 1 2) new_DynamicMatrix).

(** A session whose only candle has no body and no wicks. *)
Definition session_flat : DynamicMatrix :=
  Eval vm_compute in
    default new_DynamicMatrix
      (addFirstCandle (mkCandle bullish 0 0 0) new_DynamicMatrix).

(** The rows of the grid whose cell in the candle's column holds the
    candle's body glyph. *)
Definition bodyRows (m : DynamicMatrix) (c : PositionedCandle) : list Z :=
  filter (fun r => readCell (data m) r (column c) = Some (bodySymbolOf c))
         (seqZ 0 (height m)).

(** ** The chart with axes: [MatrixASCIIChart]

    The class of [src/index.ts], in the guarded form that follows
    [DynamicMatrix] in [src/core-matrix.ts]: a write whose row is missing or
    whose column is not less than the row's length is skipped, which is what
    [writeCell] does.  An index below zero, which JavaScript would turn into
    a property that no rendering reads, is skipped as well. *)

Module MatrixASCIIChart.

Record t := mk {
  matrix : DynamicMatrix;
  showAxes : bool;
  showLabels : bool
}.

Definition new : t := mk new_DynamicMatrix false false.

Definition firstBullish (bodySize upperWick lowerWick : Z) (this : t) : option t :=
  m ← addFirstCandle (mkCandle bullish bodySize upperWick lowerWick) (matrix this);
  Some (mk m (showAxes this) (showLabels this)).

Definition firstBearish (bodySize upperWick lowerWick : Z) (this : t) : option t :=
  m ← addFirstCandle (mkCandle bearish bodySize upperWick lowerWick) (matrix this);
  Some (mk m (showAxes this) (showLabels this)).

Definition addBullish (bodySize upperWick lowerWick : Z) (this : t) : option t :=
  m ← addCandle (mkCandle bullish bodySize upperWick lowerWick) (matrix this);
  Some (mk m (showAxes this) (showLabels this)).

Definition addBearish (bodySize upperWick lowerWick : Z) (this : t) : option t :=
  m ← addCandle (mkCandle bearish bodySize upperWick lowerWick) (matrix this);
  Some (mk m (showAxes this) (showLabels this)).

Definition withAxes (this : t) : t := mk (matrix this) true (showLabels this).

Definition withAnnotations (this : t) : t := mk (matrix this) (showAxes this) true.

(** The characters of a text, each as a cell. *)
Definition chars (text : string) : list string :=
  (fun a => String a EmptyString) <$> list_ascii_of_string text.

(** [matrix[row][column] !== ' '] for a column below the row's length; a cell
    that cannot be read is [undefined], which differs from [' ']. *)
Definition occupied (matrixRow : list string) (column : Z) : bool :=
  (column <? Z.of_nat (length matrixRow)) &&
  match (if 0 <=? column then matrixRow !! Z.to_nat column else None) with
  | Some v => negb (bool_decide (v = blank))
  | None => true
  end.

Fixpoint findTopFrom (rows : list (list string)) (row column : Z) : option Z :=
  match rows with
  | [] => None
  | matrixRow :: rest =>
      if occupied matrixRow column then Some row
      else findTopFrom rest (row + 1) column
  end.

Definition findCandleTop (matrix : list (list string)) (column : Z) : Z :=
  default 0 (findTopFrom matrix 0 column).

Fixpoint writeChars (row col : Z) (text : list string) (width : Z)
    (matrix : list (list string)) : list (list string) :=
  match text with
  | [] => matrix
  | char :: rest =>
      let matrix := if (0 <=? col) && (col <? width)
                    then writeCell row col char matrix else matrix in
      writeChars row (col + 1) rest width matrix
  end.

Definition writeString (matrix : list (list string)) (row col : Z) (text : string)
  : list (list string) :=
  if (0 <=? row) && bool_decide (is_Some (matrix !! Z.to_nat row))
  then writeChars row col (chars text)
         (from_option (fun r => Z.of_nat (length r)) 0 (matrix !! 0%nat)) matrix
  else matrix.

(** White space that [trimEnd] removes, as far as one byte can hold it. *)
Definition is_space (a : Ascii.ascii) : bool :=
  let n := Ascii.nat_of_ascii a in
  (n =? 32)%nat || ((9 <=? n)%nat && (n <=? 13)%nat).

Fixpoint dropSpaces (l : list Ascii.ascii) : list Ascii.ascii :=
  match l with
  | a :: rest => if is_space a then dropSpaces rest else l
  | [] => []
  end.

Definition trimEnd (line : string) : string :=
  string_of_list_ascii (rev (dropSpaces (rev (list_ascii_of_string line)))).

Fixpoint popEmpty (reversed : list string) : list string :=
  match reversed with
  | line :: rest => if bool_decide (line = EmptyString) then popEmpty rest else reversed
  | [] => []
  end.

Definition formatLine (row : nat) (matrixRow : list string) : string :=
  match row with
  | 0%nat => " Price"
  | 1%nat => "   ↑ "
  | _ => trimEnd (String.concat EmptyString matrixRow)
  end.

(** The lines of [matrixToString], before they are joined. *)
Definition matrixToLines (matrix : list (list string)) : list string :=
  rev (popEmpty (rev (imap formatLine matrix))).

Definition newline : string := String (Ascii.ascii_of_nat 10) EmptyString.

Definition matrixToString (matrix : list (list string)) : string :=
  String.concat newline (matrixToLines matrix).

Definition copyGlyph (matrixData : list (list string)) (row col : Z)
    (finalMatrix : list (list string)) : list (list string) :=
  match readCell matrixData row col with
  | Some char =>
      if negb (bool_decide (char = EmptyString)) && negb (bool_decide (char = blank))
      then writeCell (row + 2) (col + 6) char finalMatrix
      else finalMatrix
  | None => finalMatrix
  end.

Definition label (index : nat) : string := String.append "C" (pretty (index + 1)%nat).

Fixpoint writeLabels (cs : list PositionedCandle) (index : nat)
    (finalMatrix : list (list string)) : list (list string) :=
  match cs with
  | [] => finalMatrix
  | candle :: rest =>
      let labelCol := column candle + 6 - 1 in
      let labelRow := findCandleTop finalMatrix (column candle + 6) - 1 in
      let finalMatrix := if 0 <=? labelRow
                         then writeString finalMatrix labelRow labelCol (label index)
                         else finalMatrix in
      writeLabels rest (S index) finalMatrix
  end.

Definition writeDot (totalWidth timeRow : Z) (finalMatrix : list (list string))
    (candle : PositionedCandle) : list (list string) :=
  let dotCol := column candle + 6 in
  if (0 <=? dotCol) && (dotCol <? totalWidth - 10)
  then writeCell timeRow dotCol "." finalMatrix else finalMatrix.

(** The grid that [toString] composes when the axes are shown and hands to
    [matrixToString]. *)
Definition overlay (this : t) : list (list string) :=
  let matrixData := data (matrix this) in
  let '(width, height) := getDimensions (matrix this) in
  let candles := getCandlePositions (matrix this) in
  let axisWidth := 4 in
  let axisHeight := 3 in
  let totalWidth := width + axisWidth + 10 in
  let totalHeight := height + axisHeight in
  let finalMatrix := createEmptyMatrix totalWidth totalHeight in
  let finalMatrix := writeString finalMatrix 0 1 "Price" in
  let finalMatrix := writeCell 1 3 "↑" finalMatrix in
  let finalMatrix := writeCell 1 4 " " finalMatrix in
  let finalMatrix :=
    forRange 2 (totalHeight - 1) (fun row => writeCell row 3 "|") finalMatrix in
  let rowOffset := 2 in
  let colOffset := axisWidth + 2 in
  let finalMatrix :=
    forRange 0 height (fun row =>
      forRange 0 width (fun col => copyGlyph matrixData row col)) finalMatrix in
  let finalMatrix :=
    if showLabels this then writeLabels candles 0 finalMatrix else finalMatrix in
  let timeRow := totalHeight - 1 in
  let finalMatrix :=
    forRange 4 (totalWidth - 10) (fun col => writeCell timeRow col "_") finalMatrix in
  let finalMatrix := foldl (writeDot totalWidth timeRow) finalMatrix candles in
  let arrowCol := Z.min (totalWidth - 10) 53 in
  let finalMatrix := writeCell timeRow arrowCol "→" finalMatrix in
  writeString finalMatrix timeRow (arrowCol + 2) "Time".

Definition toLines (this : t) : list string :=
  if negb (showAxes this) then lines (matrix this)
  else matrixToLines (overlay this).

Definition toString (this : t) : string :=
  if negb (showAxes this) then toString (matrix this)
  else matrixToString (overlay this).

Definition toMarkdown (this : t) : string :=
  String.append "```" (String.append newline
    (String.append (toString this) (String.append newline "```"))).

End MatrixASCIIChart.

(** ** The stages of [overlay] *)

(** The blank grid with the price label, the arrow and the vertical axis. *)
Definition overlay_axes (width height : Z) : list (list string) :=
  let finalMatrix := createEmptyMatrix (width + 4 + 10) (height + 3) in
  let finalMatrix := MatrixASCIIChart.writeString finalMatrix 0 1 "Price" in
  let finalMatrix := writeCell 1 3 "↑" finalMatrix in
  let finalMatrix := writeCell 1 4 " " finalMatrix in
  forRange 2 (height + 3 - 1) (fun row => writeCell row 3 "|") finalMatrix.

(** ... with the glyphs of the session's grid copied in. *)
Definition overlay_candles (m : DynamicMatrix) : list (list string) :=
  forRange 0 (height m) (fun row =>
    forRange 0 (width m) (fun col => MatrixASCIIChart.copyGlyph (data m) row col))
    (overlay_axes (width m) (height m)).

(** ... with the labels, when they are shown. *)
Definition overlay_labels (this : MatrixASCIIChart.t) : list (list string) :=
  let m := MatrixASCIIChart.matrix this in
  if MatrixASCIIChart.showLabels this
  then MatrixASCIIChart.writeLabels (candles m) 0 (overlay_candles m)
  else overlay_candles m.

(** The time axis, drawn over a grid [finalMatrix]. *)
Definition overlay_time (m : DynamicMatrix) (finalMatrix : list (list string))
  : list (list string) :=
  let totalWidth := width m + 4 + 10 in
  let timeRow := height m + 3 - 1 in
  let finalMatrix :=
    forRange 4 (totalWidth - 10) (fun col => writeCell timeRow col "_") finalMatrix in
  let finalMatrix :=
    foldl (MatrixASCIIChart.writeDot totalWidth timeRow) finalMatrix (candles m) in
  let arrowCol := Z.min (totalWidth - 10) 53 in
  let finalMatrix := writeCell timeRow arrowCol "→" finalMatrix in
  MatrixASCIIChart.writeString finalMatrix timeRow (arrowCol + 2) "Time".

(** A text with a character that [trimEnd] does not remove. *)
Definition has_ink (s : string) : Prop :=
  ∃ a, a ∈ list_ascii_of_string s ∧ MatrixASCIIChart.is_space a = false.

(** ** Vocabulary of the further properties *)

(** The four glyphs a grid can hold. *)
Definition glyph (v : string) : Prop :=
  v = blank ∨ v = wickSymbol ∨ v = bullishBody ∨ v = bearishBody.

(** The sessions of a caller who adds the first candle with either method
    and every later one with [addCandle]. *)
Inductive proper : DynamicMatrix → Prop :=
  | proper_new : proper new_DynamicMatrix
  | proper_first c m m' :
      proper m → candles m = [] → addFirstCandle c m = Some m' → proper m'
  | proper_add c m m' :
      proper m → addCandle c m = Some m' → proper m'.

(** The prices of a candle, from its open: where it closes and how far the
    wicks reach. *)
Definition well_shaped (pc : PositionedCandle) : Prop :=
  match type pc with
  | bullish =>
      closePrice pc = openPrice pc + bodySize pc ∧
      highPrice pc = closePrice pc + upperWick pc ∧
      lowPrice pc = openPrice pc - lowerWick pc
  | bearish =>
      closePrice pc = openPrice pc - bodySize pc ∧
      highPrice pc = openPrice pc + upperWick pc ∧
      lowPrice pc = closePrice pc - lowerWick pc
  end.

(** One call of a public method: [(true, c)] is [addFirstCandle c],
    [(false, c)] is [addCandle c]. *)
Definition call (op : bool * Candle) (m : DynamicMatrix) : option DynamicMatrix :=
  if op.1 then addFirstCandle op.2 m else addCandle op.2 m.

(** A sequence of calls, stopping at the first that returns nothing. *)
Fixpoint calls (ops : list (bool * Candle)) (m : DynamicMatrix) : option DynamicMatrix :=
  match ops with
  | [] => Some m
  | op :: rest => m ← call op m; calls rest m
  end.

(** * The exact model: fractions and the failing write

    [Candle] declares its magnitudes as [number], and nothing in the source
    rounds them before [addFirstCandle] passes [totalHeight + 2 * buffer] to
    [expandMatrix].  The module [Exact] follows the same methods with every
    price, magnitude, row and height a rational number ([Q]), and with the
    outcome of a call made explicit: a write [this.data[row][col] = char]
    whose row is no element of [this.data] throws a [TypeError].  Widths,
    columns and loop counters that start from an integer literal stay
    integers, as they do in the source.  Arithmetic is exact; the rounding
    of binary floating point is outside this model as well. *)

(** What a call does: it returns, it throws, or it computes with a
    non-finite price bound, where the model does not follow it. *)
Inductive outcome (A : Type) : Type :=
  | Returns (a : A)
  | Throws
  | NotFollowed.

Arguments Returns {A} a.
Arguments Throws {A}.
Arguments NotFollowed {A}.

Global Instance outcome_ret : MRet outcome := @Returns.

Global Instance outcome_bind : MBind outcome := fun A B f x =>
  match x with
  | Returns a => f a
  | Throws => Throws
  | NotFollowed => NotFollowed
  end.

(** [Math.min] and [Math.max] of two finite numbers. *)
Definition minQ (a b : Q) : Q := if Qle_bool a b then a else b.

Definition maxQ (a b : Q) : Q := if Qle_bool a b then b else a.

Definition Qlt_bool (a b : Q) : bool := negb (Qle_bool b a).

(** How often [for (let row = from; row < upto; row++)] runs its body, and
    how often with [row <= upto]. *)
Definition iterations_lt (from upto : Q) : nat := Z.to_nat (Qceiling (upto - from)).

Definition iterations_le (from upto : Q) : nat := Z.to_nat (Qfloor (upto - from) + 1).

(** The body of such a loop, run [n] times from [row]; a body that throws
    ends the loop. *)
Fixpoint forRows {S : Type} (n : nat) (row : Q) (body : Q → S → outcome S) (s : S)
  : outcome S :=
  match n with
  | O => Returns s
  | Datatypes.S n => s ← body row s; forRows n (row + 1)%Q body s
  end.

Module Exact.

Record Candle := mkCandle {
  type : CandleType;
  bodySize : Q;
  upperWick : Q;
  lowerWick : Q
}.

Record PositionedCandle := mkPositioned {
  candle :> Candle;
  column : Z;
  highPrice : Q;
  openPrice : Q;
  closePrice : Q;
  lowPrice : Q
}.

Inductive num := NegInfinity | Num (q : Q) | Infinity.

Record DynamicMatrix := mkMatrix {
  data : list (list string);
  width : Z;
  height : Q;
  minPrice : num;
  maxPrice : num;
  candles : list PositionedCandle
}.

Definition buffer : Q := 1.

Definition finite (x : num) : outcome Q :=
  match x with Num q => Returns q | _ => NotFollowed end.

Definition Math_min (a b : num) : num :=
  match a, b with
  | NegInfinity, _ | _, NegInfinity => NegInfinity
  | Infinity, x | x, Infinity => x
  | Num x, Num y => Num (minQ x y)
  end.

Definition Math_max (a b : num) : num :=
  match a, b with
  | Infinity, _ | _, Infinity => Infinity
  | NegInfinity, x | x, NegInfinity => x
  | Num x, Num y => Num (maxQ x y)
  end.

Definition set_data (d : list (list string)) (m : DynamicMatrix) : DynamicMatrix :=
  mkMatrix d (width m) (height m) (minPrice m) (maxPrice m) (candles m).

Definition set_candles (cs : list PositionedCandle) (m : DynamicMatrix) : DynamicMatrix :=
  mkMatrix (data m) (width m) (height m) (minPrice m) (maxPrice m) cs.

Definition set_prices (lo hi : num) (m : DynamicMatrix) : DynamicMatrix :=
  mkMatrix (data m) (width m) (height m) lo hi (candles m).

Definition set_column (col : Z) (c : PositionedCandle) : PositionedCandle :=
  mkPositioned (candle c) col (highPrice c) (openPrice c) (closePrice c) (lowPrice c).

(** [createEmptyMatrix]: the counter [row] runs over the integers below
    [height], so the grid has as many rows as [height] rounded up. *)
Definition createEmptyMatrix (width : Z) (height : Q) : list (list string) :=
  createEmptyMatrix width (Qceiling height).

Definition new_DynamicMatrix : DynamicMatrix :=
  mkMatrix (createEmptyMatrix defaultWidth (inject_Z defaultHeight))
           defaultWidth (inject_Z defaultHeight) Infinity NegInfinity [].

(** [expandMatrix]: the copy loop counts [row] from 0 while it is less than
    the old height. *)
Definition expandMatrix (newWidth : Z) (newHeight : Q) (m : DynamicMatrix)
  : DynamicMatrix :=
  if (newWidth <=? width m) && Qle_bool newHeight (height m) then m
  else
    let actualWidth := Z.max (width m) newWidth in
    let actualHeight := maxQ (height m) newHeight in
    let newMatrix := createEmptyMatrix actualWidth actualHeight in
    let newMatrix :=
      forRange 0 (Qceiling (height m)) (fun row =>
        forRange 0 (width m) (fun col => copyCell (data m) row col)) newMatrix in
    mkMatrix newMatrix actualWidth actualHeight (minPrice m) (maxPrice m) (candles m).

(** [setCell].  Past the guard, [this.data[row]] is an array only for a row
    that is an integer and below [data.length]; for any other row it is
    [undefined], and the assignment to its element throws. *)
Definition setCell (row : Q) (col : Z) (char : string) (m : DynamicMatrix)
  : outcome DynamicMatrix :=
  if Qle_bool 0 row && Qlt_bool row (height m) && (0 <=? col) && (col <? width m)
  then
    if Qeq_bool (inject_Z (Qfloor row)) row &&
       bool_decide (is_Some (data m !! Z.to_nat (Qfloor row)))
    then Returns (set_data (writeCell (Qfloor row) col char (data m)) m)
    else Throws
  else Returns m.

Definition priceToRow (m : DynamicMatrix) (price : Q) : outcome Q :=
  if (length (candles m) =? 0)%nat then Returns 0%Q
  else
    hi ← finite (maxPrice m);
    lo ← finite (minPrice m);
    let priceRange := (hi - lo)%Q in
    if Qeq_bool priceRange 0 then Returns (inject_Z (Qfloor (height m / 2)))
    else
      let normalized := ((hi - price) / priceRange)%Q in
      let availableHeight := (height m - 2 * buffer)%Q in
      let row := (buffer + inject_Z (Math_round (normalized * availableHeight)))%Q in
      Returns (maxQ buffer (minQ row (height m - buffer - 1))).

Definition drawCandle (c : PositionedCandle) (m : DynamicMatrix) : outcome DynamicMatrix :=
  highRow ← priceToRow m (highPrice c);
  openRow ← priceToRow m (openPrice c);
  closeRow ← priceToRow m (closePrice c);
  lowRow ← priceToRow m (lowPrice c);
  let bodySymbol := if decide (type c = bullish) then bullishBody else bearishBody in
  let bodyTopRow := minQ openRow closeRow in
  let bodyBottomRow := maxQ openRow closeRow in
  m ← forRows (iterations_lt highRow bodyTopRow) highRow
        (fun row => setCell row (column c) wickSymbol) m;
  m ← forRows (iterations_le bodyTopRow bodyBottomRow) bodyTopRow
        (fun row m =>
           m ← (if 0 <? column c
                then setCell row (column c - 1) bodySymbol m else Returns m);
           m ← setCell row (column c) bodySymbol m;
           if column c <? width m - 1
           then setCell row (column c + 1) bodySymbol m else Returns m) m;
  forRows (iterations_le (bodyBottomRow + 1) lowRow) (bodyBottomRow + 1)%Q
    (fun row => setCell row (column c) wickSymbol) m.

Fixpoint redrawFrom (idx : list nat) (currentColumn : Z) (m : DynamicMatrix)
  : outcome DynamicMatrix :=
  match idx with
  | [] => Returns m
  | i :: rest =>
      match candles m !! i with
      | Some c =>
          let c := set_column currentColumn c in
          let m := set_candles (<[i := c]> (candles m)) m in
          m ← drawCandle c m;
          redrawFrom rest (currentColumn + 6) m
      | None => NotFollowed
      end
  end.

Definition redrawAllCandles (m : DynamicMatrix) : outcome DynamicMatrix :=
  let m := set_data (createEmptyMatrix (width m) (height m)) m in
  redrawFrom (seq 0 (length (candles m))) 3 m.

(** [addFirstCandle]: [requiredHeight] goes to [expandMatrix] as it is. *)
Definition addFirstCandle (candle : Candle) (m : DynamicMatrix) : outcome DynamicMatrix :=
  let totalHeight := (bodySize candle + upperWick candle + lowerWick candle)%Q in
  let requiredHeight := (totalHeight + 2 * buffer)%Q in
  let m := if Qlt_bool (height m) requiredHeight
           then expandMatrix (width m) requiredHeight m else m in
  let highPrice := (100 + upperWick candle)%Q in
  let lowPrice := (100 - bodySize candle - lowerWick candle)%Q in
  let '(openPrice, closePrice) :=
    if decide (type candle = bullish)
    then ((100 - bodySize candle)%Q, 100%Q)
    else (100%Q, (100 - bodySize candle)%Q) in
  let positioned := mkPositioned candle 3 highPrice openPrice closePrice lowPrice in
  let m := set_candles (candles m ++ [positioned]) m in
  let m := set_prices (Num lowPrice) (Num highPrice) m in
  redrawAllCandles m.

(** [addCandle]: here [requiredHeight] is rounded up with [Math.ceil]. *)
Definition addCandle (candle : Candle) (m : DynamicMatrix) : outcome DynamicMatrix :=
  if (length (candles m) =? 0)%nat then addFirstCandle candle m
  else
    match last (candles m) with
    | None => NotFollowed
    | Some prevCandle =>
        let prevClose := closePrice prevCandle in
        let openPrice := prevClose in
        let visualSeparation := 1%Q in
        let openPrice :=
          if decide (type prevCandle = bullish ∧ type candle = bullish)
          then (openPrice + visualSeparation)%Q
          else if decide (type prevCandle = bearish ∧ type candle = bearish)
          then (openPrice - visualSeparation)%Q
          else openPrice in
        let '(closePrice, highPrice, lowPrice) :=
          if decide (type candle = bullish)
          then let closePrice := (openPrice + bodySize candle)%Q in
               (closePrice, (closePrice + upperWick candle)%Q,
                (openPrice - lowerWick candle)%Q)
          else let closePrice := (openPrice - bodySize candle)%Q in
               (closePrice, (openPrice + upperWick candle)%Q,
                (closePrice - lowerWick candle)%Q) in
        let m := set_prices (Math_min (minPrice m) (Num lowPrice))
                            (Math_max (maxPrice m) (Num highPrice)) m in
        hi ← finite (maxPrice m);
        lo ← finite (minPrice m);
        let priceRange := (hi - lo)%Q in
        let requiredHeight := (inject_Z (Qceiling priceRange) + 2 * buffer)%Q in
        let requiredWidth := (Z.of_nat (length (candles m)) + 1) * 6 + 3 in
        let m := if Qlt_bool (height m) requiredHeight || (width m <? requiredWidth)
                 then expandMatrix requiredWidth requiredHeight m else m in
        let positioned :=
          mkPositioned candle (column prevCandle + 6)
                       highPrice openPrice closePrice lowPrice in
        let m := set_candles (candles m ++ [positioned]) m in
        redrawAllCandles m
    end.

Definition getMatrix (m : DynamicMatrix) : list (list string) := data m.

Definition getDimensions (m : DynamicMatrix) : Z * Q := (width m, height m).

Definition getCandlePositions (m : DynamicMatrix) : list PositionedCandle := candles m.

(** The sessions a caller can build with candles satisfying [P], from calls
    that return. *)
Inductive reachableBy (P : Candle → Prop) : DynamicMatrix → Prop :=
  | reach_new : reachableBy P new_DynamicMatrix
  | reach_addFirstCandle c m m' :
      reachableBy P m → P c → addFirstCandle c m = Returns m' → reachableBy P m'
  | reach_addCandle c m m' :
      reachableBy P m → P c → addCandle c m = Returns m' → reachableBy P m'.

Definition reachable : DynamicMatrix → Prop := reachableBy (fun _ => True).

(** The grid has as many rows as [height] rounded up, of [width] cells. *)
Definition grid_ok (m : DynamicMatrix) : Prop :=
  0 ≤ width m ∧
  is_grid (Z.to_nat (Qceiling (height m))) (Z.to_nat (width m)) (data m).

(** What drawing keeps: the extents, the shape of the grid, and glyphs in
    its cells. *)
Definition canvas_kept (m m' : DynamicMatrix) : Prop :=
  width m' = width m ∧ height m' = height m ∧
  (∀ H W, is_grid H W (data m) → is_grid H W (data m')) ∧
  ((∀ r c v, readCell (data m) r c = Some v → glyph v) →
   ∀ r c v, readCell (data m') r c = Some v → glyph v).

(** The sessions of a caller who adds the first candle with either method
    and every later one with [addCandle]. *)
Inductive properBy (P : Candle → Prop) : DynamicMatrix → Prop :=
  | proper_new : properBy P new_DynamicMatrix
  | proper_first c m m' :
      properBy P m → P c → candles m = [] → addFirstCandle c m = Returns m' →
      properBy P m'
  | proper_add c m m' :
      properBy P m → P c → addCandle c m = Returns m' → properBy P m'.

(** One call of a public method: [(true, c)] is [addFirstCandle c],
    [(false, c)] is [addCandle c]. *)
Definition call (op : bool * Candle) (m : DynamicMatrix) : outcome DynamicMatrix :=
  if op.1 then addFirstCandle op.2 m else addCandle op.2 m.

(** A sequence of calls, ending at the first that does not return. *)
Fixpoint calls (ops : list (bool * Candle)) (m : DynamicMatrix) : outcome DynamicMatrix :=
  match ops with
  | [] => Returns m
  | op :: rest => m ← call op m; calls rest m
  end.

End Exact.

(** ** Whole numbers in the exact model *)

Definition exactCandle (c : Candle) : Exact.Candle :=
  Exact.mkCandle (type c) (inject_Z (bodySize c)) (inject_Z (upperWick c))
                 (inject_Z (lowerWick c)).

Definition exactPositioned (c : PositionedCandle) : Exact.PositionedCandle :=
  Exact.mkPositioned (exactCandle c) (column c) (inject_Z (highPrice c))
    (inject_Z (openPrice c)) (inject_Z (closePrice c)) (inject_Z (lowPrice c)).

Definition exactNum (x : num) : Exact.num :=
  match x with
  | NegInfinity => Exact.NegInfinity
  | Num z => Exact.Num (inject_Z z)
  | Infinity => Exact.Infinity
  end.

(** A state of the integer model, as a state of the exact model. *)
Definition exact (m : DynamicMatrix) : Exact.DynamicMatrix :=
  Exact.mkMatrix (data m) (width m) (inject_Z (height m))
    (exactNum (minPrice m)) (exactNum (maxPrice m)) (exactPositioned <$> candles m).

(** The result of a method of the integer model, as an outcome. *)
Definition exactResult (r : option DynamicMatrix) : outcome Exact.DynamicMatrix :=
  match r with
  | Some m => Returns (exact m)
  | None => NotFollowed
  end.

(** A candle whose three magnitudes are whole numbers, each written over the
    denominator 1, as [inject_Z] writes it. *)
Definition whole (c : Exact.Candle) : Prop := ∃ c0 : Candle, c = exactCandle c0.

Definition exactCall (op : bool * Candle) : bool * Exact.Candle :=
  (op.1, exactCandle op.2).

(** [new DynamicMatrix()] after [addFirstCandle] of a bearish candle with a
    body of six and a half and no wicks: the height is 8.5, over nine rows. *)
Definition session_fractional : Exact.DynamicMatrix :=
  Eval vm_compute in
    match Exact.addFirstCandle (Exact.mkCandle bearish (13 # 2) 0 0)
            Exact.new_DynamicMatrix with
    | Returns m => m
    | _ => Exact.new_DynamicMatrix
    end.

(** A candle with no body, an upper wick of six and a half and no lower
    wick. *)
Definition candle_six_and_a_half : Exact.Candle :=
  Exact.mkCandle bullish 0 (13 # 2) 0.

(** ** The chart with axes, over the exact model

    [toString] of [MatrixASCIIChart] as above, with the height a rational
    number: the loops count integer rows below a bound that may be
    fractional, and [finalMatrix[timeRow]] is a row only when [timeRow] is
    an integer, so that with a fractional height every write of the time
    axis is skipped. *)

Module ExactChart.

Record t := mk {
  matrix : Exact.DynamicMatrix;
  showAxes : bool;
  showLabels : bool
}.

Fixpoint writeLabels (cs : list Exact.PositionedCandle) (index : nat)
    (finalMatrix : list (list string)) : list (list string) :=
  match cs with
  | [] => finalMatrix
  | candle :: rest =>
      let labelCol := Exact.column candle + 6 - 1 in
      let labelRow :=
        MatrixASCIIChart.findCandleTop finalMatrix (Exact.column candle + 6) - 1 in
      let finalMatrix :=
        if 0 <=? labelRow
        then MatrixASCIIChart.writeString finalMatrix labelRow labelCol
               (MatrixASCIIChart.label index)
        else finalMatrix in
      writeLabels rest (S index) finalMatrix
  end.

Definition writeDot (totalWidth timeRow : Z) (finalMatrix : list (list string))
    (candle : Exact.PositionedCandle) : list (list string) :=
  let dotCol := Exact.column candle + 6 in
  if (0 <=? dotCol) && (dotCol <? totalWidth - 10)
  then writeCell timeRow dotCol "." finalMatrix else finalMatrix.

Definition overlay (this : t) : list (list string) :=
  let matrixData := Exact.getMatrix (matrix this) in
  let '(width, height) := Exact.getDimensions (matrix this) in
  let candles := Exact.getCandlePositions (matrix this) in
  let axisWidth := 4 in
  let axisHeight := 3%Q in
  let totalWidth := width + axisWidth + 10 in
  let totalHeight := (height + axisHeight)%Q in
  let finalMatrix := Exact.createEmptyMatrix totalWidth totalHeight in
  let finalMatrix := MatrixASCIIChart.writeString finalMatrix 0 1 "Price" in
  let finalMatrix := writeCell 1 3 "↑" finalMatrix in
  let finalMatrix := writeCell 1 4 " " finalMatrix in
  let finalMatrix :=
    forRange 2 (Qceiling (totalHeight - 1)) (fun row => writeCell row 3 "|") finalMatrix in
  let finalMatrix :=
    forRange 0 (Qceiling height) (fun row =>
      forRange 0 width (fun col => MatrixASCIIChart.copyGlyph matrixData row col))
      finalMatrix in
  let finalMatrix :=
    if showLabels this then writeLabels candles 0 finalMatrix else finalMatrix in
  let timeRow := (totalHeight - 1)%Q in
  if Qeq_bool (inject_Z (Qfloor timeRow)) timeRow
  then
    let timeRow := Qfloor timeRow in
    let finalMatrix :=
      forRange 4 (totalWidth - 10) (fun col => writeCell timeRow col "_") finalMatrix in
    let finalMatrix := foldl (writeDot totalWidth timeRow) finalMatrix candles in
    let arrowCol := Z.min (totalWidth - 10) 53 in
    let finalMatrix := writeCell timeRow arrowCol "→" finalMatrix in
    MatrixASCIIChart.writeString finalMatrix timeRow (arrowCol + 2) "Time"
  else finalMatrix.

Definition toLines (this : t) : list string :=
  if negb (showAxes this) then String.concat EmptyString <$> Exact.data (matrix this)
  else MatrixASCIIChart.matrixToLines (overlay this).

End ExactChart.

(** A chart of the integer model, as a chart of the exact model. *)
Definition exactChart (this : MatrixASCIIChart.t) : ExactChart.t :=
  ExactChart.mk (exact (MatrixASCIIChart.matrix this))
    (MatrixASCIIChart.showAxes this) (MatrixASCIIChart.showLabels this).

(** * Lemmas *)

(** ** The chart of the README *)

(** A bearish candle (3, 1, 2) then a bullish one (2, 1, 1): the grid is the
    one the README prints between its axes. *)
Example readme_chart :
  lines <$> (addFirstCandle (mkCandle bearish 3 1 2) new_DynamicMatrix
             ≫= addCandle (mkCandle bullish 2 1 1))
  = Some [ "               ";
           "   |           ";
           "  ░░░    |     ";
           "  ░░░   ███    ";
           "  ░░░   ███    ";
           "  ░░░   ███    ";
           "   |     |     ";
           "               " ]%string.
Proof. by vm_compute. Qed.

(** ** Lemmas on the grid *)

Lemma is_grid_create (w h : Z) :
  is_grid (Z.to_nat h) (Z.to_nat w) (createEmptyMatrix w h).
Proof.
  unfold is_grid, createEmptyMatrix. split.
  - apply length_replicate.
  - apply Forall_replicate, length_replicate.
Qed.

Lemma readCell_create (w h r c : Z) :
  0 ≤ r < h → 0 ≤ c < w → readCell (createEmptyMatrix w h) r c = Some blank.
Proof.
  intros Hr Hc. unfold readCell, createEmptyMatrix.
  replace (0 <=? r) with true by lia. replace (0 <=? c) with true by lia. simpl.
  rewrite lookup_replicate_2 by lia. simpl.
  rewrite lookup_replicate_2 by lia. done.
Qed.

Lemma is_grid_writeCell h w r c v g :
  is_grid h w g → is_grid h w (writeCell r c v g).
Proof.
  intros [Hl Hf]. unfold writeCell. split.
  - by rewrite length_alter.
  - rewrite Forall_lookup in Hf. apply Forall_lookup. intros i x Hx.
    destruct (decide (i = Z.to_nat r)) as [->|Hne].
    + rewrite list_lookup_alter_eq in Hx.
      destruct (g !! Z.to_nat r) as [y|] eqn:Hy; simplify_eq/=.
      rewrite length_insert. eauto.
    + rewrite list_lookup_alter_ne in Hx by done. eauto.
Qed.

Lemma is_grid_readCell h w g r c :
  is_grid h w g → 0 ≤ r → 0 ≤ c → (Z.to_nat r < h)%nat → (Z.to_nat c < w)%nat →
  is_Some (readCell g r c).
Proof.
  intros [Hl Hf] Hr Hc Hrh Hcw. unfold readCell.
  replace (0 <=? r) with true by lia. replace (0 <=? c) with true by lia. simpl.
  destruct (lookup_lt_is_Some_2 g (Z.to_nat r)) as [x Hx]; [lia|].
  rewrite Hx. simpl. apply lookup_lt_is_Some_2.
  rewrite Forall_lookup in Hf. rewrite (Hf _ _ Hx). done.
Qed.

Lemma readCell_writeCell_eq g r c v :
  is_Some (readCell g r c) → readCell (writeCell r c v g) r c = Some v.
Proof.
  unfold readCell, writeCell. intros [x Hx].
  destruct ((0 <=? r) && (0 <=? c)); [|done].
  rewrite list_lookup_alter_eq.
  destruct (g !! Z.to_nat r) as [y|] eqn:Hy; simplify_eq/=.
  apply list_lookup_insert_eq. by eapply lookup_lt_Some.
Qed.

Lemma readCell_writeCell_ne g r c v r' c' :
  0 ≤ r → 0 ≤ c → (r', c') ≠ (r, c) →
  readCell (writeCell r c v g) r' c' = readCell g r' c'.
Proof.
  unfold readCell, writeCell. intros Hr Hc Hne.
  destruct (0 <=? r') eqn:Hr'; [|done]. destruct (0 <=? c') eqn:Hc'; [|done]. simpl.
  destruct (decide (Z.to_nat r' = Z.to_nat r)) as [Heq|Hn].
  - rewrite Heq, list_lookup_alter_eq.
    destruct (g !! Z.to_nat r) as [y|]; [|done]. simpl.
    apply list_lookup_insert_ne. intros Hcc. apply Hne. f_equal; lia.
  - by rewrite list_lookup_alter_ne.
Qed.

(** ** Loops *)

Section Loops.
Context {A B : Type} (f : A → B → A).

(** An invariant of every step holds after the loop. *)
Lemma foldl_inv (I : A → Prop) (l : list B) (a : A) :
  I a → (∀ a b, b ∈ l → I a → I (f a b)) → I (foldl f a l).
Proof.
  revert a. induction l as [|b l IH]; intros a Ha Hstep; simpl; [done|].
  apply IH.
  - apply Hstep; [left | done].
  - intros a' b' Hb'. apply Hstep. by right.
Qed.

(** What the step for [x] establishes and the other steps keep holds
    after the loop. *)
Lemma foldl_establish (I P : A → Prop) (l : list B) (a : A) (x : B) :
  x ∈ l → I a →
  (∀ a b, b ∈ l → I a → I (f a b)) →
  (∀ a, I a → P (f a x)) →
  (∀ a b, b ∈ l → I a → P a → P (f a b)) →
  P (foldl f a l).
Proof.
  revert a. induction l as [|b l IH]; intros a Hx Ha HI Hest Hkeep.
  - by apply elem_of_nil in Hx.
  - simpl. apply elem_of_cons in Hx as [->|Hx].
    + assert (I (f a b) ∧ P (f a b)) as Hstart.
      { split; [apply HI; [left|done] | by apply Hest]. }
      apply (foldl_inv (fun s => I s ∧ P s)); [done|].
      intros a' b' Hb' [Ha' Hp']. split.
      * apply HI; [by right | done].
      * apply Hkeep; [by right | done | done].
    + apply IH; [done | | | done |].
      * apply HI; [left | done].
      * intros a' b' Hb'. apply HI. by right.
      * intros a' b' Hb'. apply Hkeep. by right.
Qed.
End Loops.

Lemma readCell_Some_nonneg g r c v : readCell g r c = Some v → 0 ≤ r ∧ 0 ≤ c.
Proof.
  unfold readCell. destruct (0 <=? r) eqn:Hr, (0 <=? c) eqn:Hc; simpl; try done.
  lia.
Qed.

Lemma readCell_Some_lt h w g r c v :
  is_grid h w g → readCell g r c = Some v →
  (Z.to_nat r < h)%nat ∧ (Z.to_nat c < w)%nat.
Proof.
  intros [Hl Hf] Hrc. unfold readCell in Hrc.
  destruct ((0 <=? r) && (0 <=? c)); [|done].
  destruct (g !! Z.to_nat r) as [x|] eqn:Hx; [|done]. simpl in Hrc.
  rewrite Forall_lookup in Hf. split.
  - rewrite <- Hl. by eapply lookup_lt_Some.
  - rewrite <- (Hf _ _ Hx). by eapply lookup_lt_Some.
Qed.

(** ** expandMatrix *)

Lemma is_grid_copyCell h w old r c g :
  is_grid h w g → is_grid h w (copyCell old r c g).
Proof.
  intros Hg. unfold copyCell. destruct (readCell old r c); [|done].
  by apply is_grid_writeCell.
Qed.

Lemma copyCell_establish old r c v g :
  readCell old r c = Some v → is_Some (readCell g r c) →
  readCell (copyCell old r c g) r c = Some v.
Proof.
  intros Hold Hg. unfold copyCell. rewrite Hold. by apply readCell_writeCell_eq.
Qed.

Lemma copyCell_keep old r c v r' c' g :
  readCell old r c = Some v → readCell g r c = Some v →
  readCell (copyCell old r' c' g) r c = Some v.
Proof.
  intros Hold Hg. unfold copyCell.
  destruct (readCell old r' c') as [v'|] eqn:Hv'; [|done].
  destruct (readCell_Some_nonneg _ _ _ _ Hv') as [Hr' Hc'].
  destruct (decide ((r, c) = (r', c'))) as [Heq|Hne].
  - simplify_eq. apply readCell_writeCell_eq. by rewrite Hg.
  - rewrite readCell_writeCell_ne; done.
Qed.

Lemma expandMatrix_noop nw nh m :
  nw ≤ width m → nh ≤ height m → expandMatrix nw nh m = m.
Proof.
  intros Hw Hh. unfold expandMatrix.
  replace (nw <=? width m) with true by lia.
  replace (nh <=? height m) with true by lia. done.
Qed.

Lemma expandMatrix_frame nw nh m :
  width (expandMatrix nw nh m) = Z.max (width m) nw ∧
  height (expandMatrix nw nh m) = Z.max (height m) nh ∧
  minPrice (expandMatrix nw nh m) = minPrice m ∧
  maxPrice (expandMatrix nw nh m) = maxPrice m ∧
  candles (expandMatrix nw nh m) = candles m.
Proof.
  unfold expandMatrix.
  destruct (nw <=? width m) eqn:Hw, (nh <=? height m) eqn:Hh; simpl;
    repeat split; lia.
Qed.

Lemma grid_ok_expandMatrix nw nh m :
  grid_ok m → grid_ok (expandMatrix nw nh m).
Proof.
  intros (Hh & Hw & Hg). unfold expandMatrix.
  destruct ((nw <=? width m) && (nh <=? height m)); [done|].
  unfold grid_ok; simpl. split; [lia|]. split; [lia|].
  unfold forRange. apply foldl_inv; [apply is_grid_create|].
  intros g row _ Hgrid. apply foldl_inv; [done|].
  intros g' col _ Hgrid'. by apply is_grid_copyCell.
Qed.

Lemma expandMatrix_keeps_cell nw nh m r c v :
  grid_ok m → readCell (data m) r c = Some v →
  readCell (data (expandMatrix nw nh m)) r c = Some v.
Proof.
  intros (Hh & Hw & Hg) Hcell. unfold expandMatrix.
  destruct ((nw <=? width m) && (nh <=? height m)); [done|]. simpl.
  destruct (readCell_Some_nonneg _ _ _ _ Hcell) as [Hr Hc].
  destruct (readCell_Some_lt _ _ _ _ _ _ Hg Hcell) as [Hrh Hcw].
  set (H' := Z.to_nat (Z.max (height m) nh)).
  set (W' := Z.to_nat (Z.max (width m) nw)).
  assert (∀ g, is_grid H' W' g → is_Some (readCell g r c)) as Hsome.
  { intros g Hgrid. eapply is_grid_readCell; [done|lia|lia| |]; subst H' W'; lia. }
  unfold forRange.
  apply (foldl_establish _ (is_grid H' W') (fun g => readCell g r c = Some v) _ _ r).
  - apply elem_of_seqZ. lia.
  - apply is_grid_create.
  - intros g row _ Hgrid. apply foldl_inv; [done|].
    intros g' col _ Hgrid'. by apply is_grid_copyCell.
  - intros g Hgrid.
    apply (foldl_establish _ (is_grid H' W') (fun g => readCell g r c = Some v) _ _ c).
    + apply elem_of_seqZ. lia.
    + done.
    + intros g' col _ Hgrid'. by apply is_grid_copyCell.
    + intros g' Hgrid'. apply copyCell_establish; [done|]. by apply Hsome.
    + intros g' col _ _ Hkeep. by apply copyCell_keep.
  - intros g row _ Hgrid Hkeep.
    apply (foldl_inv _ (fun g => readCell g r c = Some v)); [done|].
    intros g' col _ Hkeep'. by apply copyCell_keep.
Qed.

(** ** setCell and the painting loops *)

Lemma same_frame_refl m : same_frame m m.
Proof. by repeat split. Qed.

Lemma same_frame_trans m1 m2 m3 :
  same_frame m1 m2 → same_frame m2 m3 → same_frame m1 m3.
Proof.
  intros (?&?&?&?&?) (?&?&?&?&?). repeat split; congruence.
Qed.

Lemma in_canvas_frame m m' r c : same_frame m m' → in_canvas m' r c = in_canvas m r c.
Proof. intros (Hw & Hh & _). unfold in_canvas. by rewrite Hw, Hh. Qed.

Lemma setCell_frame row col v m : same_frame m (setCell row col v m).
Proof.
  unfold setCell.
  destruct ((0 <=? row) && (row <? height m) && (0 <=? col) && (col <? width m));
    by repeat split.
Qed.

Lemma grid_ok_setCell row col v m : grid_ok m → grid_ok (setCell row col v m).
Proof.
  intros (Hh & Hw & Hg). unfold setCell.
  destruct ((0 <=? row) && (row <? height m) && (0 <=? col) && (col <? width m));
    [|done].
  split; [done|]. split; [done|]. simpl. by apply is_grid_writeCell.
Qed.

Lemma readCell_setCell m row col v r c :
  grid_ok m →
  readCell (data (setCell row col v m)) r c =
  if (r =? row) && (c =? col) && in_canvas m r c then Some v
  else readCell (data m) r c.
Proof.
  intros (Hh & Hw & Hg). unfold setCell, in_canvas.
  destruct (r =? row) eqn:Er; destruct (c =? col) eqn:Ec; simpl.
  - apply Z.eqb_eq in Er, Ec. subst r c.
    destruct ((0 <=? row) && (row <? height m) && (0 <=? col) && (col <? width m))
      eqn:Hin; [|done].
    simpl. apply readCell_writeCell_eq.
    eapply is_grid_readCell; [done|lia|lia|lia|lia].
  - destruct ((0 <=? row) && (row <? height m) && (0 <=? col) && (col <? width m))
      eqn:Hin; [|done].
    simpl. apply readCell_writeCell_ne; [lia|lia|]. intros [=]. lia.
  - destruct ((0 <=? row) && (row <? height m) && (0 <=? col) && (col <? width m))
      eqn:Hin; [|done].
    simpl. apply readCell_writeCell_ne; [lia|lia|]. intros [=]. lia.
  - destruct ((0 <=? row) && (row <? height m) && (0 <=? col) && (col <? width m))
      eqn:Hin; [|done].
    simpl. apply readCell_writeCell_ne; [lia|lia|]. intros [=]. lia.
Qed.

Lemma paints_foldl f cols v (l : list Z) m :
  paints f cols v → grid_ok m →
  let m' := foldl (fun acc i => f i acc) m l in
  grid_ok m' ∧ same_frame m m' ∧
  ∀ r c, readCell (data m') r c =
         if bool_decide (r ∈ l) && cols c && in_canvas m r c then Some v
         else readCell (data m) r c.
Proof.
  intros Hf. revert m. induction l as [|x l IH]; intros m Hm; cbn [foldl].
  - split; [done|]. split; [apply same_frame_refl|]. intros r c.
    by rewrite bool_decide_eq_false_2 by apply not_elem_of_nil.
  - destruct (Hf x m Hm) as (Hok & Hfr & Hcell).
    destruct (IH _ Hok) as (Hok' & Hfr' & Hcell').
    split; [done|]. split; [by eapply same_frame_trans|].
    intros r c. rewrite Hcell', Hcell, (in_canvas_frame m _ r c Hfr).
    destruct (cols c), (in_canvas m r c); rewrite ?andb_false_r, ?andb_true_r;
      try done.
    destruct (decide (r = x)) as [->|Hne].
    + rewrite (bool_decide_eq_true_2 (x ∈ x :: l)) by left.
      by destruct (bool_decide (x ∈ l)); rewrite ?Z.eqb_refl.
    + replace (r =? x) with false by lia.
      destruct (decide (r ∈ l)).
      * rewrite !bool_decide_eq_true_2; [done | by right | done].
      * rewrite !bool_decide_eq_false_2; [done | | done].
        intros [?|?]%elem_of_cons; done.
Qed.

Lemma paints_forRange f cols v a b m :
  paints f cols v → grid_ok m →
  grid_ok (forRange a b f m) ∧ same_frame m (forRange a b f m) ∧
  ∀ r c, readCell (data (forRange a b f m)) r c =
         if (a <=? r) && (r <? b) && cols c && in_canvas m r c then Some v
         else readCell (data m) r c.
Proof.
  intros Hf Hm. destruct (paints_foldl f cols v (seqZ a (b - a)) m Hf Hm)
    as (Hok & Hfr & Hcell).
  split; [done|]. split; [done|]. intros r c.
  unfold forRange. rewrite Hcell. f_equal.
  destruct (decide (a ≤ r < b)) as [Hin|Hout].
  - rewrite bool_decide_eq_true_2 by (apply elem_of_seqZ; lia).
    replace (a <=? r) with true by lia. by replace (r <? b) with true by lia.
  - rewrite bool_decide_eq_false_2 by (rewrite elem_of_seqZ; lia).
    destruct (a <=? r) eqn:E1, (r <? b) eqn:E2; try done. lia.
Qed.

Lemma paints_setCell col v :
  paints (fun row => setCell row col v) (fun c => c =? col) v.
Proof.
  intros row m Hm. split; [by apply grid_ok_setCell|].
  split; [apply setCell_frame|]. intros r c. by apply readCell_setCell.
Qed.

Lemma paints_bodyStep col v :
  paints (bodyStep col v) (fun c => (col - 1 <=? c) && (c <=? col + 1)) v.
Proof.
  intros row m Hm. unfold bodyStep.
  set (m1 := if 0 <? col then setCell row (col - 1) v m else m).
  assert (grid_ok m1 ∧ same_frame m m1 ∧
          ∀ r c, readCell (data m1) r c =
                 if (r =? row) && (c =? col - 1) && in_canvas m r c then Some v
                 else readCell (data m) r c) as (Hok1 & Hfr1 & Hc1).
  { subst m1. destruct (0 <? col) eqn:Hcol.
    - split; [by apply grid_ok_setCell|]. split; [apply setCell_frame|].
      intros r c. by apply readCell_setCell.
    - split; [done|]. split; [apply same_frame_refl|]. intros r c.
      unfold in_canvas.
      destruct (r =? row), (c =? col - 1) eqn:Ec; simpl; try done.
      replace (0 <=? c) with false by lia. by rewrite andb_false_r. }
  set (m2 := setCell row col v m1).
  assert (grid_ok m2) as Hok2 by by apply grid_ok_setCell.
  assert (same_frame m m2) as Hfr2.
  { eapply same_frame_trans; [done|apply setCell_frame]. }
  assert (∀ r c, readCell (data m2) r c =
                 if (r =? row) && ((c =? col - 1) || (c =? col)) && in_canvas m r c
                 then Some v else readCell (data m) r c) as Hc2.
  { intros r c. subst m2. rewrite readCell_setCell by done.
    rewrite Hc1, (in_canvas_frame m m1 r c Hfr1).
    destruct (r =? row), (c =? col) eqn:E1, (c =? col - 1) eqn:E2,
      (in_canvas m r c); simpl; done. }
  assert (width m2 = width m) as Hw2 by apply Hfr2.
  destruct (col <? width m2 - 1) eqn:Hcol.
  - split; [by apply grid_ok_setCell|].
    split; [eapply same_frame_trans; [done|apply setCell_frame]|].
    intros r c. rewrite readCell_setCell by done.
    rewrite Hc2, (in_canvas_frame m m2 r c Hfr2).
    destruct (r =? row), (in_canvas m r c); simpl; rewrite ?andb_false_r; try done.
    destruct (c =? col + 1) eqn:E1, (c =? col - 1) eqn:E2, (c =? col) eqn:E3; simpl;
      try done;
      (replace ((col - 1 <=? c) && (c <=? col + 1)) with true by lia) ||
      (replace ((col - 1 <=? c) && (c <=? col + 1)) with false by lia); done.
  - split; [done|]. split; [done|]. intros r c. rewrite Hc2.
    unfold in_canvas.
    destruct (r =? row); simpl; [|done].
    destruct (c =? col - 1) eqn:E2, (c =? col) eqn:E3; simpl;
      try (replace ((col - 1 <=? c) && (c <=? col + 1)) with true by lia; done).
    destruct ((col - 1 <=? c) && (c <=? col + 1)) eqn:E; simpl; [|done].
    replace (c <? width m) with false by lia. by rewrite andb_false_r.
Qed.

(** ** priceToRow *)

Lemma same_frame_scale m m' : same_frame m m' → same_scale m m'.
Proof. intros (?&?&?&?&?). repeat split; congruence. Qed.

Lemma priceToRow_scale m m' p : same_scale m m' → priceToRow m' p = priceToRow m p.
Proof. intros (Hh & Hlo & Hhi & Hlen). unfold priceToRow. by rewrite Hh, Hlo, Hhi, Hlen. Qed.

Lemma priceToRow_empty m p : candles m = [] → priceToRow m p = Some 0.
Proof. intros Hc. unfold priceToRow. by rewrite Hc. Qed.

Lemma length_eqb_0 {A} (l : list A) : l ≠ [] → (length l =? 0)%nat = false.
Proof. by destruct l. Qed.

Lemma priceToRow_flat m p x :
  candles m ≠ [] → minPrice m = Num x → maxPrice m = Num x →
  priceToRow m p = Some (height m / 2).
Proof.
  intros Hc Hlo Hhi. unfold priceToRow.
  rewrite length_eqb_0, Hlo, Hhi by done. simpl.
  by replace (x - x =? 0) with true by lia.
Qed.

Lemma priceToRow_scaled m p lo hi :
  candles m ≠ [] → minPrice m = Num lo → maxPrice m = Num hi → hi ≠ lo →
  priceToRow m p =
  Some (Z.max buffer (Z.min (scaledRow lo hi (height m) p) (height m - buffer - 1))).
Proof.
  intros Hc Hlo Hhi Hne. unfold priceToRow.
  rewrite length_eqb_0, Hlo, Hhi by done. simpl.
  by replace (hi - lo =? 0) with false by lia.
Qed.

Lemma priceToRow_range m p lo hi :
  candles m ≠ [] → minPrice m = Num lo → maxPrice m = Num hi →
  2 * buffer + 1 ≤ height m →
  ∃ r, priceToRow m p = Some r ∧ buffer ≤ r ≤ height m - buffer - 1.
Proof.
  intros Hc Hlo Hhi Hh. unfold buffer in *.
  destruct (decide (hi = lo)) as [->|Hne].
  - exists (height m / 2). split; [by eapply priceToRow_flat|].
    pose proof (Z.div_mod (height m) 2 ltac:(lia)) as Hdm.
    pose proof (Z.mod_pos_bound (height m) 2 ltac:(lia)). lia.
  - eexists. split; [by apply priceToRow_scaled|]. unfold buffer. lia.
Qed.

Lemma scaledRow_antitone lo hi h p1 p2 :
  lo < hi → 2 * buffer ≤ h → p1 ≤ p2 → scaledRow lo hi h p2 ≤ scaledRow lo hi h p1.
Proof.
  intros Hlt Hh Hp. unfold scaledRow, Math_round.
  apply Z.add_le_mono_l, Qfloor_resp_le, Qplus_le_l.
  apply Qmult_le_compat_r.
  - unfold Qdiv. apply Qmult_le_compat_r.
    + rewrite <- Zle_Qle. lia.
    + apply Qinv_le_0_compat. replace 0%Q with (inject_Z 0) by done.
      rewrite <- Zle_Qle. lia.
  - replace 0%Q with (inject_Z 0) by done. rewrite <- Zle_Qle. lia.
Qed.

Lemma priceToRow_antitone m lo hi p1 p2 r1 r2 :
  candles m ≠ [] → minPrice m = Num lo → maxPrice m = Num hi → lo ≤ hi →
  2 * buffer ≤ height m → p1 ≤ p2 →
  priceToRow m p1 = Some r1 → priceToRow m p2 = Some r2 → r2 ≤ r1.
Proof.
  intros Hc Hlo Hhi Hle Hh Hp H1 H2.
  destruct (decide (hi = lo)) as [->|Hne].
  - rewrite (priceToRow_flat m p1 lo) in H1 by done.
    rewrite (priceToRow_flat m p2 lo) in H2 by done. simplify_eq. lia.
  - rewrite (priceToRow_scaled m p1 lo hi) in H1 by done.
    rewrite (priceToRow_scaled m p2 lo hi) in H2 by done. simplify_eq.
    pose proof (scaledRow_antitone lo hi (height m) p1 p2 ltac:(lia) Hh Hp). lia.
Qed.

(** ** drawCandle *)

Lemma drawCandle_cells c m highRow openRow closeRow lowRow :
  grid_ok m →
  priceToRow m (highPrice c) = Some highRow →
  priceToRow m (openPrice c) = Some openRow →
  priceToRow m (closePrice c) = Some closeRow →
  priceToRow m (lowPrice c) = Some lowRow →
  ∃ m', drawCandle c m = Some m' ∧ grid_ok m' ∧ same_frame m m' ∧
        ∀ r col, in_canvas m r col = true →
                 readCell (data m') r col =
                 drawnCell c highRow openRow closeRow lowRow r col (readCell (data m) r col).
Proof.
  intros Hm Hhigh Hopen Hclose Hlow. unfold drawCandle.
  rewrite Hhigh, Hopen, Hclose, Hlow. simpl.
  set (top := Z.min openRow closeRow). set (bottom := Z.max openRow closeRow).
  set (body := if decide (type c = bullish) then bullishBody else bearishBody).
  change (fun row m0 => _) with (bodyStep (column c) body).
  destruct (paints_forRange _ _ _ highRow top m (paints_setCell (column c) wickSymbol) Hm)
    as (Hok1 & Hfr1 & Hc1).
  set (m1 := forRange highRow top _ m) in *.
  destruct (paints_forRange _ _ _ top (bottom + 1) m1 (paints_bodyStep (column c) body) Hok1)
    as (Hok2 & Hfr2 & Hc2).
  set (m2 := forRange top (bottom + 1) _ m1) in *.
  destruct (paints_forRange _ _ _ (bottom + 1) (lowRow + 1) m2
              (paints_setCell (column c) wickSymbol) Hok2)
    as (Hok3 & Hfr3 & Hc3).
  eexists. split; [done|]. split; [done|].
  split; [eauto using same_frame_trans|].
  intros r col Hin. rewrite Hc3, Hc2, Hc1.
  rewrite (in_canvas_frame m1 m2 r col Hfr2), (in_canvas_frame m m1 r col Hfr1), Hin.
  unfold drawnCell, bodySymbolOf. fold body. subst top bottom.
  rewrite !andb_true_r. bool_cases; done.
Qed.

Lemma set_column_id c : set_column (column c) c = c.
Proof. by destruct c. Qed.

Lemma recolumned_id cs : columns_ok cs → recolumned cs = cs.
Proof.
  intros Hcols. apply list_eq. intros i. unfold recolumned.
  rewrite list_lookup_imap. destruct (cs !! i) as [c|] eqn:Hc; [|done]. simpl.
  by rewrite <- (Hcols i c Hc), set_column_id.
Qed.

Lemma columns_ok_recolumned cs : columns_ok (recolumned cs).
Proof.
  intros i c. unfold recolumned. rewrite list_lookup_imap.
  destruct (cs !! i); intros; by simplify_eq/=.
Qed.

Lemma recolumned_snoc cs c :
  columns_ok cs →
  recolumned (cs ++ [c]) = cs ++ [set_column (columnOf (length cs)) c].
Proof.
  intros Hcols. unfold recolumned. rewrite imap_app. simpl.
  fold (recolumned cs). rewrite recolumned_id by done.
  by rewrite Nat.add_0_r.
Qed.

Lemma priceToRow_total m p : scale_ok m → is_Some (priceToRow m p).
Proof.
  intros Hs. destruct (decide (candles m = [])) as [He|Hne].
  - rewrite priceToRow_empty by done. eauto.
  - destruct (Hs Hne) as (lo & hi & Hlo & Hhi). unfold priceToRow.
    rewrite length_eqb_0, Hlo, Hhi by done. simpl.
    destruct (hi - lo =? 0); eauto.
Qed.

Lemma priceToRow_buffered m p r :
  session_ok m → candles m ≠ [] → priceToRow m p = Some r →
  buffer ≤ r ≤ height m - buffer - 1.
Proof.
  intros (_ & Hh & _ & Hs) Hne Hr. destruct (Hs Hne) as (lo & hi & Hlo & Hhi).
  destruct (priceToRow_range m p lo hi Hne Hlo Hhi) as (r' & Hr' & Hbound).
  - unfold buffer, defaultHeight in *. lia.
  - by simplify_eq.
Qed.

Lemma priceToRow_on_canvas m p r :
  session_ok m → priceToRow m p = Some r → 0 ≤ r < height m.
Proof.
  intros Hok Hr. destruct (decide (candles m = [])) as [He|Hne].
  - rewrite priceToRow_empty in Hr by done. simplify_eq.
    destruct Hok as (_ & Hh & _). unfold defaultHeight in Hh. lia.
  - pose proof (priceToRow_buffered m p r Hok Hne Hr). unfold buffer in *. lia.
Qed.

Lemma session_ok_frame m m' :
  same_frame m m' → grid_ok m' → session_ok m → session_ok m'.
Proof.
  intros (Hw & Hh & Hlo & Hhi & Hc) Hg (_ & ? & ? & Hs).
  split; [done|]. split; [lia|]. split; [lia|].
  unfold scale_ok. by rewrite Hlo, Hhi, Hc.
Qed.

(** Drawing a candle in a session with candles leaves the margins alone. *)
Lemma drawCandle_ok c m :
  session_ok m →
  ∃ m', drawCandle c m = Some m' ∧ session_ok m' ∧ same_frame m m' ∧
        (candles m ≠ [] →
         ∀ r col, is_margin m r → 0 ≤ col < width m →
                  readCell (data m') r col = readCell (data m) r col).
Proof.
  intros Hok. pose proof Hok as (Hg & Hh & Hw & Hs).
  destruct (priceToRow_total m (highPrice c) Hs) as [highRow Hhigh].
  destruct (priceToRow_total m (openPrice c) Hs) as [openRow Hopen].
  destruct (priceToRow_total m (closePrice c) Hs) as [closeRow Hclose].
  destruct (priceToRow_total m (lowPrice c) Hs) as [lowRow Hlow].
  destruct (drawCandle_cells c m _ _ _ _ Hg Hhigh Hopen Hclose Hlow)
    as (m' & Hdraw & Hg' & Hfr & Hcells).
  exists m'. split; [done|]. split; [by eapply session_ok_frame|]. split; [done|].
  intros Hne r col Hr Hcol.
  pose proof (priceToRow_buffered _ _ _ Hok Hne Hhigh).
  pose proof (priceToRow_buffered _ _ _ Hok Hne Hopen).
  pose proof (priceToRow_buffered _ _ _ Hok Hne Hclose).
  pose proof (priceToRow_buffered _ _ _ Hok Hne Hlow).
  rewrite Hcells.
  - unfold drawnCell. unfold is_margin in Hr. bool_cases; done.
  - unfold in_canvas, is_margin, buffer in *. bool_cases; done.
Qed.

(** ** redrawAllCandles *)

Lemma columnOf_S k : columnOf (S k) = columnOf k + 6.
Proof. unfold columnOf. lia. Qed.

Lemma redrawFrom_spec n : ∀ k m,
  session_ok m → (k + n ≤ length (candles m))%nat →
  ∃ m', redrawFrom (seq k n) (columnOf k) m = Some m' ∧ session_ok m' ∧
        width m' = width m ∧ height m' = height m ∧
        minPrice m' = minPrice m ∧ maxPrice m' = maxPrice m ∧
        (∀ i, candles m' !! i =
              if bool_decide (k ≤ i < k + n)%nat
              then set_column (columnOf i) <$> candles m !! i
              else candles m !! i) ∧
        (∀ r col, is_margin m r → 0 ≤ col < width m →
                  readCell (data m') r col = readCell (data m) r col).
Proof.
  induction n as [|n IH]; intros k m Hok Hlen.
  - exists m. do 6 (split; [done|]). split; [|done]. intros i.
    rewrite bool_decide_eq_false_2; [done|lia].
  - change (seq k (S n)) with (k :: seq (S k) n). cbn [redrawFrom].
    destruct (lookup_lt_is_Some_2 (candles m) k ltac:(lia)) as [c Hc].
    rewrite Hc. cbn [mbind option_bind].
    set (c' := set_column (columnOf k) c).
    set (m1 := set_candles (<[k := c']> (candles m)) m).
    assert (candles m ≠ []) as Hne by (intros He; by rewrite He in Hc).
    assert (candles m1 ≠ []) as Hne1.
    { subst m1. simpl. intros He. apply (f_equal length) in He.
      rewrite length_insert in He. destruct (candles m); simpl in *; done. }
    assert (session_ok m1) as Hok1.
    { destruct Hok as (Hg & Hh & Hw & Hs). do 3 (split; [done|]).
      intros _. by apply Hs. }
    destruct (drawCandle_ok c' m1 Hok1) as (m2 & Hdraw & Hok2 & Hfr & Hmargin).
    rewrite Hdraw. cbn [mbind option_bind].
    destruct Hfr as (Hw2 & Hh2 & Hlo2 & Hhi2 & Hc2).
    destruct (IH (S k) m2 Hok2) as (m' & Hre & Hok' & Hw' & Hh' & Hlo' & Hhi' & Hcs' & Hm').
    { rewrite Hc2. subst m1. simpl. rewrite length_insert. lia. }
    rewrite columnOf_S in Hre. exists m'. split; [done|]. split; [done|].
    split; [by rewrite Hw', Hw2|]. split; [by rewrite Hh', Hh2|].
    split; [by rewrite Hlo', Hlo2|]. split; [by rewrite Hhi', Hhi2|]. split.
    + intros i. rewrite Hcs', Hc2. subst m1. simpl.
      destruct (decide (i = k)) as [->|Hik].
      * rewrite bool_decide_eq_false_2 by lia.
        rewrite bool_decide_eq_true_2 by lia.
        rewrite list_lookup_insert_eq by lia. by rewrite Hc.
      * rewrite list_lookup_insert_ne by done.
        destruct (decide (S k ≤ i < S k + n)%nat).
        -- rewrite !bool_decide_eq_true_2 by lia. done.
        -- rewrite !bool_decide_eq_false_2 by lia. done.
    + intros r col Hr Hcol. rewrite Hm'.
      * apply Hmargin; done.
      * unfold is_margin in *. by rewrite Hh2.
      * by rewrite Hw2.
Qed.

Lemma redrawAllCandles_spec m :
  defaultHeight ≤ height m → defaultWidth ≤ width m → scale_ok m →
  ∃ m', redrawAllCandles m = Some m' ∧ session_ok m' ∧
        width m' = width m ∧ height m' = height m ∧
        minPrice m' = minPrice m ∧ maxPrice m' = maxPrice m ∧
        candles m' = recolumned (candles m) ∧ margins_blank m'.
Proof.
  intros Hh Hw Hs. unfold redrawAllCandles.
  set (m0 := set_data (createEmptyMatrix (width m) (height m)) m).
  assert (session_ok m0) as Hok0.
  { unfold defaultHeight, defaultWidth in *.
    split; [|done]. split; [simpl; lia|]. split; [simpl; lia|].
    simpl. apply is_grid_create. }
  destruct (redrawFrom_spec (length (candles m0)) 0%nat m0 Hok0 ltac:(lia))
    as (m' & Hre & Hok' & Hw' & Hh' & Hlo' & Hhi' & Hcs' & Hm').
  exists m'. do 6 (split; [done|]). split.
  - apply list_eq. intros i. rewrite Hcs'. unfold recolumned.
    rewrite list_lookup_imap. simpl.
    destruct (decide (i < length (candles m))%nat).
    + rewrite bool_decide_eq_true_2 by lia. done.
    + rewrite bool_decide_eq_false_2 by lia.
      rewrite lookup_ge_None_2 by lia. done.
  - intros r col Hr Hcol. unfold is_margin in Hr.
    rewrite Hh' in Hr. rewrite Hw' in Hcol. rewrite Hm' by done.
    simpl in *. apply readCell_create; [|lia].
    unfold buffer, defaultHeight in *. lia.
Qed.

(** ** The two add operations *)

Lemma Math_ceil_Z z : Math_ceil z = z.
Proof. apply Qceiling_Z. Qed.

Lemma addFirstCandle_spec c m :
  defaultHeight ≤ height m → defaultWidth ≤ width m →
  ∃ m' pc, addFirstCandle c m = Some m' ∧ session_ok m' ∧
    candles m' = recolumned (candles m ++ [pc]) ∧ candle pc = c ∧
    highPrice pc = 100 + upperWick c ∧
    lowPrice pc = 100 - bodySize c - lowerWick c ∧
    openPrice pc = (if decide (type c = bullish) then 100 - bodySize c else 100) ∧
    closePrice pc = (if decide (type c = bullish) then 100 else 100 - bodySize c) ∧
    minPrice m' = Num (lowPrice pc) ∧ maxPrice m' = Num (highPrice pc) ∧
    width m' = width m ∧
    height m' = Z.max (height m) (bodySize c + upperWick c + lowerWick c + 2 * buffer) ∧
    margins_blank m'.
Proof.
  intros Hh Hw. unfold addFirstCandle.
  set (req := bodySize c + upperWick c + lowerWick c + 2 * buffer).
  set (m1 := if height m <? req then expandMatrix (width m) req m else m).
  assert (width m1 = width m ∧ height m1 = Z.max (height m) req ∧
          candles m1 = candles m) as (Hw1 & Hh1 & Hc1).
  { subst m1. destruct (Z.ltb_spec (height m) req).
    - destruct (expandMatrix_frame (width m) req m) as (? & ? & _ & _ & ?).
      split; [lia|]. done.
    - split; [done|]. split; [lia|done]. }
  destruct (decide (type c = bullish)) as [Hty|Hty].
  - set (pc := mkPositioned c 3 (100 + upperWick c) (100 - bodySize c) 100
                            (100 - bodySize c - lowerWick c)).
    destruct (redrawAllCandles_spec
                (set_prices (Num (lowPrice pc)) (Num (highPrice pc))
                            (set_candles (candles m1 ++ [pc]) m1)))
      as (m' & Hre & Hok & Hw' & Hh' & Hlo' & Hhi' & Hcs' & Hmargin).
    { simpl. lia. } { simpl. lia. } { intros _. simpl. eauto. }
    exists m', pc. simpl in *. rewrite Hc1 in *.
    do 10 (split; [done|]). split; [congruence|]. split; [congruence|done].
  - set (pc := mkPositioned c 3 (100 + upperWick c) 100 (100 - bodySize c)
                            (100 - bodySize c - lowerWick c)).
    destruct (redrawAllCandles_spec
                (set_prices (Num (lowPrice pc)) (Num (highPrice pc))
                            (set_candles (candles m1 ++ [pc]) m1)))
      as (m' & Hre & Hok & Hw' & Hh' & Hlo' & Hhi' & Hcs' & Hmargin).
    { simpl. lia. } { simpl. lia. } { intros _. simpl. eauto. }
    exists m', pc. simpl in *. rewrite Hc1 in *.
    do 10 (split; [done|]). split; [congruence|]. split; [congruence|done].
Qed.

Lemma addCandle_empty c m : candles m = [] → addCandle c m = addFirstCandle c m.
Proof. intros He. unfold addCandle. by rewrite He. Qed.

Lemma separation_eq (prev next : CandleType) (x : Z) :
  (if decide (prev = bullish ∧ next = bullish) then x + 1
   else if decide (prev = bearish ∧ next = bearish) then x - 1 else x)
  = x + separation prev next.
Proof. destruct prev, next; simpl; lia. Qed.

Lemma addCandle_spec c m prev :
  session_ok m → last (candles m) = Some prev →
  ∃ m' pc lo hi, addCandle c m = Some m' ∧ session_ok m' ∧
    candles m' = recolumned (candles m ++ [pc]) ∧ candle pc = c ∧
    column pc = column prev + 6 ∧
    openPrice pc = closePrice prev + separation (type prev) (type c) ∧
    closePrice pc = (if decide (type c = bullish)
                     then openPrice pc + bodySize c else openPrice pc - bodySize c) ∧
    highPrice pc = (if decide (type c = bullish)
                    then closePrice pc else openPrice pc) + upperWick c ∧
    lowPrice pc = (if decide (type c = bullish)
                   then openPrice pc else closePrice pc) - lowerWick c ∧
    minPrice m' = Math_min (minPrice m) (Num (lowPrice pc)) ∧
    maxPrice m' = Math_max (maxPrice m) (Num (highPrice pc)) ∧
    minPrice m' = Num lo ∧ maxPrice m' = Num hi ∧
    width m' = Z.max (width m) ((Z.of_nat (length (candles m)) + 1) * 6 + 3) ∧
    height m' = Z.max (height m) (hi - lo + 2 * buffer) ∧
    margins_blank m'.
Proof.
  intros Hok Hlast.
  assert (candles m ≠ []) as Hne by (intros He; by rewrite He in Hlast).
  destruct Hok as (Hg & Hh & Hw & Hs). destruct (Hs Hne) as (lo0 & hi0 & Hlo0 & Hhi0).
  unfold addCandle. rewrite length_eqb_0 by done. rewrite Hlast.
  cbn [mbind option_bind]. cbv zeta. rewrite separation_eq.
  set (op := closePrice prev + separation (type prev) (type c)).
  rewrite Hlo0, Hhi0.
  destruct (decide (type c = bullish)) as [Hty|Hty].
  all: cbn [Math_min Math_max set_prices minPrice maxPrice finite mbind option_bind
            height width candles data set_candles].
  all: rewrite Math_ceil_Z.
  all: match goal with
       | |- context [mkPositioned ?c ?col ?h ?o ?cl ?l] =>
           set (pc := mkPositioned c col h o cl l)
       end.
  all: change (op + bodySize c + upperWick c) with (highPrice pc) ||
       change (op + upperWick c) with (highPrice pc).
  all: change (op - lowerWick c) with (lowPrice pc) ||
       change (op - bodySize c - lowerWick c) with (lowPrice pc).
  all: set (lo := Z.min lo0 (lowPrice pc)); set (hi := Z.max hi0 (highPrice pc)).
  all: set (m0 := set_prices (Num lo) (Num hi) m).
  all: set (w := (Z.of_nat (length (candles m)) + 1) * 6 + 3).
  all: set (m1 := if (height m <? hi - lo + 2 * buffer) || (width m <? w)
                  then expandMatrix w (hi - lo + 2 * buffer) m0 else m0).
  all: assert (width m1 = Z.max (width m) w ∧
               height m1 = Z.max (height m) (hi - lo + 2 * buffer) ∧
               minPrice m1 = Num lo ∧ maxPrice m1 = Num hi ∧
               candles m1 = candles m) as (Hw1 & Hh1 & Hlo1 & Hhi1 & Hc1);
       [ subst m1;
         destruct (Z.ltb_spec (height m) (hi - lo + 2 * buffer));
         destruct (Z.ltb_spec (width m) w); cbn [orb];
         try (destruct (expandMatrix_frame w (hi - lo + 2 * buffer) m0)
                as (-> & -> & -> & -> & ->));
         simpl; (split; [lia|]); (split; [lia|done]) |].
  all: destruct (redrawAllCandles_spec (set_candles (candles m1 ++ [pc]) m1))
         as (m' & Hre & Hok' & Hw' & Hh' & Hlo' & Hhi' & Hcs' & Hmargin);
       [simpl; lia | simpl; lia | intros _; simpl; eauto |].
  all: exists m', pc, lo, hi.
  all: simpl in Hre, Hw', Hh', Hlo', Hhi', Hcs'.
  all: split; [done|]; split; [done|]; split; [congruence|].
  all: do 6 (split; [done|]).
  all: split; [by rewrite Hlo', Hlo1|]; split; [by rewrite Hhi', Hhi1|].
  all: split; [by rewrite Hlo', Hlo1|]; split; [by rewrite Hhi', Hhi1|].
  all: split; [by rewrite Hw', Hw1|]; split; [by rewrite Hh', Hh1|done].
Qed.

(** ** Invariants of the sessions *)

Lemma session_ok_new : session_ok new_DynamicMatrix.
Proof.
  split.
  { split; [done|]. split; [done|]. apply (is_grid_create defaultWidth defaultHeight). }
  split; [done|]. split; [done|]. intros Hne. by destruct Hne.
Qed.

Lemma reachableBy_weaken (P : Candle → Prop) m : reachableBy P m → reachable m.
Proof.
  induction 1; [apply reach_new | by eapply reach_addFirstCandle
               | by eapply reach_addCandle].
Qed.

Lemma reachable_inv m : reachable m → session_ok m ∧ columns_ok (candles m).
Proof.
  induction 1 as [|c m m' _ [IHok IHcols] _ Hadd|c m m' _ [IHok IHcols] _ Hadd].
  - split; [apply session_ok_new|]. by intros i c.
  - destruct IHok as (_ & Hh & Hw & _).
    destruct (addFirstCandle_spec c m Hh Hw) as (m'' & pc & Hadd' & Hok & Hcs & _).
    simplify_eq. split; [done|]. rewrite Hcs. apply columns_ok_recolumned.
  - destruct (decide (candles m = [])) as [He|Hne].
    + rewrite addCandle_empty in Hadd by done.
      destruct IHok as (_ & Hh & Hw & _).
      destruct (addFirstCandle_spec c m Hh Hw) as (m'' & pc & Hadd' & Hok & Hcs & _).
      simplify_eq. split; [done|]. rewrite Hcs. apply columns_ok_recolumned.
    + apply last_is_Some in Hne as [prev Hprev].
      destruct (addCandle_spec c m prev IHok Hprev)
        as (m'' & pc & lo & hi & Hadd' & Hok & Hcs & _).
      simplify_eq. split; [done|]. rewrite Hcs. apply columns_ok_recolumned.
Qed.

Lemma addFirstCandle_total c m : reachable m → is_Some (addFirstCandle c m).
Proof.
  intros [(_ & Hh & Hw & _) _]%reachable_inv.
  destruct (addFirstCandle_spec c m Hh Hw) as (m' & pc & Hadd & _). eauto.
Qed.

Lemma addCandle_total c m : reachable m → is_Some (addCandle c m).
Proof.
  intros Hr. destruct (decide (candles m = [])) as [He|Hne].
  - rewrite addCandle_empty by done. by apply addFirstCandle_total.
  - apply reachable_inv in Hr as [Hok _].
    apply last_is_Some in Hne as [prev Hprev].
    destruct (addCandle_spec c m prev Hok Hprev) as (m' & pc & lo & hi & Hadd & _).
    eauto.
Qed.

Lemma reachable_bounds_ordered m : reachableBy valid m → bounds_ordered m.
Proof.
  induction 1 as [|c m m' Hr IH Hv Hadd|c m m' Hr IH Hv Hadd].
  - by intros lo hi.
  - apply reachableBy_weaken, reachable_inv in Hr as [(_ & Hh & Hw & _) _].
    destruct (addFirstCandle_spec c m Hh Hw)
      as (m'' & pc & Hadd' & _ & _ & _ & Hhigh & Hlow & _ & _ & Hlo & Hhi & _).
    simplify_eq. intros lo hi Hlo' Hhi'. destruct Hv as (? & ? & ?).
    rewrite Hlo in Hlo'. rewrite Hhi in Hhi'. simplify_eq. lia.
  - apply reachableBy_weaken, reachable_inv in Hr as [Hok _].
    destruct (decide (candles m = [])) as [He|Hne].
    + rewrite addCandle_empty in Hadd by done. destruct Hok as (_ & Hh & Hw & _).
      destruct (addFirstCandle_spec c m Hh Hw)
        as (m'' & pc & Hadd' & _ & _ & _ & Hhigh & Hlow & _ & _ & Hlo & Hhi & _).
      simplify_eq. intros lo hi Hlo' Hhi'. destruct Hv as (? & ? & ?).
      rewrite Hlo in Hlo'. rewrite Hhi in Hhi'. simplify_eq. lia.
    + pose proof Hok as (_ & _ & _ & Hs). destruct (Hs Hne) as (lo0 & hi0 & Hlo0 & Hhi0).
      apply last_is_Some in Hne as [prev Hprev].
      destruct (addCandle_spec c m prev Hok Hprev)
        as (m'' & pc & lo & hi & Hadd' & _ & _ & _ & _ & _ & _ & _ & _ & Hlo & Hhi & _).
      simplify_eq. intros lo' hi' Hlo' Hhi'.
      rewrite Hlo, Hlo0 in Hlo'. rewrite Hhi, Hhi0 in Hhi'. simpl in *.
      simplify_eq. pose proof (IH lo0 hi0 Hlo0 Hhi0). lia.
Qed.

Lemma reachable_session_bearish : reachableBy valid session_bearish.
Proof.
  apply (reach_addFirstCandle valid (mkCandle bearish 3 1 2) new_DynamicMatrix).
  - apply reach_new.
  - unfold valid; simpl; lia.
  - by vm_compute.
Qed.

Lemma reachable_session_flat : reachableBy valid session_flat.
Proof.
  apply (reach_addFirstCandle valid (mkCandle bullish 0 0 0) new_DynamicMatrix).
  - apply reach_new.
  - unfold valid; simpl; lia.
  - by vm_compute.
Qed.

(** ** The rows of a candle's body *)

Section Filter.
Context {A : Type} (P : A → Prop) `{!∀ x, Decision (P x)}.

Lemma filter_all (l : list A) : Forall P l → filter P l = l.
Proof.
  induction 1 as [|x l Hx _ IH]; [done|].
  by rewrite filter_cons_True, IH.
Qed.

Lemma filter_none (l : list A) : Forall (fun x => ¬ P x) l → filter P l = [].
Proof.
  induction 1 as [|x l Hx _ IH]; [done|].
  by rewrite filter_cons_False.
Qed.
End Filter.

Lemma filter_seqZ_range (P : Z → Prop) `{!∀ x, Decision (P x)} (h a n : Z) :
  0 ≤ a → 0 ≤ n → a + n ≤ h →
  (∀ r, 0 ≤ r < h → (P r ↔ a ≤ r < a + n)) →
  filter P (seqZ 0 h) = seqZ a n.
Proof.
  intros Ha Hn Hh HP.
  replace h with (a + (n + (h - a - n))) at 1 by lia.
  rewrite seqZ_app by lia. rewrite seqZ_app by lia.
  rewrite !filter_app, Z.add_0_l.
  rewrite (filter_none P (seqZ 0 a)), (filter_all P (seqZ a n)),
    (filter_none P (seqZ (a + n) _)).
  - by rewrite app_nil_r.
  - apply Forall_forall. intros r [? ?]%elem_of_seqZ. rewrite HP; lia.
  - apply Forall_forall. intros r [? ?]%elem_of_seqZ. rewrite HP; lia.
  - apply Forall_forall. intros r [? ?]%elem_of_seqZ. rewrite HP; lia.
Qed.

Lemma bodySymbolOf_not_wick c : bodySymbolOf c ≠ wickSymbol.
Proof. unfold bodySymbolOf. by destruct (decide (type c = bullish)). Qed.

(** The rows that hold the body glyph in the column of a candle drawn over
    cells [old] that did not hold it. *)
Lemma bodyRows_drawn m c h o cl l (old : Z → option string) :
  0 ≤ o < height m → 0 ≤ cl < height m →
  (∀ r, 0 ≤ r < height m →
        readCell (data m) r (column c) = drawnCell c h o cl l r (column c) (old r)) →
  (∀ r, old r ≠ Some (bodySymbolOf c)) →
  bodyRows m c = seqZ (Z.min o cl) (Z.abs (cl - o) + 1).
Proof.
  intros Ho Hcl Hcells Hold. unfold bodyRows.
  apply filter_seqZ_range; [lia|lia|lia|]. intros r Hr.
  rewrite Hcells by done.
  pose proof (bodySymbolOf_not_wick c) as Hwick. pose proof (Hold r) as Holdr.
  unfold drawnCell. bool_cases; split; intros; try done; try lia; congruence.
Qed.

(** ** The candles on the grid of a session *)

Lemma redrawFrom_strip n : ∀ k m m' i ci h o cl l,
  session_ok m → (k + n ≤ length (candles m))%nat →
  redrawFrom (seq k n) (columnOf k) m = Some m' →
  candles m !! i = Some ci →
  priceToRow m (highPrice ci) = Some h → priceToRow m (openPrice ci) = Some o →
  priceToRow m (closePrice ci) = Some cl → priceToRow m (lowPrice ci) = Some l →
  ∀ r col, in_canvas m r col = true → columnOf i - 1 ≤ col ≤ columnOf i + 1 →
    readCell (data m') r col =
    if bool_decide (k ≤ i < k + n)%nat
    then drawnCell (set_column (columnOf i) ci) h o cl l r col (readCell (data m) r col)
    else readCell (data m) r col.
Proof.
  induction n as [|n IH]; intros k m m' i ci h o cl l Hok Hlen Hre Hi Hh Ho Hcl Hl r col Hin Hcol.
  - simpl in Hre. simplify_eq. rewrite bool_decide_eq_false_2; [done|lia].
  - change (seq k (S n)) with (k :: seq (S k) n) in Hre. cbn [redrawFrom] in Hre.
    destruct (candles m !! k) as [ck|] eqn:Hk; [|done]. cbn [mbind option_bind] in Hre.
    set (ck' := set_column (columnOf k) ck) in *.
    set (m1 := set_candles (<[k := ck']> (candles m)) m) in *.
    assert (same_scale m m1) as Hsc1.
    { subst m1. repeat split; simpl. by rewrite length_insert. }
    assert (session_ok m1) as Hok1.
    { destruct Hok as (Hg & ? & ? & Hs). do 3 (split; [done|]).
      intros _. apply Hs. intros He. by rewrite He in Hk. }
    pose proof Hok1 as (Hg1 & _ & _ & Hs1).
    destruct (priceToRow_total m1 (highPrice ck') Hs1) as [hk Hhk].
    destruct (priceToRow_total m1 (openPrice ck') Hs1) as [ok Hok_k].
    destruct (priceToRow_total m1 (closePrice ck') Hs1) as [clk Hclk].
    destruct (priceToRow_total m1 (lowPrice ck') Hs1) as [lk Hlk].
    destruct (drawCandle_cells ck' m1 _ _ _ _ Hg1 Hhk Hok_k Hclk Hlk)
      as (m2 & Hdraw & Hg2 & Hfr2 & Hcells).
    rewrite Hdraw in Hre. cbn [mbind option_bind] in Hre.
    rewrite <- columnOf_S in Hre.
    assert (session_ok m2) as Hok2 by by eapply session_ok_frame.
    assert (same_scale m m2) as Hsc2.
    { destruct Hsc1 as (?&?&?&?), Hfr2 as (?&?&?&?&?). repeat split; congruence. }
    assert (in_canvas m2 r col = true) as Hin2.
    { rewrite (in_canvas_frame m1 m2) by done. done. }
    assert (candles m2 = <[k := ck']> (candles m)) as Hcs2 by apply Hfr2.
    assert (k + S n ≤ length (candles m2))%nat as Hlen2.
    { rewrite Hcs2, length_insert. lia. }
    destruct (decide (i = k)) as [->|Hik].
    + simplify_eq.
      rewrite (IH (S k) m2 m' k ck' h o cl l); try done; try lia.
      * rewrite bool_decide_eq_false_2 by lia. rewrite bool_decide_eq_true_2 by lia.
        rewrite Hcells by done.
        rewrite (priceToRow_scale m m1) in Hhk, Hok_k, Hclk, Hlk by done.
        simpl in *. by simplify_eq.
      * rewrite Hcs2. apply list_lookup_insert_eq. by eapply lookup_lt_Some.
      * by rewrite (priceToRow_scale m m2).
      * by rewrite (priceToRow_scale m m2).
      * by rewrite (priceToRow_scale m m2).
      * by rewrite (priceToRow_scale m m2).
    + rewrite (IH (S k) m2 m' i ci h o cl l); try done; try lia.
      * assert (readCell (data m2) r col = readCell (data m) r col) as ->.
        { rewrite Hcells by done. unfold drawnCell. subst ck'. simpl.
          unfold columnOf in *. bool_cases; try done; lia. }
        destruct (decide (S k ≤ i < S k + n)%nat).
        -- by rewrite !bool_decide_eq_true_2 by lia.
        -- by rewrite !bool_decide_eq_false_2 by lia.
      * rewrite Hcs2. by rewrite list_lookup_insert_ne.
      * by rewrite (priceToRow_scale m m2).
      * by rewrite (priceToRow_scale m m2).
      * by rewrite (priceToRow_scale m m2).
      * by rewrite (priceToRow_scale m m2).
Qed.

Lemma redrawAllCandles_strip m m' i pc :
  defaultHeight ≤ height m → defaultWidth ≤ width m → scale_ok m →
  redrawAllCandles m = Some m' → candles m' !! i = Some pc →
  ∃ h o cl l,
    priceToRow m' (highPrice pc) = Some h ∧ priceToRow m' (openPrice pc) = Some o ∧
    priceToRow m' (closePrice pc) = Some cl ∧ priceToRow m' (lowPrice pc) = Some l ∧
    ∀ r col, in_canvas m' r col = true → column pc - 1 ≤ col ≤ column pc + 1 →
      readCell (data m') r col = drawnCell pc h o cl l r col (Some blank).
Proof.
  intros Hh Hw Hs Hre Hpc.
  destruct (redrawAllCandles_spec m Hh Hw Hs)
    as (m'' & Hre' & Hok' & Hw' & Hh' & Hlo' & Hhi' & Hcs' & _).
  rewrite Hre in Hre'. simplify_eq.
  unfold redrawAllCandles in Hre.
  set (m0 := set_data (createEmptyMatrix (width m) (height m)) m) in *.
  assert (session_ok m0) as Hok0.
  { unfold defaultHeight, defaultWidth in *.
    split; [|done]. split; [simpl; lia|]. split; [simpl; lia|].
    simpl. apply is_grid_create. }
  assert (same_scale m0 m'') as Hsc.
  { repeat split; simpl; try done. rewrite Hcs'. unfold recolumned. by rewrite length_imap. }
  rewrite Hcs' in Hpc. unfold recolumned in Hpc. rewrite list_lookup_imap in Hpc.
  destruct (candles m !! i) as [ci|] eqn:Hci; [|done]. simpl in Hpc. simplify_eq.
  pose proof Hok0 as (_ & _ & _ & Hs0).
  destruct (priceToRow_total m0 (highPrice ci) Hs0) as [h Hhigh].
  destruct (priceToRow_total m0 (openPrice ci) Hs0) as [o Hopen].
  destruct (priceToRow_total m0 (closePrice ci) Hs0) as [cl Hclose].
  destruct (priceToRow_total m0 (lowPrice ci) Hs0) as [l Hlow].
  exists h, o, cl, l. rewrite !(priceToRow_scale m0 m'') by done. simpl.
  do 4 (split; [done|]). intros r col Hin Hcol.
  assert (in_canvas m0 r col = true) as Hin0.
  { unfold in_canvas in *. simpl. by rewrite <- Hw', <- Hh'. }
  rewrite (redrawFrom_strip (length (candles m0)) 0%nat m0 m'' i ci h o cl l);
    try done.
  - rewrite bool_decide_eq_true_2.
    + simpl. rewrite readCell_create; [done| |]; unfold in_canvas in Hin0;
        simpl in Hin0; revert Hin0; bool_cases; done.
    + apply lookup_lt_Some in Hci. simpl. lia.
Qed.

Lemma addFirstCandle_is_redraw c m :
  defaultHeight ≤ height m → defaultWidth ≤ width m →
  ∃ pre, addFirstCandle c m = redrawAllCandles pre ∧
         defaultHeight ≤ height pre ∧ defaultWidth ≤ width pre ∧ scale_ok pre.
Proof.
  intros Hh Hw. unfold addFirstCandle.
  set (req := bodySize c + upperWick c + lowerWick c + 2 * buffer).
  set (m1 := if height m <? req then expandMatrix (width m) req m else m).
  assert (width m1 = width m ∧ height m ≤ height m1) as (Hw1 & Hh1).
  { subst m1. destruct (Z.ltb_spec (height m) req); [|done].
    destruct (expandMatrix_frame (width m) req m) as (? & ? & _). lia. }
  destruct (decide (type c = bullish)); eexists; (split; [reflexivity|]); simpl;
    (split; [lia|]); (split; [lia|]); intros _; simpl; eauto.
Qed.

Lemma addCandle_is_redraw c m :
  session_ok m → candles m ≠ [] →
  addCandle c m = None ∨
  ∃ pre, addCandle c m = redrawAllCandles pre ∧
         defaultHeight ≤ height pre ∧ defaultWidth ≤ width pre ∧ scale_ok pre.
Proof.
  intros (Hg & Hh & Hw & Hs) Hne. unfold addCandle.
  rewrite length_eqb_0 by done.
  destruct (last (candles m)) as [prev|]; [|by left]. cbn [mbind option_bind]. cbv zeta.
  destruct (Hs Hne) as (lo0 & hi0 & -> & ->).
  destruct (decide (type c = bullish)).
  all: cbn [Math_min Math_max set_prices minPrice maxPrice finite mbind option_bind
            height width candles data set_candles].
  all: right; eexists; (split; [reflexivity|]).
  all: match goal with
       | |- context [if ?b then expandMatrix ?w ?h ?m0 else ?m0] =>
           destruct (expandMatrix_frame w h m0) as (Hw' & Hh' & Hlo' & Hhi' & _);
           destruct b
       end.
  all: simpl in *; (split; [lia|]); (split; [lia|]); intros _; simpl;
       rewrite ?Hlo', ?Hhi'; eauto.
Qed.

Lemma reachable_redrawn m :
  reachable m →
  m = new_DynamicMatrix ∨
  ∃ pre, redrawAllCandles pre = Some m ∧
         defaultHeight ≤ height pre ∧ defaultWidth ≤ width pre ∧ scale_ok pre.
Proof.
  destruct 1 as [|c m m' Hr _ Hadd|c m m' Hr _ Hadd]; [by left|right..].
  - apply reachable_inv in Hr as [(_ & Hh & Hw & _) _].
    destruct (addFirstCandle_is_redraw c m Hh Hw) as (pre & Heq & Hpre).
    exists pre. by rewrite <- Heq.
  - apply reachable_inv in Hr as [Hok _]. pose proof Hok as (_ & Hh & Hw & _).
    destruct (decide (candles m = [])) as [He|Hne].
    + rewrite addCandle_empty in Hadd by done.
      destruct (addFirstCandle_is_redraw c m Hh Hw) as (pre & Heq & Hpre).
      exists pre. by rewrite <- Heq.
    + destruct (addCandle_is_redraw c m Hok Hne) as [Hnone|(pre & Heq & Hpre)].
      * by rewrite Hnone in Hadd.
      * exists pre. by rewrite <- Heq.
Qed.

(** Every candle of a session shows on its grid: in the three columns
    around the candle's column the grid is the candle drawn over blank
    cells, and where its column is on the canvas the body glyph fills
    [|closeRow - openRow| + 1] rows of it. *)
Lemma session_shows_candle m i pc :
  reachable m → candles m !! i = Some pc →
  ∃ h o cl l,
    priceToRow m (highPrice pc) = Some h ∧ priceToRow m (openPrice pc) = Some o ∧
    priceToRow m (closePrice pc) = Some cl ∧ priceToRow m (lowPrice pc) = Some l ∧
    (∀ r col, in_canvas m r col = true → column pc - 1 ≤ col ≤ column pc + 1 →
       readCell (data m) r col = drawnCell pc h o cl l r col (Some blank)) ∧
    (column pc < width m →
     bodyRows m pc = seqZ (Z.min o cl) (Z.abs (cl - o) + 1)).
Proof.
  intros Hr Hpc. pose proof (reachable_inv m Hr) as [Hok Hcols].
  destruct (reachable_redrawn m Hr) as [->|(pre & Hre & Hh & Hw & Hs)]; [done|].
  destruct (redrawAllCandles_strip pre m i pc Hh Hw Hs Hre Hpc)
    as (h & o & cl & l & Hhigh & Hopen & Hclose & Hlow & Hcells).
  exists h, o, cl, l. do 5 (split; [done|]). intros Hcol.
  apply (bodyRows_drawn m pc h o cl l (fun _ => Some blank)).
  - by eapply priceToRow_on_canvas.
  - by eapply priceToRow_on_canvas.
  - intros r Hr'. apply Hcells; [|lia].
    pose proof (Hcols i pc Hpc) as Hc. unfold columnOf in Hc.
    unfold in_canvas. bool_cases; done.
  - intros _. unfold bodySymbolOf. by destruct (decide (type pc = bullish)).
Qed.

(** * The properties *)

(** C1 (open = close rule).  In every session that has a candle, the candle
    that [addCandle] appends directly after the last one opens at the last
    candle's close plus 1 when both are bullish, minus 1 when both are
    bearish, and exactly at that close when their directions differ. *)
Theorem addCandle_open_equals_close (m : DynamicMatrix) (prev : PositionedCandle)
    (c : Candle) :
  reachable m → last (candles m) = Some prev →
  ∃ m' pc, addCandle c m = Some m' ∧ candles m' = candles m ++ [pc] ∧
    candle pc = c ∧
    (type prev = bullish → type c = bullish → openPrice pc = closePrice prev + 1) ∧
    (type prev = bearish → type c = bearish → openPrice pc = closePrice prev - 1) ∧
    (type prev ≠ type c → openPrice pc = closePrice prev).
Proof.
  intros [Hok Hcols]%reachable_inv Hlast.
  destruct (addCandle_spec c m prev Hok Hlast)
    as (m' & pc & lo & hi & Hadd & _ & Hcs & Hc & _ & Hopen & _).
  exists m', (set_column (columnOf (length (candles m))) pc).
  split; [done|]. split; [by rewrite Hcs, recolumned_snoc|]. split; [done|].
  simpl. rewrite Hopen.
  repeat split; intros; destruct (type prev), (type c); simpl; try done; lia.
Qed.

Lemma addCandle_open_equals_close_witness :
  ∃ m' pc, addCandle (mkCandle bearish 2 0 1) session_bearish = Some m' ∧
    candles m' = candles session_bearish ++ [pc] ∧ openPrice pc = 96.
Proof.
  destruct (addCandle_open_equals_close session_bearish
              (mkPositioned (mkCandle bearish 3 1 2) 3 101 100 97 95)
              (mkCandle bearish 2 0 1))
    as (m' & pc & Hadd & Hcs & _ & _ & Hopen & _).
  - exact (reachableBy_weaken _ _ reachable_session_bearish).
  - reflexivity.
  - exists m', pc. split; [exact Hadd|]. split; [exact Hcs|].
    exact (Hopen eq_refl eq_refl).
Defined.

(** C2, as amended.  [priceToRow] returns 0 for every price when the session
    has no candle, and [floor (height / 2)], the vertical centre of the grid,
    for every price when the session has candles and [maxPrice] equals
    [minPrice]. *)
Theorem priceToRow_degenerate (m : DynamicMatrix) (price x : Z) :
  (candles m = [] → priceToRow m price = Some 0) ∧
  (candles m ≠ [] → minPrice m = Num x → maxPrice m = Num x →
   priceToRow m price = Some (height m / 2)).
Proof.
  split; [apply priceToRow_empty | apply priceToRow_flat].
Qed.

Lemma priceToRow_degenerate_witness :
  priceToRow new_DynamicMatrix 100 = Some 0 ∧
  priceToRow session_flat 100 = Some (height session_flat / 2).
Proof.
  split.
  - apply (proj1 (priceToRow_degenerate new_DynamicMatrix 100 0)). reflexivity.
  - apply (proj2 (priceToRow_degenerate session_flat 100 100));
      [discriminate | reflexivity | reflexivity].
Defined.

(** C2 as it stands fails: on the new, empty session the row is 0, and on
    the session of one candle without extent ([minPrice = maxPrice = 100])
    the row is 3; the buffer is 1. *)
Lemma degenerate_row_is_not_buffer :
  (candles new_DynamicMatrix = [] ∧
   priceToRow new_DynamicMatrix 100 = Some 0 ∧
   priceToRow new_DynamicMatrix 100 ≠ Some buffer) ∧
  (maxPrice session_flat = minPrice session_flat ∧
   priceToRow session_flat 100 = Some 3 ∧
   priceToRow session_flat 100 ≠ Some buffer).
Proof. repeat split; done. Qed.

(** C3, as amended.  In every session that has a candle (its candles having
    magnitudes that are not negative), [priceToRow] returns a row for every
    price, the row does not increase when the price increases, and it lies
    in [[buffer, height - buffer - 1]]. *)
Theorem priceToRow_antitone_in_range (m : DynamicMatrix) (p1 p2 : Z) :
  reachableBy valid m → candles m ≠ [] →
  ∃ r1 r2, priceToRow m p1 = Some r1 ∧ priceToRow m p2 = Some r2 ∧
    (p1 ≤ p2 → r2 ≤ r1) ∧
    buffer ≤ r1 ≤ height m - buffer - 1.
Proof.
  intros Hr Hne. pose proof (reachable_bounds_ordered m Hr) as Hord.
  apply reachableBy_weaken, reachable_inv in Hr as [Hok _].
  pose proof Hok as (_ & Hh & _ & Hs).
  destruct (Hs Hne) as (lo & hi & Hlo & Hhi).
  destruct (priceToRow_total m p1 Hs) as [r1 H1].
  destruct (priceToRow_total m p2 Hs) as [r2 H2].
  exists r1, r2. split; [done|]. split; [done|]. split.
  - intros Hp. eapply (priceToRow_antitone m lo hi p1 p2); eauto.
    unfold buffer, defaultHeight in *. lia.
  - by eapply priceToRow_buffered.
Qed.

Lemma priceToRow_antitone_in_range_witness :
  ∃ r1 r2, priceToRow session_bearish 96 = Some r1 ∧
           priceToRow session_bearish 100 = Some r2 ∧
           r2 ≤ r1 ∧ buffer ≤ r1 ≤ height session_bearish - buffer - 1.
Proof.
  destruct (priceToRow_antitone_in_range session_bearish 96 100
              reachable_session_bearish)
    as (r1 & r2 & H1 & H2 & Hmono & Hrange).
  - discriminate.
  - exists r1, r2. split; [exact H1|]. split; [exact H2|].
    split; [apply Hmono; lia | exact Hrange].
Defined.

(** C3 as it stands fails: with the bounds of the new, empty session
    (height 7, buffer 1) the row of price 100 is 0, outside [[1, 5]]. *)
Lemma empty_session_row_out_of_range :
  priceToRow new_DynamicMatrix 100 = Some 0 ∧
  ¬ (buffer ≤ 0 ≤ height new_DynamicMatrix - buffer - 1).
Proof. split; [done|]. unfold buffer. lia. Qed.

(** C4 (monotonic growth).  In every session, each of the two add operations
    returns a session whose width and height are not smaller; [expandMatrix]
    changes nothing when both requested extents are at most the current
    ones; and in every case it takes the per-axis maximum of the current and
    the requested extent and keeps every cell of the grid at its row and
    column. *)
Theorem growth_is_monotonic (m : DynamicMatrix) (c : Candle) :
  reachable m →
  (∃ m', addCandle c m = Some m' ∧ width m ≤ width m' ∧ height m ≤ height m') ∧
  (∃ m', addFirstCandle c m = Some m' ∧ width m ≤ width m' ∧ height m ≤ height m') ∧
  (∀ newWidth newHeight,
     newWidth ≤ width m → newHeight ≤ height m →
     expandMatrix newWidth newHeight m = m) ∧
  (∀ newWidth newHeight,
     width (expandMatrix newWidth newHeight m) = Z.max (width m) newWidth ∧
     height (expandMatrix newWidth newHeight m) = Z.max (height m) newHeight ∧
     ∀ row col v,
       readCell (data m) row col = Some v →
       readCell (data (expandMatrix newWidth newHeight m)) row col = Some v).
Proof.
  intros Hr. pose proof (reachable_inv m Hr) as [Hok _].
  pose proof Hok as (Hg & Hh & Hw & _).
  assert (∃ m', addFirstCandle c m = Some m' ∧ width m ≤ width m' ∧ height m ≤ height m')
    as Hfirst.
  { destruct (addFirstCandle_spec c m Hh Hw)
      as (m' & pc & Hadd & _ & _ & _ & _ & _ & _ & _ & _ & _ & Hw' & Hh' & _).
    exists m'. split; [done|]. lia. }
  split; [|split; [done|split]].
  - destruct (decide (candles m = [])) as [He|Hne].
    + by rewrite addCandle_empty.
    + apply last_is_Some in Hne as [prev Hprev].
      destruct (addCandle_spec c m prev Hok Hprev)
        as (m' & pc & lo & hi & Hadd & _ & _ & _ & _ & _ & _ & _ & _ & _ & _ & _ & _
            & Hw' & Hh' & _).
      exists m'. split; [done|]. lia.
  - intros nw nh. apply expandMatrix_noop.
  - intros nw nh. destruct (expandMatrix_frame nw nh m) as (Hw' & Hh' & _).
    split; [done|]. split; [done|]. intros row col v.
    by apply expandMatrix_keeps_cell.
Qed.

Lemma growth_is_monotonic_witness :
  (∃ m', addCandle (mkCandle bullish 2 1 1) session_bearish = Some m' ∧
         width session_bearish ≤ width m' ∧ height session_bearish ≤ height m') ∧
  readCell (data (expandMatrix 15 8 session_bearish)) 2 3 = Some bearishBody.
Proof.
  destruct (growth_is_monotonic session_bearish (mkCandle bullish 2 1 1)
              (reachableBy_weaken _ _ reachable_session_bearish))
    as (Hadd & _ & _ & Hexpand).
  split; [exact Hadd|].
  apply (proj2 (proj2 (Hexpand 15 8))). reflexivity.
Defined.

(** C5 (the first candle).  A candle added by [addFirstCandle] to a session
    without candles is anchored at the baseline 100: its high is
    [100 + upperWick], its low [100 - bodySize - lowerWick]; a bullish candle
    opens at [100 - bodySize] and closes at 100, a bearish one opens at 100
    and closes at [100 - bodySize]; afterwards [minPrice] is the candle's low
    and [maxPrice] its high. *)
Theorem addFirstCandle_prices (m : DynamicMatrix) (c : Candle) :
  reachable m → candles m = [] →
  ∃ m' pc, addFirstCandle c m = Some m' ∧ candles m' = [pc] ∧ candle pc = c ∧
    highPrice pc = 100 + upperWick c ∧
    lowPrice pc = 100 - bodySize c - lowerWick c ∧
    (type c = bullish → openPrice pc = 100 - bodySize c ∧ closePrice pc = 100) ∧
    (type c = bearish → openPrice pc = 100 ∧ closePrice pc = 100 - bodySize c) ∧
    minPrice m' = Num (lowPrice pc) ∧ maxPrice m' = Num (highPrice pc).
Proof.
  intros [(_ & Hh & Hw & _) _]%reachable_inv He.
  destruct (addFirstCandle_spec c m Hh Hw)
    as (m' & pc & Hadd & _ & Hcs & Hc & Hhigh & Hlow & Hopen & Hclose & Hlo & Hhi & _).
  exists m', (set_column (columnOf 0) pc). rewrite He in Hcs.
  split; [done|]. split; [done|]. split; [done|]. simpl.
  split; [done|]. split; [done|]. rewrite Hopen, Hclose.
  split; [|split; [|done]]; intros Hty; rewrite Hty; done.
Qed.

Lemma addFirstCandle_prices_witness :
  ∃ m' pc, addFirstCandle (mkCandle bullish 2 1 1) new_DynamicMatrix = Some m' ∧
    candles m' = [pc] ∧ openPrice pc = 98 ∧ closePrice pc = 100 ∧
    minPrice m' = Num (lowPrice pc) ∧ maxPrice m' = Num (highPrice pc).
Proof.
  destruct (addFirstCandle_prices new_DynamicMatrix (mkCandle bullish 2 1 1))
    as (m' & pc & Hadd & Hcs & _ & _ & _ & Hbull & _ & Hlo & Hhi).
  - apply reach_new.
  - reflexivity.
  - exists m', pc. destruct (Hbull eq_refl) as [Hopen Hclose].
    split; [exact Hadd|]. split; [exact Hcs|]. split; [exact Hopen|].
    split; [exact Hclose|]. split; [exact Hlo | exact Hhi].
Defined.

(** C6 (the example of the specification).  The bearish candle with body 3,
    upper wick 1 and lower wick 2, added to the new session, gets the prices
    high 101, open 100, close 97, low 95, and the grid grows from its default
    height 7 to height 8. *)
Theorem addFirstCandle_bearish_example :
  height new_DynamicMatrix = 7 ∧
  ∃ m' pc, addFirstCandle (mkCandle bearish 3 1 2) new_DynamicMatrix = Some m' ∧
    candles m' = [pc] ∧
    highPrice pc = 101 ∧ openPrice pc = 100 ∧ closePrice pc = 97 ∧ lowPrice pc = 95 ∧
    8 ≤ height m' ∧ length (data m') = 8%nat.
Proof.
  split; [done|]. eexists _, _. split; [by vm_compute|]. by vm_compute.
Qed.




(** C8 (buffer rows).  After each of the two add operations, in every
    session, the top [buffer] rows and the bottom [buffer] rows of the grid
    hold blank cells only. *)
Theorem add_keeps_margins_blank (m : DynamicMatrix) (c : Candle) :
  reachable m →
  (∃ m', addCandle c m = Some m' ∧ margins_blank m') ∧
  (∃ m', addFirstCandle c m = Some m' ∧ margins_blank m').
Proof.
  intros [Hok _]%reachable_inv. pose proof Hok as (_ & Hh & Hw & _).
  assert (∃ m', addFirstCandle c m = Some m' ∧ margins_blank m') as Hfirst.
  { destruct (addFirstCandle_spec c m Hh Hw)
      as (m' & pc & Hadd & _ & _ & _ & _ & _ & _ & _ & _ & _ & _ & _ & Hmargin).
    eauto. }
  split; [|done].
  destruct (decide (candles m = [])) as [He|Hne].
  - by rewrite addCandle_empty.
  - apply last_is_Some in Hne as [prev Hprev].
    destruct (addCandle_spec c m prev Hok Hprev)
      as (m' & pc & lo & hi & Hadd & _ & _ & _ & _ & _ & _ & _ & _ & _ & _ & _ & _
          & _ & _ & Hmargin).
    eauto.
Qed.

Lemma add_keeps_margins_blank_witness :
  ∃ m', addCandle (mkCandle bullish 2 1 1) session_bearish = Some m' ∧
        readCell (data m') 0 3 = Some blank ∧
        readCell (data m') (height m' - 1) 3 = Some blank.
Proof.
  destruct (add_keeps_margins_blank session_bearish (mkCandle bullish 2 1 1)
              (reachableBy_weaken _ _ reachable_session_bearish))
    as [(m' & Hadd & Hmargin) _].
  exists m'. split; [exact Hadd|].
  assert (width m' = 15 ∧ height m' = 8) as [Hw Hh].
  { vm_compute in Hadd. injection Hadd as <-. split; reflexivity. }
  split; apply Hmargin; unfold is_margin, buffer; rewrite ?Hw, ?Hh; lia.
Defined.

(** * Further properties *)

(** ** The canvas *)



Lemma grid_ok_in_canvas m r c v :
  grid_ok m → readCell (data m) r c = Some v → in_canvas m r c = true.
Proof.
  intros (Hh & Hw & Hg) Hcell.
  destruct (readCell_Some_nonneg _ _ _ _ Hcell) as [Hr Hc].
  destruct (readCell_Some_lt _ _ _ _ _ _ Hg Hcell) as [Hrh Hcw].
  unfold in_canvas. bool_cases; done.
Qed.

Lemma in_canvas_is_Some m r c :
  grid_ok m → in_canvas m r c = true → is_Some (readCell (data m) r c).
Proof.
  intros (Hh & Hw & Hg) Hin. unfold in_canvas in Hin.
  eapply is_grid_readCell; [done|..]; revert Hin; bool_cases; intros; try done; lia.
Qed.

(** ** The grid of a session *)

(** One round of the loop of [redrawAllCandles]. *)
Lemma redrawFrom_step k n col m m' :
  session_ok m → redrawFrom (seq k (S n)) col m = Some m' →
  ∃ ck h o cl l m2,
    candles m !! k = Some ck ∧
    priceToRow m (highPrice ck) = Some h ∧ priceToRow m (openPrice ck) = Some o ∧
    priceToRow m (closePrice ck) = Some cl ∧ priceToRow m (lowPrice ck) = Some l ∧
    session_ok m2 ∧ width m2 = width m ∧ height m2 = height m ∧
    minPrice m2 = minPrice m ∧ maxPrice m2 = maxPrice m ∧
    candles m2 = <[k := set_column col ck]> (candles m) ∧
    (∀ r c, in_canvas m r c = true →
            readCell (data m2) r c =
            drawnCell (set_column col ck) h o cl l r c (readCell (data m) r c)) ∧
    redrawFrom (seq (S k) n) (col + 6) m2 = Some m'.
Proof.
  intros Hok Hre.
  change (seq k (S n)) with (k :: seq (S k) n) in Hre. cbn [redrawFrom] in Hre.
  destruct (candles m !! k) as [ck|] eqn:Hk; [|done]. cbn [mbind option_bind] in Hre.
  set (ck' := set_column col ck) in *.
  set (m1 := set_candles (<[k := ck']> (candles m)) m) in *.
  assert (same_scale m m1) as Hsc1.
  { subst m1. repeat split; simpl. by rewrite length_insert. }
  assert (session_ok m1) as Hok1.
  { destruct Hok as (Hg & ? & ? & Hs). do 3 (split; [done|]).
    intros _. apply Hs. intros He. by rewrite He in Hk. }
  pose proof Hok1 as (Hg1 & _ & _ & Hs1).
  destruct (priceToRow_total m1 (highPrice ck') Hs1) as [h Hh].
  destruct (priceToRow_total m1 (openPrice ck') Hs1) as [o Ho].
  destruct (priceToRow_total m1 (closePrice ck') Hs1) as [cl Hcl].
  destruct (priceToRow_total m1 (lowPrice ck') Hs1) as [l Hl].
  destruct (drawCandle_cells ck' m1 _ _ _ _ Hg1 Hh Ho Hcl Hl)
    as (m2 & Hdraw & Hg2 & Hfr2 & Hcells).
  rewrite Hdraw in Hre. cbn [mbind option_bind] in Hre.
  rewrite (priceToRow_scale m m1) in Hh, Ho, Hcl, Hl by done.
  exists ck, h, o, cl, l, m2. destruct Hfr2 as (Hw2 & Hh2 & Hlo2 & Hhi2 & Hcs2).
  split; [done|]. do 4 (split; [done|]).
  split; [eapply session_ok_frame; [|done|done]; by repeat split|].
  do 5 (split; [done|]). split; [|done]. intros r c Hin. by apply Hcells.
Qed.

(** A property of cells that drawing keeps holds after the loop. *)
Lemma redrawFrom_cells_inv (P : option string → Prop) n : ∀ k m m',
  session_ok m →
  (∀ c h o cl l r col old, P old → P (drawnCell c h o cl l r col old)) →
  redrawFrom (seq k n) (columnOf k) m = Some m' →
  (∀ r col, in_canvas m r col = true → P (readCell (data m) r col)) →
  ∀ r col, in_canvas m' r col = true → P (readCell (data m') r col).
Proof.
  induction n as [|n IH]; intros k m m' Hok HP Hre Hcells r col Hin.
  - simpl in Hre. simplify_eq. by apply Hcells.
  - destruct (redrawFrom_step k n _ m m' Hok Hre)
      as (ck & h & o & cl & l & m2 & _ & _ & _ & _ & _ & Hok2 & Hw2 & Hh2 & _ & _ & _
          & Hcells2 & Hre2).
    rewrite <- columnOf_S in Hre2.
    apply (IH (S k) m2 m' Hok2 HP Hre2); [|done].
    intros r' col' Hin'.
    assert (in_canvas m r' col' = true) as Hin0.
    { unfold in_canvas in *. by rewrite <- Hw2, <- Hh2. }
    rewrite Hcells2 by done. by apply HP, Hcells.
Qed.

Lemma glyph_drawnCell c h o cl l r col old :
  (∃ v, old = Some v ∧ glyph v) →
  ∃ v, drawnCell c h o cl l r col old = Some v ∧ glyph v.
Proof.
  intros Hold. unfold drawnCell.
  destruct (_ && _ && _ && _).
  - eexists. split; [done|]. unfold bodySymbolOf, glyph.
    destruct (decide (type c = bullish)); eauto.
  - destruct (_ && _); [|done]. eexists. split; [done|]. unfold glyph. eauto.
Qed.

Lemma reachable_cells m r col :
  reachable m → in_canvas m r col = true →
  ∃ v, readCell (data m) r col = Some v ∧ glyph v.
Proof.
  intros Hr. destruct (reachable_redrawn m Hr) as [->|(pre & Hre & Hh & Hw & Hs)].
  - intros Hin. exists blank. split; [|by left].
    unfold in_canvas in Hin. simpl in Hin.
    apply (readCell_create defaultWidth defaultHeight); revert Hin;
      bool_cases; intros; try done; lia.
  - unfold redrawAllCandles in Hre.
    set (m0 := set_data (createEmptyMatrix (width pre) (height pre)) pre) in *.
    assert (session_ok m0) as Hok0.
    { unfold defaultHeight, defaultWidth in *.
      split; [|done]. split; [simpl; lia|]. split; [simpl; lia|].
      simpl. apply is_grid_create. }
    apply (redrawFrom_cells_inv (fun old => ∃ v, old = Some v ∧ glyph v)
             (length (candles m0)) 0%nat m0 m Hok0); [|done|].
    + intros. by apply glyph_drawnCell.
    + intros r' col' Hin'. exists blank. split; [|by left].
      unfold in_canvas in Hin'. simpl in *.
      apply readCell_create; revert Hin'; bool_cases; intros; try done; lia.
Qed.

(** X4 (columns).  In every session the candle at index [i] stands in column
    [3 + 6 i], so that two candles are at least six columns apart. *)
Theorem candle_columns (m : DynamicMatrix) (i j : nat) (ci cj : PositionedCandle) :
  reachable m → candles m !! i = Some ci → candles m !! j = Some cj →
  column ci = 3 + 6 * Z.of_nat i ∧ ((i < j)%nat → column ci + 6 ≤ column cj).
Proof.
  intros [_ Hcols]%reachable_inv Hi Hj.
  rewrite (Hcols i ci Hi), (Hcols j cj Hj). unfold columnOf. split; [done|]. lia.
Qed.

Lemma candle_columns_witness :
  column (mkPositioned (mkCandle bearish 3 1 2) 3 101 100 97 95) = 3 + 6 * Z.of_nat 0.
Proof.
  apply (candle_columns session_bearish 0 0
           (mkPositioned (mkCandle bearish 3 1 2) 3 101 100 97 95)
           (mkPositioned (mkCandle bearish 3 1 2) 3 101 100 97 95)
           (reachableBy_weaken _ _ reachable_session_bearish)); reflexivity.
Defined.

(** ** Redrawing *)

Lemma set_candles_own m : set_candles (candles m) m = m.
Proof. by destruct m. Qed.

Lemma setCell_set_candles cs r c v m :
  setCell r c v (set_candles cs m) = set_candles cs (setCell r c v m).
Proof. unfold setCell. simpl. by destruct (_ && _ && _ && _). Qed.

Lemma forRange_commute {S : Type} (f : Z → S → S) (g : S → S) a b s :
  (∀ i s, f i (g s) = g (f i s)) → forRange a b f (g s) = g (forRange a b f s).
Proof.
  intros Hfg. unfold forRange. generalize (seqZ a (b - a)). intros l.
  revert s. induction l as [|i l IH]; intros s; simpl; [done|].
  by rewrite Hfg, IH.
Qed.

Lemma priceToRow_set_candles cs m p :
  length cs = length (candles m) → priceToRow (set_candles cs m) p = priceToRow m p.
Proof. intros Hlen. apply priceToRow_scale. by repeat split. Qed.

(** [drawCandle] reads of the candle list its length only. *)
Lemma drawCandle_set_candles cs c m :
  length cs = length (candles m) →
  drawCandle c (set_candles cs m) = set_candles cs <$> drawCandle c m.
Proof.
  intros Hlen. unfold drawCandle. rewrite !priceToRow_set_candles by done.
  destruct (priceToRow m (highPrice c)) as [h|]; [|done].
  destruct (priceToRow m (openPrice c)) as [o|]; [|done].
  destruct (priceToRow m (closePrice c)) as [cl|]; [|done].
  destruct (priceToRow m (lowPrice c)) as [l|]; [|done].
  cbn [mbind option_bind fmap option_fmap option_map]. f_equal.
  rewrite !(forRange_commute _ (set_candles cs)); [done|..].
  - intros i s. apply setCell_set_candles.
  - intros i s. rewrite !setCell_set_candles.
    destruct (0 <? column c); rewrite ?setCell_set_candles; simpl;
      by destruct (column c <? _).
  - intros i s. apply setCell_set_candles.
Qed.

(** The loop of [redrawAllCandles] does not depend on the columns the
    candles had. *)
Lemma redrawFrom_columns_irrelevant n : ∀ k col m (csa csb : list PositionedCandle),
  set_column 0 <$> csa = set_column 0 <$> csb → take k csa = take k csb →
  (k + n)%nat = length csa →
  redrawFrom (seq k n) col (set_candles csa m) =
  redrawFrom (seq k n) col (set_candles csb m).
Proof.
  induction n as [|n IH]; intros k col m csa csb Hmap Htake Hlen.
  - assert (length csb = length csa) as Hlenb.
    { apply (f_equal length) in Hmap. by rewrite !length_fmap in Hmap. }
    rewrite <- (take_ge csa k), <- (take_ge csb k) by lia. by rewrite Htake.
  - assert (length csb = length csa) as Hlenb.
    { apply (f_equal length) in Hmap. by rewrite !length_fmap in Hmap. }
    change (seq k (S n)) with (k :: seq (S k) n). cbn [redrawFrom candles set_candles].
    destruct (lookup_lt_is_Some_2 csa k ltac:(lia)) as [ca Hca].
    destruct (lookup_lt_is_Some_2 csb k ltac:(lia)) as [cb Hcb].
    rewrite Hca, Hcb. cbn [mbind option_bind].
    assert (set_column col ca = set_column col cb) as Hcol.
    { apply (f_equal (fun l => l !! k)) in Hmap.
      rewrite !list_lookup_fmap, Hca, Hcb in Hmap. simpl in Hmap.
      destruct ca, cb. unfold set_column in *. simpl in *. by simplify_eq. }
    rewrite <- Hcol. set (c' := set_column col ca).
    change (set_candles (<[k:=c']> csa) (set_candles csa m))
      with (set_candles (<[k:=c']> csa) m).
    change (set_candles (<[k:=c']> csb) (set_candles csb m))
      with (set_candles (<[k:=c']> csb) m).
    change (set_candles (<[k:=c']> csa) m)
      with (set_candles (<[k:=c']> csa) (set_candles (<[k:=c']> csb) m)).
    rewrite (drawCandle_set_candles (<[k:=c']> csa))
      by (simpl; rewrite !length_insert; lia).
    destruct (drawCandle c' (set_candles (<[k:=c']> csb) m)) as [m2|] eqn:Hdraw;
      [|done].
    cbn [mbind option_bind fmap option_fmap option_map].
    assert (m2 = set_candles (<[k:=c']> csb) m2) as Hm2.
    { pose proof (drawCandle_set_candles (<[k:=c']> csb) c'
                    (set_candles (<[k:=c']> csb) m) eq_refl) as Heq.
      change (set_candles (<[k:=c']> csb) (set_candles (<[k:=c']> csb) m))
        with (set_candles (<[k:=c']> csb) m) in Heq.
      rewrite Hdraw in Heq. simpl in Heq. by simplify_eq. }
    rewrite Hm2 at 2. apply IH.
    + by rewrite !list_fmap_insert, Hmap.
    + rewrite (take_S_r _ _ c'), (take_S_r (<[k:=c']> csb) _ c').
      * by rewrite !take_insert_ge, Htake by lia.
      * apply list_lookup_insert_eq. lia.
      * apply list_lookup_insert_eq. lia.
    + rewrite length_insert. lia.
Qed.

(** X5 (redrawing twice).  [redrawAllCandles] on a session returns that very
    session: grid, extents, bounds and candles. *)
Theorem redraw_is_idempotent (m : DynamicMatrix) :
  reachable m → redrawAllCandles m = Some m.
Proof.
  intros Hr. destruct (reachable_redrawn m Hr) as [->|(pre & Hre & Hh & Hw & Hs)].
  { by vm_compute. }
  destruct (redrawAllCandles_spec pre Hh Hw Hs)
    as (m' & Hre' & _ & Hw' & Hh' & Hlo' & Hhi' & Hcs' & _).
  rewrite Hre in Hre'. simplify_eq.
  rewrite <- Hre. unfold redrawAllCandles.
  set (m0 := set_data (createEmptyMatrix (width pre) (height pre)) pre).
  assert (set_data (createEmptyMatrix (width m') (height m')) m'
          = set_candles (recolumned (candles pre)) m0) as ->.
  { subst m0. destruct m', pre. unfold set_data, set_candles. simpl in *. by subst. }
  cbn [candles set_candles]. unfold recolumned at 1. rewrite length_imap.
  change (candles m0) with (candles pre).
  transitivity (redrawFrom (seq 0 (length (candles pre))) 3
                  (set_candles (candles pre) m0)).
  - apply redrawFrom_columns_irrelevant.
    + apply list_eq. intros i. unfold recolumned.
      rewrite !list_lookup_fmap, list_lookup_imap. by destruct (candles pre !! i).
    + done.
    + unfold recolumned. by rewrite length_imap.
  - change (candles pre) with (candles m0) at 2. by rewrite set_candles_own.
Qed.

Lemma redraw_is_idempotent_witness : redrawAllCandles session_bearish = Some session_bearish.
Proof.
  apply redraw_is_idempotent.
  exact (reachableBy_weaken _ _ reachable_session_bearish).
Defined.

(** ** One add at a time *)

Lemma addFirstCandle_step c m :
  reachable m →
  ∃ m' pc, addFirstCandle c m = Some m' ∧ candles m' = candles m ++ [pc] ∧
    candle pc = c ∧ well_shaped pc ∧
    minPrice m' = Num (lowPrice pc) ∧ maxPrice m' = Num (highPrice pc) ∧
    width m' = width m ∧
    height m' = Z.max (height m) (highPrice pc - lowPrice pc + 2 * buffer).
Proof.
  intros [(_ & Hh & Hw & _) Hcols]%reachable_inv.
  destruct (addFirstCandle_spec c m Hh Hw)
    as (m' & pc & Hadd & _ & Hcs & Hc & Hhigh & Hlow & Hopen & Hclose & Hlo & Hhi
        & Hw' & Hh' & _).
  exists m', (set_column (columnOf (length (candles m))) pc).
  split; [done|]. split; [by rewrite Hcs, recolumned_snoc|]. split; [done|].
  split; [|simpl; split; [done|]; split; [done|]; split; [done|]; rewrite Hh'; f_equal; lia].
  unfold well_shaped. simpl. rewrite Hc, Hhigh, Hlow, Hopen, Hclose.
  destruct (type c); simpl; lia.
Qed.

Lemma addCandle_step c m prev :
  reachable m → last (candles m) = Some prev →
  ∃ m' pc lo hi, addCandle c m = Some m' ∧ candles m' = candles m ++ [pc] ∧
    candle pc = c ∧ well_shaped pc ∧
    openPrice pc = closePrice prev + separation (type prev) (type c) ∧
    minPrice m' = Math_min (minPrice m) (Num (lowPrice pc)) ∧
    maxPrice m' = Math_max (maxPrice m) (Num (highPrice pc)) ∧
    minPrice m' = Num lo ∧ maxPrice m' = Num hi ∧
    width m' = Z.max (width m) ((Z.of_nat (length (candles m)) + 1) * 6 + 3) ∧
    height m' = Z.max (height m) (hi - lo + 2 * buffer).
Proof.
  intros [Hok Hcols]%reachable_inv Hlast.
  destruct (addCandle_spec c m prev Hok Hlast)
    as (m' & pc & lo & hi & Hadd & _ & Hcs & Hc & _ & Hopen & Hclose & Hhigh & Hlow
        & Hmin & Hmax & Hlo & Hhi & Hw' & Hh' & _).
  exists m', (set_column (columnOf (length (candles m))) pc), lo, hi.
  split; [done|]. split; [by rewrite Hcs, recolumned_snoc|]. split; [done|].
  split; [|done].
  unfold well_shaped. simpl. rewrite Hc, Hhigh, Hlow, Hclose.
  destruct (type c); simpl; lia.
Qed.

(** Each add, with either method, appends one candle. *)
Lemma add_appends c m m' :
  reachable m → addFirstCandle c m = Some m' ∨ addCandle c m = Some m' →
  ∃ pc, candles m' = candles m ++ [pc] ∧ candle pc = c ∧ well_shaped pc.
Proof.
  intros Hr Hadd.
  destruct (addFirstCandle_step c m Hr) as (m1 & pc1 & Hadd1 & Hcs1 & Hc1 & Hws1 & _).
  destruct (decide (candles m = [])) as [He|Hne].
  - rewrite addCandle_empty in Hadd by done.
    assert (m' = m1) as -> by (destruct Hadd; congruence). eauto.
  - destruct Hadd as [Hadd|Hadd]; [simplify_eq; eauto|].
    apply last_is_Some in Hne as [prev Hprev].
    destruct (addCandle_step c m prev Hr Hprev)
      as (m2 & pc2 & lo & hi & Hadd2 & Hcs2 & Hc2 & Hws2 & _).
    simplify_eq. eauto.
Qed.

Lemma reachable_well_shaped m : reachable m → Forall well_shaped (candles m).
Proof.
  induction 1 as [|c m m' Hr IH _ Hadd|c m m' Hr IH _ Hadd].
  - constructor.
  - destruct (add_appends c m m' Hr (or_introl Hadd)) as (pc & -> & _ & Hws).
    apply Forall_app. split; [done|]. by constructor.
  - destruct (add_appends c m m' Hr (or_intror Hadd)) as (pc & -> & _ & Hws).
    apply Forall_app. split; [done|]. by constructor.
Qed.

Lemma well_shaped_ordered pc :
  well_shaped pc → valid pc →
  lowPrice pc ≤ Z.min (openPrice pc) (closePrice pc) ∧
  Z.max (openPrice pc) (closePrice pc) ≤ highPrice pc ∧
  highPrice pc - lowPrice pc = bodySize pc + upperWick pc + lowerWick pc ∧
  (type pc = bullish → openPrice pc ≤ closePrice pc) ∧
  (type pc = bearish → closePrice pc ≤ openPrice pc).
Proof.
  intros Hws (Hb & Hu & Hl). unfold well_shaped in Hws.
  destruct (type pc); destruct Hws as (? & ? & ?); repeat split; try done; lia.
Qed.

(** X6 (the prices of a candle).  Every candle of every session closes one
    body above its open when bullish and one body below when bearish, and
    its wicks reach one wick length beyond the body; with magnitudes that
    are not negative, low <= open, close <= high and the candle spans
    [bodySize + upperWick + lowerWick] price units. *)
Theorem candle_price_geometry (m : DynamicMatrix) (i : nat) (pc : PositionedCandle) :
  reachable m → candles m !! i = Some pc →
  well_shaped pc ∧
  (valid pc →
   lowPrice pc ≤ Z.min (openPrice pc) (closePrice pc) ∧
   Z.max (openPrice pc) (closePrice pc) ≤ highPrice pc ∧
   highPrice pc - lowPrice pc = bodySize pc + upperWick pc + lowerWick pc ∧
   (type pc = bullish → openPrice pc ≤ closePrice pc) ∧
   (type pc = bearish → closePrice pc ≤ openPrice pc)).
Proof.
  intros Hr Hpc. pose proof (reachable_well_shaped m Hr) as Hall.
  rewrite Forall_lookup in Hall. pose proof (Hall i pc Hpc) as Hws.
  split; [done|]. by apply well_shaped_ordered.
Qed.

Lemma candle_price_geometry_witness :
  lowPrice (mkPositioned (mkCandle bearish 3 1 2) 3 101 100 97 95) ≤ Z.min 100 97.
Proof.
  destruct (candle_price_geometry session_bearish 0
              (mkPositioned (mkCandle bearish 3 1 2) 3 101 100 97 95)
              (reachableBy_weaken _ _ reachable_session_bearish) eq_refl)
    as (_ & Hvalid).
  refine (proj1 (Hvalid _)). unfold valid; simpl; lia.
Defined.

(** In the integer model, any sequence of calls of the two add methods on a
    session returns a session whose candles are the old ones followed by
    the candles passed. *)
Lemma int_calls_append_candles (ops : list (bool * Candle)) (m : DynamicMatrix) :
  reachable m →
  ∃ m', calls ops m = Some m' ∧ reachable m' ∧
        candle <$> candles m' = (candle <$> candles m) ++ (snd <$> ops) ∧
        take (length (candles m)) (candles m') = candles m.
Proof.
  revert m. induction ops as [|[first c] ops IH]; intros m Hr.
  - exists m. simpl. rewrite app_nil_r, take_ge by done. done.
  - assert (∃ m1, call (first, c) m = Some m1 ∧ reachable m1 ∧
                  ∃ pc, candles m1 = candles m ++ [pc] ∧ candle pc = c)
      as (m1 & Hcall & Hr1 & pc & Hcs1 & Hc).
    { unfold call. simpl. destruct first.
      - destruct (addFirstCandle_total c m Hr) as [m1 Hadd]. exists m1.
        split; [done|]. split; [by eapply reach_addFirstCandle|].
        destruct (add_appends c m m1 Hr (or_introl Hadd)) as (pc & ? & ? & _). eauto.
      - destruct (addCandle_total c m Hr) as [m1 Hadd]. exists m1.
        split; [done|]. split; [by eapply reach_addCandle|].
        destruct (add_appends c m m1 Hr (or_intror Hadd)) as (pc & ? & ? & _). eauto. }
    destruct (IH m1 Hr1) as (m' & Hcalls & Hr' & Hcs' & Htake).
    exists m'. cbn [calls]. rewrite Hcall. cbn [mbind option_bind].
    split; [done|]. split; [done|]. split.
    + rewrite Hcs', Hcs1, fmap_app. simpl. rewrite Hc. by rewrite <- app_assoc.
    + rewrite Hcs1 in Htake. rewrite length_app in Htake. simpl in Htake.
      apply (f_equal (take (length (candles m)))) in Htake.
      rewrite take_take in Htake.
      rewrite Nat.min_l in Htake by lia. rewrite Htake.
      by rewrite take_app_length.
Qed.

(** ** Sessions that start with the first candle *)

Lemma proper_reachable m : proper m → reachable m.
Proof.
  induction 1; [apply reach_new | by eapply reach_addFirstCandle
               | by eapply reach_addCandle].
Qed.

Lemma proper_bounds (m : DynamicMatrix) :
  proper m → candles m ≠ [] →
  ∃ lo hi, minPrice m = Num lo ∧ maxPrice m = Num hi ∧
    (∀ pc, pc ∈ candles m → lo ≤ lowPrice pc ∧ highPrice pc ≤ hi) ∧
    (∃ pc, pc ∈ candles m ∧ lowPrice pc = lo) ∧
    (∃ pc, pc ∈ candles m ∧ highPrice pc = hi) ∧
    hi - lo + 2 * buffer ≤ height m.
Proof.
  induction 1 as [|c m m' Hp IH He Hadd|c m m' Hp IH Hadd]; intros Hne; [done|..].
  - pose proof (proper_reachable m Hp) as Hr.
    destruct (addFirstCandle_step c m Hr)
      as (m1 & pc & Hadd1 & Hcs & _ & _ & Hlo & Hhi & _ & Hh).
    simplify_eq. rewrite He in Hcs. simpl in Hcs.
    exists (lowPrice pc), (highPrice pc). rewrite Hcs.
    split; [done|]. split; [done|]. split.
    { intros pc' ->%list_elem_of_singleton. lia. }
    split; [exists pc; split; [by left|done]|].
    split; [exists pc; split; [by left|done]|]. lia.
  - pose proof (proper_reachable m Hp) as Hr.
    destruct (decide (candles m = [])) as [He|Hne0].
    + rewrite addCandle_empty in Hadd by done.
      destruct (addFirstCandle_step c m Hr)
        as (m1 & pc & Hadd1 & Hcs & _ & _ & Hlo & Hhi & _ & Hh).
      simplify_eq. rewrite He in Hcs. simpl in Hcs.
      exists (lowPrice pc), (highPrice pc). rewrite Hcs.
      split; [done|]. split; [done|]. split.
      { intros pc' ->%list_elem_of_singleton. lia. }
      split; [exists pc; split; [by left|done]|].
      split; [exists pc; split; [by left|done]|]. lia.
    + destruct (IH Hne0) as (lo0 & hi0 & Hlo0 & Hhi0 & Hall & (pl & Hpl & Hpl') & (ph & Hph & Hph') & _).
      pose proof Hne0 as [prev Hprev]%last_is_Some.
      destruct (addCandle_step c m prev Hr Hprev)
        as (m1 & pc & lo & hi & Hadd1 & Hcs & _ & _ & _ & Hmin & Hmax & Hlo & Hhi & _ & Hh).
      assert (m1 = m') as -> by congruence.
      rewrite Hlo0 in Hmin. rewrite Hhi0 in Hmax. simpl in Hmin, Hmax.
      assert (lo = Z.min lo0 (lowPrice pc)) as -> by congruence.
      assert (hi = Z.max hi0 (highPrice pc)) as -> by congruence.
      exists (Z.min lo0 (lowPrice pc)), (Z.max hi0 (highPrice pc)). rewrite Hcs.
      split; [done|]. split; [done|]. split.
      { intros pc' [Hin| ->%list_elem_of_singleton]%elem_of_app; [|lia].
        destruct (Hall pc' Hin). lia. }
      split.
      { destruct (Z.min_spec lo0 (lowPrice pc)) as [[_ ->]|[_ ->]].
        - exists pl. split; [apply elem_of_app; by left|done].
        - exists pc. split; [apply elem_of_app; right; by left|done]. }
      split.
      { destruct (Z.max_spec hi0 (highPrice pc)) as [[_ ->]|[_ ->]].
        - exists pc. split; [apply elem_of_app; right; by left|done].
        - exists ph. split; [apply elem_of_app; by left|done]. }
      lia.
Qed.

(** X8 (the bounds).  In a session whose first candle alone was added to an
    empty session, [minPrice] is the lowest low and [maxPrice] the highest
    high of its candles, and the grid has a row for each price unit between
    them besides the buffer rows. *)
Theorem bounds_are_the_extremes (m : DynamicMatrix) :
  proper m → candles m ≠ [] →
  ∃ lo hi, minPrice m = Num lo ∧ maxPrice m = Num hi ∧
    (∀ pc, pc ∈ candles m → lo ≤ lowPrice pc ∧ highPrice pc ≤ hi) ∧
    (∃ pc, pc ∈ candles m ∧ lowPrice pc = lo) ∧
    (∃ pc, pc ∈ candles m ∧ highPrice pc = hi) ∧
    hi - lo + 2 * buffer ≤ height m.
Proof. apply proper_bounds. Qed.

Lemma proper_session_bearish : proper session_bearish.
Proof.
  apply (proper_first (mkCandle bearish 3 1 2) new_DynamicMatrix).
  - apply proper_new.
  - reflexivity.
  - by vm_compute.
Qed.

Lemma bounds_are_the_extremes_witness :
  ∃ lo hi, minPrice session_bearish = Num lo ∧ maxPrice session_bearish = Num hi ∧
           hi - lo + 2 * buffer ≤ height session_bearish.
Proof.
  destruct (bounds_are_the_extremes session_bearish proper_session_bearish)
    as (lo & hi & Hlo & Hhi & _ & _ & _ & Hh).
  - discriminate.
  - exists lo, hi. split; [exact Hlo|]. split; [exact Hhi | exact Hh].
Defined.

Lemma proper_width m : proper m → 6 * Z.of_nat (length (candles m)) + 1 ≤ width m.
Proof.
  induction 1 as [|c m m' Hp IH He Hadd|c m m' Hp IH Hadd]; [done|..].
  - destruct (addFirstCandle_step c m (proper_reachable m Hp))
      as (m1 & pc & Hadd1 & Hcs & _ & _ & _ & _ & Hw & _).
    simplify_eq. rewrite Hcs, He, Hw. simpl.
    pose proof (reachable_inv m (proper_reachable m Hp)) as [(_ & _ & Hw7 & _) _].
    unfold defaultWidth in Hw7. lia.
  - pose proof (proper_reachable m Hp) as Hr.
    destruct (decide (candles m = [])) as [He|Hne0].
    + rewrite addCandle_empty in Hadd by done.
      destruct (addFirstCandle_step c m Hr)
        as (m1 & pc & Hadd1 & Hcs & _ & _ & _ & _ & Hw & _).
      simplify_eq. rewrite Hcs, He, Hw. simpl.
      pose proof (reachable_inv m Hr) as [(_ & _ & Hw7 & _) _].
      unfold defaultWidth in Hw7. lia.
    + pose proof Hne0 as [prev Hprev]%last_is_Some.
      destruct (addCandle_step c m prev Hr Hprev)
        as (m1 & pc & lo & hi & Hadd1 & Hcs & _ & _ & _ & _ & _ & _ & _ & Hw & _).
      simplify_eq. rewrite Hcs, length_app, Hw. simpl. lia.
Qed.

Lemma proper_room (m : DynamicMatrix) (i : nat) (pc : PositionedCandle) :
  proper m → candles m !! i = Some pc →
  0 ≤ column pc - 1 ∧ column pc + 1 < width m.
Proof.
  intros Hp Hpc. pose proof (proper_width m Hp) as Hroom.
  pose proof (reachable_inv m (proper_reachable m Hp)) as [_ Hcols].
  rewrite (Hcols i pc Hpc). unfold columnOf.
  apply lookup_lt_Some in Hpc. lia.
Qed.

(** X9 (room for every candle).  In such a session the three columns of
    every candle lie on the canvas: [drawCandle] clips nothing. *)
Theorem candles_fit_the_canvas (m : DynamicMatrix) (i : nat) (pc : PositionedCandle) :
  proper m → candles m !! i = Some pc →
  0 ≤ column pc - 1 ∧ column pc + 1 < width m.
Proof. apply proper_room. Qed.

Lemma candles_fit_the_canvas_witness :
  0 ≤ 3 - 1 ∧ 3 + 1 < width session_bearish.
Proof.
  exact (candles_fit_the_canvas session_bearish 0
           (mkPositioned (mkCandle bearish 3 1 2) 3 101 100 97 95)
           proper_session_bearish eq_refl).
Defined.

(** ** The ends of the row mapping *)

Lemma scaledRow_at_max lo hi h : scaledRow lo hi h hi = buffer.
Proof.
  unfold scaledRow, Math_round. rewrite Z.sub_diag.
  assert (inject_Z 0 / inject_Z (hi - lo) * inject_Z (h - 2 * buffer) + (1 # 2)
          == 1 # 2)%Q as ->.
  { unfold Qdiv. change (inject_Z 0) with 0%Q. ring. }
  done.
Qed.

Lemma scaledRow_at_min lo hi h : lo ≠ hi → scaledRow lo hi h lo = h - buffer.
Proof.
  intros Hne. unfold scaledRow, Math_round.
  assert (inject_Z (hi - lo) / inject_Z (hi - lo) * inject_Z (h - 2 * buffer) + (1 # 2)
          == inject_Z (h - 2 * buffer) + (1 # 2))%Q as ->.
  { field. change 0%Q with (inject_Z 0). rewrite inject_Z_injective. lia. }
  unfold Qfloor, Qplus, inject_Z. simpl. unfold buffer.
  change (Z.pos (1 * 2)) with 2.
  pose proof (Z.div_mod ((h - 2 * 1) * 2 + 1 * 1) 2 ltac:(lia)).
  pose proof (Z.mod_pos_bound ((h - 2 * 1) * 2 + 1 * 1) 2 ltac:(lia)). lia.
Qed.

(** X10 (the ends of the row mapping).  In a session with candles whose
    bounds differ, the highest price and every price above it map to the
    first row under the top buffer, and the lowest price and every price
    below it to the last row above the bottom buffer. *)
Theorem priceToRow_maps_bounds_to_buffers (m : DynamicMatrix) (lo hi p : Z) :
  reachable m → candles m ≠ [] →
  minPrice m = Num lo → maxPrice m = Num hi → lo < hi →
  (hi ≤ p → priceToRow m p = Some buffer) ∧
  (p ≤ lo → priceToRow m p = Some (height m - buffer - 1)).
Proof.
  intros [(_ & Hh & _) _]%reachable_inv Hne Hlo Hhi Hlt.
  rewrite (priceToRow_scaled m p lo hi) by (done || lia).
  unfold defaultHeight in Hh.
  split; intros Hp; f_equal.
  - pose proof (scaledRow_antitone lo hi (height m) hi p Hlt) as Hanti.
    rewrite scaledRow_at_max in Hanti. unfold buffer in *. lia.
  - pose proof (scaledRow_antitone lo hi (height m) p lo Hlt) as Hanti.
    rewrite scaledRow_at_min in Hanti by lia. unfold buffer in *. lia.
Qed.

Lemma priceToRow_maps_bounds_to_buffers_witness :
  priceToRow session_bearish 101 = Some buffer ∧
  priceToRow session_bearish 95 = Some (height session_bearish - buffer - 1).
Proof.
  split.
  - apply (proj1 (priceToRow_maps_bounds_to_buffers session_bearish 95 101 101
             (reachableBy_weaken _ _ reachable_session_bearish)
             ltac:(discriminate) eq_refl eq_refl ltac:(lia))). lia.
  - apply (proj2 (priceToRow_maps_bounds_to_buffers session_bearish 95 101 95
             (reachableBy_weaken _ _ reachable_session_bearish)
             ltac:(discriminate) eq_refl eq_refl ltac:(lia))). lia.
Defined.

(** ** A candle on the grid *)

(** X11 (a candle on the grid).  In a session that starts with its first
    candle, the column of a candle with magnitudes that are not negative
    shows, from the top: blank cells, the upper wick from [highRow], the
    body over the rows of open and close, the lower wick down to [lowRow],
    blank cells; the rows are ordered and there is no gap. *)
Theorem candle_column_is_contiguous (m : DynamicMatrix) (i : nat) (pc : PositionedCandle) :
  proper m → candles m !! i = Some pc → valid pc →
  ∃ h o cl l,
    priceToRow m (highPrice pc) = Some h ∧ priceToRow m (openPrice pc) = Some o ∧
    priceToRow m (closePrice pc) = Some cl ∧ priceToRow m (lowPrice pc) = Some l ∧
    h ≤ Z.min o cl ∧ Z.max o cl ≤ l ∧
    ∀ r, 0 ≤ r < height m →
      readCell (data m) r (column pc) =
      Some (if (Z.min o cl <=? r) && (r <=? Z.max o cl) then bodySymbolOf pc
            else if (h <=? r) && (r <=? l) then wickSymbol else blank).
Proof.
  intros Hp Hpc Hv. pose proof (proper_reachable m Hp) as Hr.
  pose proof (reachable_inv m Hr) as [Hok _].
  assert (candles m ≠ []) as Hne by (intros He; by rewrite He in Hpc).
  destruct (proper_bounds m Hp Hne) as (lo & hi & Hlo & Hhi & Hall & _).
  destruct (Hall pc) as [Hl1 Hh1]; [by eapply list_elem_of_lookup_2|].
  pose proof (reachable_well_shaped m Hr) as Hws. rewrite Forall_lookup in Hws.
  destruct (well_shaped_ordered pc (Hws i pc Hpc) Hv) as (Hg1 & Hg2 & Hg3 & _).
  destruct (session_shows_candle m i pc Hr Hpc)
    as (h & o & cl & l & Hhigh & Hopen & Hclose & Hlow & Hcells & _).
  destruct (proper_room m i pc Hp Hpc) as [Hc1 Hc2].
  pose proof Hok as (_ & H7 & _). unfold defaultHeight, buffer in *.
  assert (∀ p1 p2 r1 r2, p1 ≤ p2 → priceToRow m p1 = Some r1 →
                         priceToRow m p2 = Some r2 → r2 ≤ r1) as Hanti.
  { intros p1 p2 r1 r2 Hle H1 H2.
    eapply (priceToRow_antitone m lo hi p1 p2); eauto; unfold buffer; lia. }
  exists h, o, cl, l. do 4 (split; [done|]).
  assert (h ≤ Z.min o cl) as Htop.
  { pose proof (Hanti (openPrice pc) (highPrice pc) o h ltac:(lia) Hopen Hhigh).
    pose proof (Hanti (closePrice pc) (highPrice pc) cl h ltac:(lia) Hclose Hhigh).
    lia. }
  assert (Z.max o cl ≤ l) as Hbottom.
  { pose proof (Hanti (lowPrice pc) (openPrice pc) l o ltac:(lia) Hlow Hopen).
    pose proof (Hanti (lowPrice pc) (closePrice pc) l cl ltac:(lia) Hlow Hclose).
    lia. }
  split; [done|]. split; [done|]. intros r Hrow.
  rewrite Hcells; [|unfold in_canvas; bool_cases; done | lia].
  unfold drawnCell. bool_cases; done.
Qed.

Lemma candle_column_is_contiguous_witness :
  ∃ h l, priceToRow session_bearish 101 = Some h ∧
         priceToRow session_bearish 95 = Some l ∧ h ≤ l.
Proof.
  destruct (candle_column_is_contiguous session_bearish 0
              (mkPositioned (mkCandle bearish 3 1 2) 3 101 100 97 95)
              proper_session_bearish eq_refl)
    as (h & o & cl & l & Hhigh & _ & _ & Hlow & Htop & Hbottom & _).
  - unfold valid; simpl; lia.
  - exists h, l. split; [exact Hhigh|]. split; [exact Hlow|]. lia.
Defined.

(** ** The chart with axes *)

Lemma readCell_writeCell_row g r c v r' c' :
  0 ≤ r' → r ≠ r' → readCell (writeCell r' c' v g) r c = readCell g r c.
Proof.
  intros Hr' Hne. unfold readCell, writeCell.
  destruct (0 <=? r) eqn:Hr; [|done]. destruct (0 <=? c); [|done]. simpl.
  rewrite list_lookup_alter_ne; [done|]. lia.
Qed.

Section ChartWrites.
Context (H W : nat).

Lemma is_grid_writeChars row col text w g :
  is_grid H W g → is_grid H W (MatrixASCIIChart.writeChars row col text w g).
Proof.
  revert col g. induction text as [|ch text IH]; intros col g Hg; simpl; [done|].
  apply IH. destruct (_ && _); [by apply is_grid_writeCell|done].
Qed.

Lemma is_grid_writeString g row col text :
  is_grid H W g → is_grid H W (MatrixASCIIChart.writeString g row col text).
Proof.
  intros Hg. unfold MatrixASCIIChart.writeString.
  destruct (_ && _); [by apply is_grid_writeChars|done].
Qed.

Lemma is_grid_forRange (f : Z → list (list string) → list (list string)) a b g :
  (∀ i g, is_grid H W g → is_grid H W (f i g)) → is_grid H W g → is_grid H W (forRange a b f g).
Proof.
  intros Hf Hg. unfold forRange. apply foldl_inv; [done|]. intros. by apply Hf.
Qed.

Lemma is_grid_copyGlyph old row col g :
  is_grid H W g → is_grid H W (MatrixASCIIChart.copyGlyph old row col g).
Proof.
  intros Hg. unfold MatrixASCIIChart.copyGlyph.
  destruct (readCell old row col); [|done].
  destruct (_ && _); [by apply is_grid_writeCell|done].
Qed.

Lemma is_grid_writeLabels cs index g :
  is_grid H W g → is_grid H W (MatrixASCIIChart.writeLabels cs index g).
Proof.
  revert index g. induction cs as [|c cs IH]; intros index g Hg; simpl; [done|].
  apply IH. destruct (0 <=? _); [by apply is_grid_writeString|done].
Qed.

Lemma is_grid_writeDot tw tr g c :
  is_grid H W g → is_grid H W (MatrixASCIIChart.writeDot tw tr g c).
Proof.
  intros Hg. unfold MatrixASCIIChart.writeDot.
  destruct (_ && _); [by apply is_grid_writeCell|done].
Qed.

End ChartWrites.

Lemma readCell_writeChars_row g r c row col text w :
  0 ≤ row → r ≠ row →
  readCell (MatrixASCIIChart.writeChars row col text w g) r c = readCell g r c.
Proof.
  intros Hrow Hne. revert col g.
  induction text as [|ch text IH]; intros col g; simpl; [done|].
  rewrite IH. destruct (_ && _); [by apply readCell_writeCell_row|done].
Qed.

Lemma readCell_writeChars_before g r c row col text w :
  0 ≤ row → c < col →
  readCell (MatrixASCIIChart.writeChars row col text w g) r c = readCell g r c.
Proof.
  intros Hrow. revert col g.
  induction text as [|ch text IH]; intros col g Hlt; simpl; [done|].
  rewrite IH by lia. destruct (0 <=? col) eqn:Hcol; simpl; [|done].
  destruct (col <? w); [|done].
  apply readCell_writeCell_ne; [lia|lia|]. intros [=]. lia.
Qed.

Lemma readCell_writeString_row g r c row col text :
  r ≠ row → readCell (MatrixASCIIChart.writeString g row col text) r c = readCell g r c.
Proof.
  intros Hne. unfold MatrixASCIIChart.writeString.
  destruct (0 <=? row) eqn:Hrow; simpl; [|done].
  destruct (bool_decide _); [|done].
  apply readCell_writeChars_row; [lia|done].
Qed.

Lemma readCell_writeString_before g r c row col text :
  c < col → readCell (MatrixASCIIChart.writeString g row col text) r c = readCell g r c.
Proof.
  intros Hlt. unfold MatrixASCIIChart.writeString.
  destruct (0 <=? row) eqn:Hrow; simpl; [|done].
  destruct (bool_decide _); [|done].
  apply readCell_writeChars_before; [lia|done].
Qed.

Lemma overlay_stages this :
  MatrixASCIIChart.overlay this =
  overlay_time (MatrixASCIIChart.matrix this) (overlay_labels this).
Proof. reflexivity. Qed.

Lemma is_grid_overlay_axes w h :
  is_grid (Z.to_nat (h + 3)) (Z.to_nat (w + 4 + 10)) (overlay_axes w h).
Proof.
  unfold overlay_axes. apply is_grid_forRange.
  { intros. by apply is_grid_writeCell. }
  do 2 apply is_grid_writeCell. apply is_grid_writeString, is_grid_create.
Qed.

Lemma is_grid_overlay_candles m :
  is_grid (Z.to_nat (height m + 3)) (Z.to_nat (width m + 4 + 10)) (overlay_candles m).
Proof.
  unfold overlay_candles. apply is_grid_forRange; [|apply is_grid_overlay_axes].
  intros row g Hg. apply is_grid_forRange; [|done].
  intros col g' Hg'. by apply is_grid_copyGlyph.
Qed.

Lemma is_grid_overlay_labels this :
  let m := MatrixASCIIChart.matrix this in
  is_grid (Z.to_nat (height m + 3)) (Z.to_nat (width m + 4 + 10)) (overlay_labels this).
Proof.
  unfold overlay_labels. simpl. destruct (MatrixASCIIChart.showLabels this).
  - apply is_grid_writeLabels, is_grid_overlay_candles.
  - apply is_grid_overlay_candles.
Qed.

Lemma is_grid_overlay_time H W m g :
  is_grid H W g → is_grid H W (overlay_time m g).
Proof.
  intros Hg. unfold overlay_time. apply is_grid_writeString, is_grid_writeCell.
  apply foldl_inv.
  - apply is_grid_forRange; [|done]. intros. by apply is_grid_writeCell.
  - intros. by apply is_grid_writeDot.
Qed.

(** The time axis leaves the rows above it alone. *)
Lemma overlay_time_rows m g r c :
  0 ≤ height m → r ≠ height m + 3 - 1 →
  readCell (overlay_time m g) r c = readCell g r c.
Proof.
  intros Hh Hr. unfold overlay_time.
  rewrite readCell_writeString_row by done.
  rewrite readCell_writeCell_row by lia.
  apply (foldl_inv _ (fun g' => readCell g' r c = readCell g r c)).
  - unfold forRange. apply (foldl_inv _ (fun g' => readCell g' r c = readCell g r c)); [done|].
    intros g' col _ Hkeep. rewrite readCell_writeCell_row; [done|lia|done].
  - intros g' pc _ Hkeep. unfold MatrixASCIIChart.writeDot.
    destruct (_ && _); [|done]. rewrite readCell_writeCell_row; [done|lia|done].
Qed.

(** Under the header rows and right of the axis the grid of the axes is
    blank. *)
Lemma overlay_axes_blank w h r c :
  2 ≤ r < h + 3 → 4 ≤ c < w + 14 →
  readCell (overlay_axes w h) r c = Some blank.
Proof.
  intros Hr Hc. unfold overlay_axes, forRange.
  apply (foldl_inv _ (fun g => readCell g r c = Some blank)).
  - rewrite !readCell_writeCell_row by lia.
    rewrite readCell_writeString_row by lia.
    apply readCell_create; lia.
  - intros g row [? ?]%elem_of_seqZ Hkeep.
    rewrite readCell_writeCell_ne; [done|lia|lia|]. intros [=]. lia.
Qed.

(** The glyphs of the session's grid, at their place in the chart. *)
Lemma overlay_candles_window m r c v :
  grid_ok m → readCell (data m) r c = Some v → glyph v →
  readCell (overlay_candles m) (r + 2) (c + 6) = Some v.
Proof.
  intros Hg Hv Hglyph. pose proof (grid_ok_in_canvas m r c v Hg Hv) as Hin.
  assert (0 ≤ r < height m ∧ 0 ≤ c < width m) as [Hr Hc].
  { unfold in_canvas in Hin. revert Hin. bool_cases; intros; try done; lia. }
  set (H := Z.to_nat (height m + 3)). set (W := Z.to_nat (width m + 4 + 10)).
  assert (∀ g, is_grid H W g → is_Some (readCell g (r + 2) (c + 6))) as Hsome.
  { intros g Hgrid. eapply is_grid_readCell; [done|lia|lia| |]; subst H W; lia. }
  assert (∀ row col g, readCell g (r + 2) (c + 6) = Some v →
            readCell (MatrixASCIIChart.copyGlyph (data m) row col g) (r + 2) (c + 6)
            = Some v) as Hkeep.
  { intros row col g Hcell. unfold MatrixASCIIChart.copyGlyph.
    destruct (readCell (data m) row col) as [v'|] eqn:Hv'; [|done].
    destruct (_ && _); [|done].
    destruct (readCell_Some_nonneg _ _ _ _ Hv') as [? ?].
    destruct (decide ((row, col) = (r, c))) as [Heq|Hne].
    - simplify_eq. apply readCell_writeCell_eq. by rewrite Hcell.
    - rewrite readCell_writeCell_ne; [done|lia|lia|]. intros [=]. apply Hne.
      f_equal; lia. }
  destruct (decide (v = blank)) as [->|Hink].
  - unfold overlay_candles, forRange.
    apply (foldl_inv _ (fun g => readCell g (r + 2) (c + 6) = Some blank)).
    + apply overlay_axes_blank; lia.
    + intros g row _ Hcell.
      apply (foldl_inv _ (fun g => readCell g (r + 2) (c + 6) = Some blank)); [done|].
      intros g' col _ Hcell'. by apply Hkeep.
  - unfold overlay_candles, forRange.
    apply (foldl_establish _ (is_grid H W)
             (fun g => readCell g (r + 2) (c + 6) = Some v) _ _ r).
    + apply elem_of_seqZ. lia.
    + apply is_grid_overlay_axes.
    + intros g row _ Hgrid. apply foldl_inv; [done|].
      intros. by apply is_grid_copyGlyph.
    + intros g Hgrid.
      apply (foldl_establish _ (is_grid H W)
               (fun g => readCell g (r + 2) (c + 6) = Some v) _ _ c).
      * apply elem_of_seqZ. lia.
      * done.
      * intros. by apply is_grid_copyGlyph.
      * intros g' Hgrid'. unfold MatrixASCIIChart.copyGlyph. rewrite Hv.
        rewrite !bool_decide_eq_false_2; [|done|].
        -- simpl. apply readCell_writeCell_eq. by apply Hsome.
        -- destruct Hglyph as [-> | [-> | [-> | ->]]]; done.
      * intros g' col _ _ Hcell. by apply Hkeep.
    + intros g row _ _ Hcell.
      apply (foldl_inv _ (fun g => readCell g (r + 2) (c + 6) = Some v)); [done|].
      intros g' col _ Hcell'. by apply Hkeep.
Qed.

(** X12 (the grid in the chart).  With the axes and without labels, the
    chart holds every cell of the session's grid two rows down and six
    columns to the right. *)
Theorem chart_holds_the_grid (this : MatrixASCIIChart.t) (r c : Z) :
  let m := MatrixASCIIChart.matrix this in
  reachable m → MatrixASCIIChart.showLabels this = false →
  in_canvas m r c = true →
  readCell (MatrixASCIIChart.overlay this) (r + 2) (c + 6) = readCell (data m) r c.
Proof.
  intros m Hr Hlabels Hin. pose proof (reachable_inv m Hr) as [(Hg & Hh & _) _].
  destruct (reachable_cells m r c Hr Hin) as (v & Hv & Hglyph).
  unfold defaultHeight in Hh.
  assert (0 ≤ r < height m) as Hrow.
  { unfold in_canvas in Hin. revert Hin. bool_cases; intros; try done; lia. }
  rewrite overlay_stages. fold m. rewrite overlay_time_rows by lia.
  unfold overlay_labels. fold m. rewrite Hlabels, Hv.
  by apply overlay_candles_window.
Qed.

Lemma chart_holds_the_grid_witness :
  readCell (MatrixASCIIChart.overlay (MatrixASCIIChart.mk session_bearish true false)) 4 9
  = Some bearishBody.
Proof.
  exact (chart_holds_the_grid (MatrixASCIIChart.mk session_bearish true false) 2 3
           (reachableBy_weaken _ _ reachable_session_bearish) eq_refl eq_refl).
Defined.

(** *** The lines *)

Lemma list_ascii_of_string_app s1 s2 :
  list_ascii_of_string (String.append s1 s2)
  = list_ascii_of_string s1 ++ list_ascii_of_string s2.
Proof. induction s1 as [|a s1 IH]; simpl; [done|]. by rewrite IH. Qed.

Lemma has_ink_concat (row : list string) v :
  v ∈ row → has_ink v → has_ink (String.concat EmptyString row).
Proof.
  intros Hv (a & Ha & Hspace). exists a. split; [|done].
  induction row as [|x row IH]; [by apply elem_of_nil in Hv|].
  apply elem_of_cons in Hv as [->|Hv].
  - destruct row; simpl; [done|].
    rewrite list_ascii_of_string_app. apply elem_of_app. by left.
  - destruct row as [|y row]; [by apply elem_of_nil in Hv|].
    change (String.concat EmptyString (x :: y :: row))
      with (String.append x (String.concat EmptyString (y :: row))).
    rewrite list_ascii_of_string_app. apply elem_of_app. right. by apply IH.
Qed.

Lemma dropSpaces_nil l :
  MatrixASCIIChart.dropSpaces l = [] → ∀ a, a ∈ l → MatrixASCIIChart.is_space a = true.
Proof.
  induction l as [|b l IH]; intros Hd a Ha; [by apply elem_of_nil in Ha|].
  simpl in Hd. destruct (MatrixASCIIChart.is_space b) eqn:Hb; [|done].
  apply elem_of_cons in Ha as [->|Ha]; [done|]. by apply IH.
Qed.

Lemma trimEnd_has_ink s : has_ink s → MatrixASCIIChart.trimEnd s ≠ EmptyString.
Proof.
  intros (a & Ha & Hspace) Htrim. unfold MatrixASCIIChart.trimEnd in Htrim.
  destruct (rev (MatrixASCIIChart.dropSpaces (rev (list_ascii_of_string s))))
    as [|b l] eqn:Hrev; [|done].
  apply (f_equal (@rev _)) in Hrev. rewrite rev_involutive in Hrev. simpl in Hrev.
  rewrite (dropSpaces_nil _ Hrev a) in Hspace; [done|].
  apply list_elem_of_In, in_rev. rewrite rev_involutive. by apply list_elem_of_In.
Qed.

(** No line is dropped when the last row has ink. *)
Lemma matrixToLines_all (g : list (list string)) (lastRow : list string) v :
  (2 ≤ length g)%nat → v ∈ lastRow → has_ink v →
  MatrixASCIIChart.matrixToLines (g ++ [lastRow])
  = imap MatrixASCIIChart.formatLine (g ++ [lastRow]).
Proof.
  intros Hlen Hv Hink. unfold MatrixASCIIChart.matrixToLines.
  rewrite imap_app. simpl. rewrite rev_unit. simpl.
  rewrite bool_decide_eq_false_2.
  - simpl. by rewrite rev_involutive.
  - rewrite Nat.add_0_r. destruct (length g) as [|[|n]]; [lia|lia|]. simpl.
    by apply trimEnd_has_ink, (has_ink_concat _ v).
Qed.

Lemma has_ink_arrow : has_ink "→".
Proof.
  exists (Ascii.ascii_of_nat 226). split; [|done]. simpl. left.
Qed.

(** The arrow of the time axis. *)
Lemma overlay_time_arrow H W m g :
  is_grid H W g → 0 ≤ height m → 0 ≤ width m →
  (Z.to_nat (height m + 2) < H)%nat → (Z.to_nat (width m + 4) < W)%nat →
  readCell (overlay_time m g) (height m + 3 - 1) (Z.min (width m + 4 + 10 - 10) 53)
  = Some "→"%string.
Proof.
  intros Hg Hh Hw HH HW. unfold overlay_time.
  rewrite readCell_writeString_before by lia.
  apply readCell_writeCell_eq.
  eapply (is_grid_readCell H W); [|lia|lia|lia|lia].
  apply foldl_inv.
  - apply is_grid_forRange; [|done]. intros. by apply is_grid_writeCell.
  - intros. by apply is_grid_writeDot.
Qed.

Lemma readCell_row_elem g r c v :
  readCell g r c = Some v → ∃ row, g !! Z.to_nat r = Some row ∧ v ∈ row.
Proof.
  unfold readCell. destruct (_ && _); [|done].
  destruct (g !! Z.to_nat r) as [row|]; [|done]. simpl. intros Hv.
  exists row. split; [done|]. by eapply list_elem_of_lookup_2.
Qed.

(** In the integer model the chart with axes has [height + 3] lines: the
    line " Price", the line of the arrow, and every further row of the
    composed grid without its trailing blanks. *)
Lemma int_chart_lines (this : MatrixASCIIChart.t) :
  let m := MatrixASCIIChart.matrix this in
  reachable m → MatrixASCIIChart.showAxes this = true →
  ∃ rest, MatrixASCIIChart.toLines this = " Price"%string :: "   ↑ "%string :: rest ∧
    length rest = Z.to_nat (height m + 1) ∧
    ∀ i line, rest !! i = Some line →
      ∃ row, MatrixASCIIChart.overlay this !! (i + 2)%nat = Some row ∧
             line = MatrixASCIIChart.trimEnd (String.concat EmptyString row).
Proof.
  intros m Hr Haxes. pose proof (reachable_inv m Hr) as [(Hg & Hh & Hw & _) _].
  unfold defaultHeight, defaultWidth in *.
  unfold MatrixASCIIChart.toLines. rewrite Haxes. cbn [negb].
  set (H := Z.to_nat (height m + 3)). set (W := Z.to_nat (width m + 4 + 10)).
  assert (is_grid H W (MatrixASCIIChart.overlay this)) as Hgrid.
  { rewrite overlay_stages. apply is_grid_overlay_time, is_grid_overlay_labels. }
  assert (readCell (MatrixASCIIChart.overlay this) (height m + 3 - 1)
            (Z.min (width m + 4 + 10 - 10) 53) = Some "→"%string) as Harrow.
  { rewrite overlay_stages.
    apply (overlay_time_arrow H W); [apply is_grid_overlay_labels|lia|lia|..];
      subst H W; fold m; lia. }
  destruct (readCell_row_elem _ _ _ _ Harrow) as (lastRow & Hlast & Helem).
  destruct Hgrid as [Hlen _].
  assert (MatrixASCIIChart.overlay this
          = take (Z.to_nat (height m + 2)) (MatrixASCIIChart.overlay this) ++ [lastRow])
    as Hsplit.
  { rewrite <- (take_drop (Z.to_nat (height m + 2)) (MatrixASCIIChart.overlay this)) at 1.
    f_equal. replace (Z.to_nat (height m + 3 - 1)) with (Z.to_nat (height m + 2)) in Hlast
      by lia.
    rewrite (drop_S _ _ _ Hlast). rewrite drop_ge; [done|]. subst H. lia. }
  assert (MatrixASCIIChart.matrixToLines (MatrixASCIIChart.overlay this)
          = imap MatrixASCIIChart.formatLine (MatrixASCIIChart.overlay this)) as ->.
  { rewrite Hsplit. apply (matrixToLines_all _ lastRow "→"%string);
      [rewrite length_take; subst H; lia | done | apply has_ink_arrow]. }
  destruct (MatrixASCIIChart.overlay this) as [|r0 [|r1 g]] eqn:Hov;
    [simpl in Hlen; subst H; lia | simpl in Hlen; subst H; lia |].
  eexists. split; [reflexivity|]. split.
  - rewrite length_imap. simpl in Hlen. subst H. lia.
  - intros i line Hline. rewrite list_lookup_imap in Hline.
    replace (i + 2)%nat with (S (S i)) by lia. simpl.
    destruct (g !! i) as [row|]; [|done]. simpl in Hline. simplify_eq.
    exists row. done.
Qed.

(** *** The time axis *)

Lemma readCell_writeChars_after g r c row col text w :
  0 ≤ row → col + Z.of_nat (length text) ≤ c →
  readCell (MatrixASCIIChart.writeChars row col text w g) r c = readCell g r c.
Proof.
  intros Hrow. revert col g.
  induction text as [|ch text IH]; intros col g Hle; simpl in *; [done|].
  rewrite IH by lia. destruct (0 <=? col) eqn:Hcol; simpl; [|done].
  destruct (col <? w); [|done].
  apply readCell_writeCell_ne; [lia|lia|]. intros [=]. lia.
Qed.

Lemma writeString_unfold H W g row col text :
  is_grid H W g → 0 ≤ row → (Z.to_nat row < H)%nat →
  MatrixASCIIChart.writeString g row col text
  = MatrixASCIIChart.writeChars row col (MatrixASCIIChart.chars text) (Z.of_nat W) g.
Proof.
  intros [Hlen Hall] Hrow Hlt. unfold MatrixASCIIChart.writeString.
  replace (0 <=? row) with true by lia.
  rewrite bool_decide_eq_true_2 by (apply lookup_lt_is_Some_2; lia). simpl.
  destruct g as [|r0 g]; [simpl in Hlen; lia|]. simpl.
  apply Forall_cons in Hall as [-> _]. done.
Qed.

(** The cell of the time axis under a candle, once the dots are set. *)
Lemma overlay_dots H W m g pc :
  is_grid H W g → pc ∈ candles m →
  0 ≤ height m → (Z.to_nat (height m + 2) < H)%nat →
  0 ≤ column pc + 6 < width m + 4 → (Z.to_nat (width m + 4) < W)%nat →
  let g1 := forRange 4 (width m + 4 + 10 - 10)
              (fun col => writeCell (height m + 3 - 1) col "_") g in
  let g2 := foldl (MatrixASCIIChart.writeDot (width m + 4 + 10) (height m + 3 - 1))
              g1 (candles m) in
  is_grid H W g2 ∧ readCell g2 (height m + 3 - 1) (column pc + 6) = Some "."%string.
Proof.
  intros Hg Hpc Hh HH Hcol HW g1 g2.
  assert (is_grid H W g1) as Hg1.
  { apply is_grid_forRange; [|done]. intros. by apply is_grid_writeCell. }
  split.
  { apply foldl_inv; [done|]. intros. by apply is_grid_writeDot. }
  assert (∀ g', is_grid H W g' →
            is_Some (readCell g' (height m + 3 - 1) (column pc + 6))) as Hsome.
  { intros g' Hg'. eapply is_grid_readCell; [done|lia|lia|lia|lia]. }
  apply (foldl_establish _ (is_grid H W)
           (fun g' => readCell g' (height m + 3 - 1) (column pc + 6) = Some "."%string)
           _ _ pc); [done|done|..].
  - intros. by apply is_grid_writeDot.
  - intros g' Hg'. unfold MatrixASCIIChart.writeDot.
    replace (0 <=? column pc + 6) with true by lia.
    replace (column pc + 6 <? width m + 4 + 10 - 10) with true by lia. simpl.
    by apply readCell_writeCell_eq, Hsome.
  - intros g' pc' _ Hg' Hcell. unfold MatrixASCIIChart.writeDot.
    destruct (0 <=? column pc' + 6) eqn:H0; simpl; [|done].
    destruct (column pc' + 6 <? _); [|done].
    destruct (decide (column pc' + 6 = column pc + 6)) as [->|Hne].
    + by apply readCell_writeCell_eq, Hsome.
    + rewrite readCell_writeCell_ne; [done|lia|lia|]. intros [=]. lia.
Qed.

(** In the integer model the time axis has a dot under every candle, the
    ninth excepted. *)
Lemma int_time_axis_dots (this : MatrixASCIIChart.t) (i : nat) (pc : PositionedCandle) :
  let m := MatrixASCIIChart.matrix this in
  proper m → candles m !! i = Some pc →
  readCell (MatrixASCIIChart.overlay this) (height m + 2) (column pc + 6)
  = Some (if decide (i = 8%nat) then "m" else ".")%string.
Proof.
  intros m Hp Hpc. pose proof (proper_reachable m Hp) as Hr.
  pose proof (reachable_inv m Hr) as [(Hg & Hh & Hw & _) Hcols].
  pose proof (proper_width m Hp) as Hroom.
  pose proof (lookup_lt_Some _ _ _ Hpc) as Hi.
  pose proof (Hcols i pc Hpc) as Hcol. unfold columnOf in Hcol.
  unfold defaultHeight, defaultWidth in *.
  set (H := Z.to_nat (height m + 3)). set (W := Z.to_nat (width m + 4 + 10)).
  rewrite overlay_stages. fold m.
  pose proof (is_grid_overlay_labels this) as Hgrid. simpl in Hgrid. fold m H W in Hgrid.
  destruct (overlay_dots H W m (overlay_labels this) pc Hgrid) as [Hg2 Hdot].
  { by eapply list_elem_of_lookup_2. } { lia. } { subst H. lia. } { lia. } { subst W. lia. }
  unfold overlay_time.
  set (g2 := foldl _ _ (candles m)) in *.
  set (ac := Z.min (width m + 4 + 10 - 10) 53).
  replace (height m + 2) with (height m + 3 - 1) by lia.
  assert (is_grid H W (writeCell (height m + 3 - 1) ac "→" g2)) as Hg3
    by by apply is_grid_writeCell.
  rewrite (writeString_unfold H W) by (done || subst H; lia).
  destruct (decide (i = 8%nat)) as [->|Hne].
  - assert (ac = 53) as -> by (subst ac; lia).
    replace (column pc + 6) with 57 by lia.
    change (MatrixASCIIChart.chars "Time") with ["T"; "i"; "m"; "e"]%string.
    cbn [MatrixASCIIChart.writeChars].
    replace (Z.of_nat W) with (width m + 14) by (subst W; lia).
    replace ((0 <=? 53 + 2) && (53 + 2 <? width m + 14)) with true by lia.
    replace ((0 <=? 53 + 2 + 1) && (53 + 2 + 1 <? width m + 14)) with true by lia.
    replace ((0 <=? 53 + 2 + 1 + 1) && (53 + 2 + 1 + 1 <? width m + 14)) with true by lia.
    replace ((0 <=? 53 + 2 + 1 + 1 + 1) && (53 + 2 + 1 + 1 + 1 <? width m + 14))
      with true by lia.
    rewrite readCell_writeCell_ne; [|lia|lia|intros [=]; lia].
    apply readCell_writeCell_eq.
    eapply (is_grid_readCell H W); [|lia|lia|subst H; lia|subst W; lia].
    by do 2 apply is_grid_writeCell.
  - assert (column pc + 6 < ac + 2 ∨ ac + 2 + 4 ≤ column pc + 6) as [Hlt|Hge]
      by (subst ac; lia).
    + rewrite readCell_writeChars_before by lia.
      rewrite readCell_writeCell_ne; [done|lia|subst ac; lia|].
      intros [=]. subst ac. lia.
    + rewrite readCell_writeChars_after by (simpl; lia).
      rewrite readCell_writeCell_ne; [done|lia|subst ac; lia|].
      intros [=]. subst ac. lia.
Qed.

(** *** The labels *)

(** Between the candles the grid is blank. *)
Lemma redrawFrom_gap n : ∀ k m m',
  session_ok m → redrawFrom (seq k n) (columnOf k) m = Some m' →
  ∀ r col, in_canvas m r col = true →
    (∀ i, (k ≤ i < k + n)%nat → ¬ (columnOf i - 1 ≤ col ≤ columnOf i + 1)) →
    readCell (data m') r col = readCell (data m) r col.
Proof.
  induction n as [|n IH]; intros k m m' Hok Hre r col Hin Hgap.
  - simpl in Hre. by simplify_eq.
  - destruct (redrawFrom_step k n _ m m' Hok Hre)
      as (ck & h & o & cl & l & m2 & _ & _ & _ & _ & _ & Hok2 & Hw2 & Hh2 & _ & _ & _
          & Hcells2 & Hre2).
    rewrite <- columnOf_S in Hre2.
    rewrite (IH (S k) m2 m' Hok2 Hre2).
    + rewrite Hcells2 by done. unfold drawnCell. simpl.
      pose proof (Hgap k ltac:(lia)). bool_cases; done.
    + unfold in_canvas in *. by rewrite Hw2, Hh2.
    + intros i Hi. apply Hgap. lia.
Qed.

Lemma session_gap_blank m r col :
  reachable m → in_canvas m r col = true →
  (∀ i, (i < length (candles m))%nat → ¬ (columnOf i - 1 ≤ col ≤ columnOf i + 1)) →
  readCell (data m) r col = Some blank.
Proof.
  intros Hr Hin Hgap.
  destruct (reachable_redrawn m Hr) as [->|(pre & Hre & Hh & Hw & Hs)].
  - unfold in_canvas in Hin. simpl in Hin.
    apply (readCell_create defaultWidth defaultHeight); revert Hin;
      bool_cases; intros; try done; lia.
  - destruct (redrawAllCandles_spec pre Hh Hw Hs)
      as (m' & Hre' & _ & Hw' & Hh' & _ & _ & Hcs' & _).
    rewrite Hre in Hre'. simplify_eq.
    unfold redrawAllCandles in Hre.
    set (m0 := set_data (createEmptyMatrix (width pre) (height pre)) pre) in *.
    assert (session_ok m0) as Hok0.
    { unfold defaultHeight, defaultWidth in *.
      split; [|done]. split; [simpl; lia|]. split; [simpl; lia|].
      simpl. apply is_grid_create. }
    assert (in_canvas m0 r col = true) as Hin0.
    { unfold in_canvas in *. simpl. by rewrite <- Hw', <- Hh'. }
    rewrite (redrawFrom_gap _ 0%nat m0 m' Hok0 Hre r col Hin0).
    + simpl. unfold in_canvas in Hin0. simpl in Hin0.
      apply readCell_create; revert Hin0; bool_cases; intros; try done; lia.
    + intros i Hi. apply Hgap. rewrite Hcs'. unfold recolumned.
      rewrite length_imap. simpl in Hi. lia.
Qed.

(** The row above the one [findCandleTop] returns is free in the column. *)
Lemma findTopFrom_above rows : ∀ row0 col t,
  MatrixASCIIChart.findTopFrom rows row0 col = Some t →
  row0 ≤ t ∧
  ∀ k, (Z.to_nat (t - row0) = S k) →
       ∃ matrixRow, rows !! k = Some matrixRow ∧
                    MatrixASCIIChart.occupied matrixRow col = false.
Proof.
  induction rows as [|x rows IH]; intros row0 col t Hfind; simpl in Hfind; [done|].
  destruct (MatrixASCIIChart.occupied x col) eqn:Hocc.
  - simplify_eq. split; [lia|]. intros k Hk. lia.
  - destruct (IH _ _ _ Hfind) as [Hle Habove]. split; [lia|].
    intros k Hk. destruct k as [|k].
    + exists x. done.
    + simpl. apply Habove. lia.
Qed.

Lemma findCandleTop_above H W g col :
  is_grid H W g → 0 ≤ col → (Z.to_nat col < W)%nat →
  1 ≤ MatrixASCIIChart.findCandleTop g col →
  readCell g (MatrixASCIIChart.findCandleTop g col - 1) col = Some blank.
Proof.
  intros [Hlen Hall] Hcol HW. unfold MatrixASCIIChart.findCandleTop.
  destruct (MatrixASCIIChart.findTopFrom g 0 col) as [t|] eqn:Hfind; [|simpl; lia].
  simpl. intros Ht. destruct (findTopFrom_above g 0 col t Hfind) as [_ Habove].
  destruct (Habove (Z.to_nat (t - 1)) ltac:(lia)) as (matrixRow & Hrow & Hocc).
  unfold readCell. replace (0 <=? t - 1) with true by lia.
  replace (0 <=? col) with true by lia. simpl. rewrite Hrow. simpl.
  rewrite Forall_lookup in Hall. pose proof (Hall _ _ Hrow) as Hlenrow.
  unfold MatrixASCIIChart.occupied in Hocc.
  replace (col <? Z.of_nat (length matrixRow)) with true in Hocc by lia.
  replace (0 <=? col) with true in Hocc by lia. simpl in Hocc.
  destruct (matrixRow !! Z.to_nat col) as [v|]; [|done].
  apply negb_false_iff, bool_decide_eq_true in Hocc. by subst.
Qed.

(** The length of a label. *)
Lemma pretty_N_go_length k : ∀ x s,
  (x < 10 ^ N.of_nat k)%N →
  (String.length (pretty_N_go x s) ≤ k + String.length s)%nat.
Proof.
  induction k as [|k IH]; intros x s Hx.
  - assert (x = 0%N) as -> by (simpl in Hx; lia). rewrite pretty_N_go_0. lia.
  - destruct (decide (x = 0%N)) as [->|Hne]; [rewrite pretty_N_go_0; lia|].
    rewrite pretty_N_go_step by lia.
    etrans; [apply IH|simpl; lia].
    rewrite Nat2N.inj_succ, N.pow_succ_r' in Hx.
    apply N.Div0.div_lt_upper_bound. lia.
Qed.

Lemma length_chars s : length (MatrixASCIIChart.chars s) = String.length s.
Proof.
  unfold MatrixASCIIChart.chars. rewrite length_fmap.
  induction s as [|a s IH]; simpl; [done|]. by rewrite IH.
Qed.

Lemma label_length index :
  Z.of_nat index < 99999 →
  (length (MatrixASCIIChart.chars (MatrixASCIIChart.label index)) ≤ 6)%nat.
Proof.
  intros Hi. rewrite length_chars. unfold MatrixASCIIChart.label. simpl.
  unfold pretty, pretty_nat, pretty, pretty_N.
  destruct (decide (N.of_nat (index + 1) = 0%N)); [lia|].
  pose proof (pretty_N_go_length 5 (N.of_nat (index + 1)) "") as Hlen.
  change (10 ^ N.of_nat 5)%N with 100000%N in Hlen.
  change (String.length "") with 0%nat in Hlen.
  specialize (Hlen ltac:(lia)).
  change ("" +:+ pretty_N_go (N.of_nat (index + 1)) "")
    with (pretty_N_go (N.of_nat (index + 1)) ""). lia.
Qed.

Lemma readCell_writeString_after g r c row col text :
  col + Z.of_nat (length (MatrixASCIIChart.chars text)) ≤ c →
  readCell (MatrixASCIIChart.writeString g row col text) r c = readCell g r c.
Proof.
  intros Hle. unfold MatrixASCIIChart.writeString.
  destruct (0 <=? row) eqn:Hrow; simpl; [|done].
  destruct (bool_decide _); [|done].
  apply readCell_writeChars_after; [lia|done].
Qed.

(** The labels leave the glyphs of the candles alone. *)
Lemma writeLabels_spare m H W : ∀ cs pre g,
  proper m → candles m = pre ++ cs → Z.of_nat (length (candles m)) < 100000 →
  H = Z.to_nat (height m + 3) → W = Z.to_nat (width m + 4 + 10) →
  is_grid H W g →
  (∀ R C, columnOf (length pre) + 5 ≤ C →
          readCell g R C = readCell (overlay_candles m) R C) →
  (∀ r c v, readCell (data m) r c = Some v → v ≠ blank →
            readCell g (r + 2) (c + 6) = Some v) →
  ∀ r c v, readCell (data m) r c = Some v → v ≠ blank →
           readCell (MatrixASCIIChart.writeLabels cs (length pre) g) (r + 2) (c + 6)
           = Some v.
Proof.
  induction cs as [|pc cs IH]; intros pre g Hp Hcs Hn HH HW Hg Hright Hkeep; [done|].
  pose proof (proper_reachable m Hp) as Hr.
  pose proof (reachable_inv m Hr) as [(Hgm & Hh & Hw & _) Hcols].
  unfold defaultHeight, defaultWidth in *.
  assert (candles m !! length pre = Some pc) as Hpc.
  { rewrite Hcs. by rewrite list_lookup_middle. }
  pose proof (Hcols _ _ Hpc) as Hcol.
  pose proof (proper_room m _ _ Hp Hpc) as [Hroom1 Hroom2].
  pose proof (lookup_lt_Some _ _ _ Hpc) as Hi.
  cbn [MatrixASCIIChart.writeLabels]. rewrite Hcol.
  set (i := length pre) in *.
  set (t := MatrixASCIIChart.findCandleTop g (columnOf i + 6)).
  set (g' := if 0 <=? t - 1
             then MatrixASCIIChart.writeString g (t - 1) (columnOf i + 6 - 1)
                    (MatrixASCIIChart.label i)
             else g).
  pose proof (label_length i ltac:(lia)) as Hlabel.
  replace (S i) with (length (pre ++ [pc])) by (rewrite length_app; simpl; lia).
  apply IH; try done.
  - by rewrite <- app_assoc.
  - subst g'. destruct (0 <=? t - 1); [by apply is_grid_writeString|done].
  - intros R C HC. rewrite length_app in HC. simpl in HC.
    replace (length pre + 1)%nat with (S i) in HC by lia. rewrite columnOf_S in HC.
    subst g'. destruct (0 <=? t - 1).
    + rewrite readCell_writeString_after by lia. apply Hright. lia.
    + apply Hright. lia.
  - intros r c v Hv Hink. subst g'. destruct (0 <=? t - 1) eqn:Ht; [|by apply Hkeep].
    apply Z.leb_le in Ht.
    destruct (decide (r + 2 = t - 1)) as [Hrow|Hrow];
      [|rewrite readCell_writeString_row by done; by apply Hkeep].
    destruct (decide (c + 6 < columnOf i + 6 - 1)) as [Hbefore|Hbefore];
      [rewrite readCell_writeString_before by done; by apply Hkeep|].
    destruct (decide (columnOf i + 6 - 1
                      + Z.of_nat (length (MatrixASCIIChart.chars (MatrixASCIIChart.label i)))
                      ≤ c + 6)) as [Hafter|Hafter];
      [rewrite readCell_writeString_after by done; by apply Hkeep|].
    exfalso. apply Hink.
    pose proof (grid_ok_in_canvas m r c v Hgm Hv) as Hin.
    assert (0 ≤ r < height m ∧ 0 ≤ c < width m) as [Hr1 Hc1].
    { unfold in_canvas in Hin. revert Hin. bool_cases; intros; try done; lia. }
    (* the centre of the candle is blank in row [r] *)
    assert (readCell (data m) r (columnOf i) = Some blank) as Hcentre.
    { assert (in_canvas m r (columnOf i) = true) as Hin'.
      { unfold in_canvas, columnOf in *. bool_cases; done. }
      destruct (reachable_cells m r (columnOf i) Hr Hin') as (v0 & Hv0 & Hglyph0).
      rewrite Hv0. f_equal.
      pose proof (overlay_candles_window m r (columnOf i) v0 Hgm Hv0 Hglyph0) as Hwin.
      rewrite <- Hright in Hwin by lia.
      replace (r + 2) with (t - 1) in Hwin by lia.
      assert (readCell g (t - 1) (columnOf i + 6) = Some blank) as Habove.
      { apply (findCandleTop_above H W); [done| | |fold t; lia];
          subst W; unfold columnOf in *; lia. }
      rewrite Habove in Hwin. by simplify_eq. }
    destruct (decide (c = columnOf i)) as [->|Hside]; [by simplify_eq|].
    destruct (decide (columnOf i - 1 ≤ c ≤ columnOf i + 1)) as [Hstrip|Hgap].
    + destruct (session_shows_candle m i pc Hr Hpc)
        as (h & o & cl & l & _ & _ & _ & _ & Hcells & _).
      rewrite Hcol in Hcells.
      rewrite Hcells in Hv by (done || lia).
      rewrite Hcells in Hcentre; [|unfold in_canvas, columnOf in *; bool_cases; done|lia].
      revert Hv Hcentre. unfold drawnCell. rewrite Hcol.
      pose proof (bodySymbolOf_not_wick pc).
      assert (bodySymbolOf pc ≠ blank).
      { unfold bodySymbolOf. by destruct (decide (type pc = bullish)). }
      bool_cases; intros; simplify_eq; done.
    + assert (readCell (data m) r c = Some blank) as Hblank; [|by simplify_eq].
      apply session_gap_blank; [done|done|].
      intros j Hj. unfold columnOf in *. lia.
Qed.

(** X15 (labels and candles).  In a session that starts with its first
    candle and holds fewer than 100000 candles, every glyph of the grid
    that is not blank is in the chart, two rows down and six columns to the
    right, with or without the labels: no label is written over a candle. *)
Theorem labels_spare_the_candles (this : MatrixASCIIChart.t) (r c : Z) (v : string) :
  let m := MatrixASCIIChart.matrix this in
  proper m → Z.of_nat (length (candles m)) < 100000 →
  readCell (data m) r c = Some v → v ≠ blank →
  readCell (MatrixASCIIChart.overlay this) (r + 2) (c + 6) = Some v.
Proof.
  intros m Hp Hn Hv Hink. pose proof (proper_reachable m Hp) as Hr.
  pose proof (reachable_inv m Hr) as [(Hg & Hh & _) _].
  pose proof (grid_ok_in_canvas m r c v Hg Hv) as Hin.
  destruct (reachable_cells m r c Hr Hin) as (v' & Hv' & Hglyph).
  assert (v' = v) as -> by congruence.
  unfold defaultHeight in Hh.
  assert (0 ≤ r < height m) as Hrow.
  { unfold in_canvas in Hin. revert Hin. bool_cases; intros; try done; lia. }
  rewrite overlay_stages. fold m. rewrite overlay_time_rows by lia.
  unfold overlay_labels. fold m.
  destruct (MatrixASCIIChart.showLabels this); [|by apply overlay_candles_window].
  apply (writeLabels_spare m (Z.to_nat (height m + 3)) (Z.to_nat (width m + 4 + 10))
           (candles m) []); try done.
  - apply is_grid_overlay_candles.
  - intros r0 c0 v0 Hv0 _.
    destruct (reachable_cells m r0 c0 Hr (grid_ok_in_canvas m r0 c0 v0 Hg Hv0))
      as (v1 & Hv1 & Hglyph1).
    assert (v1 = v0) as -> by congruence.
    by apply overlay_candles_window.
Qed.

Lemma labels_spare_the_candles_witness :
  readCell (MatrixASCIIChart.overlay (MatrixASCIIChart.mk session_bearish true true)) 4 9
  = Some bearishBody.
Proof.
  refine (labels_spare_the_candles (MatrixASCIIChart.mk session_bearish true true) 2 3
            bearishBody proper_session_bearish _ eq_refl _).
  - reflexivity.
  - discriminate.
Defined.

(** [findCandleTop] returns the first row of the column that is not blank. *)
Lemma findTopFrom_finds rows : ∀ row0 col t,
  0 ≤ col → Forall (fun matrixRow => col < Z.of_nat (length matrixRow)) rows →
  row0 ≤ t →
  (∀ k, row0 + Z.of_nat k < t →
        ∃ matrixRow, rows !! k = Some matrixRow ∧
                     matrixRow !! Z.to_nat col = Some blank) →
  (∃ matrixRow v, rows !! Z.to_nat (t - row0) = Some matrixRow ∧
                  matrixRow !! Z.to_nat col = Some v ∧ v ≠ blank) →
  MatrixASCIIChart.findTopFrom rows row0 col = Some t.
Proof.
  induction rows as [|x rows IH]; intros row0 col t Hcol Hall Ht Hblank Hink.
  - by destruct Hink as (matrixRow & v & Hrow & _).
  - apply Forall_cons in Hall as [Hx Hall]. simpl.
    unfold MatrixASCIIChart.occupied at 1.
    replace (col <? Z.of_nat (length x)) with true by lia.
    replace (0 <=? col) with true by lia. simpl.
    destruct (decide (t = row0)) as [->|Hne].
    + destruct Hink as (matrixRow & v & Hrow & Hv & Hne).
      replace (Z.to_nat (row0 - row0)) with 0%nat in Hrow by lia.
      simpl in Hrow. simplify_eq. rewrite Hv.
      by rewrite bool_decide_eq_false_2.
    + destruct (Hblank 0%nat ltac:(lia)) as (matrixRow & Hrow & Hv).
      simpl in Hrow. simplify_eq. rewrite Hv. simpl.
      apply IH; [done|done|lia| |].
      * intros k Hk. apply (Hblank (S k)). lia.
      * destruct Hink as (inked & v & Hrow & Hv' & Hne').
        exists inked, v. split; [|done].
        replace (Z.to_nat (t - row0)) with (S (Z.to_nat (t - (row0 + 1)))) in Hrow by lia.
        done.
Qed.

Lemma findCandleTop_finds H W g col t v :
  is_grid H W g → 0 ≤ col → (Z.to_nat col < W)%nat → 0 ≤ t →
  (∀ R, 0 ≤ R < t → readCell g R col = Some blank) →
  readCell g t col = Some v → v ≠ blank →
  MatrixASCIIChart.findCandleTop g col = t.
Proof.
  intros [Hlen Hall] Hcol HW Ht Hblank Hv Hink. unfold MatrixASCIIChart.findCandleTop.
  rewrite (findTopFrom_finds g 0 col t); [done|done| |done| |].
  - eapply Forall_impl; [done|]. simpl. intros x ->. lia.
  - intros k Hk. specialize (Hblank (Z.of_nat k) ltac:(lia)).
    unfold readCell in Hblank.
    replace (0 <=? Z.of_nat k) with true in Hblank by lia.
    replace (0 <=? col) with true in Hblank by lia. simpl in Hblank.
    rewrite Nat2Z.id in Hblank.
    destruct (g !! k) as [matrixRow|]; [|done]. by exists matrixRow.
  - unfold readCell in Hv.
    replace (0 <=? t) with true in Hv by lia.
    replace (0 <=? col) with true in Hv by lia. simpl in Hv.
    rewrite Z.sub_0_r.
    destruct (g !! Z.to_nat t) as [matrixRow|]; [|done]. by exists matrixRow, v.
Qed.

(** The characters of a text that fits its row, once written. *)
Lemma readCell_writeChars_at H W row : ∀ text col g k a,
  is_grid H W g → 0 ≤ row → (Z.to_nat row < H)%nat →
  0 ≤ col → col + Z.of_nat (length text) ≤ Z.of_nat W →
  text !! k = Some a →
  readCell (MatrixASCIIChart.writeChars row col text (Z.of_nat W) g) row
    (col + Z.of_nat k) = Some a.
Proof.
  induction text as [|ch text IH]; intros col g k a Hg Hrow HH Hcol Hfit Hk; [done|].
  simpl in Hfit. cbn [MatrixASCIIChart.writeChars].
  replace ((0 <=? col) && (col <? Z.of_nat W)) with true by lia.
  destruct k as [|k]; simpl in Hk.
  - simplify_eq. rewrite Z.add_0_r.
    rewrite readCell_writeChars_before by lia.
    apply readCell_writeCell_eq. eapply is_grid_readCell; [done|lia|lia|lia|lia].
  - replace (col + Z.of_nat (S k)) with (col + 1 + Z.of_nat k) by lia.
    apply IH; [by apply is_grid_writeCell|lia|lia|lia|lia|done].
Qed.

(** The labels that come later are written further to the right. *)
Lemma writeLabels_left R C : ∀ cs index g,
  Forall (fun pc => C < column pc + 6 - 1) cs →
  readCell (MatrixASCIIChart.writeLabels cs index g) R C = readCell g R C.
Proof.
  induction cs as [|pc cs IH]; intros index g Hall; [done|].
  apply Forall_cons in Hall as [Hpc Hall].
  cbn [MatrixASCIIChart.writeLabels]. rewrite IH by done.
  destruct (0 <=? _); [|done]. by apply readCell_writeString_before.
Qed.

(** Above the grid, right of the axis, the chart is blank before the labels. *)
Lemma overlay_candles_top m R C :
  0 ≤ height m → 0 ≤ R < 2 → 6 ≤ C < width m + 14 →
  readCell (overlay_candles m) R C = Some blank.
Proof.
  intros Hh HR HC. unfold overlay_candles, forRange.
  apply (foldl_inv _ (fun g => readCell g R C = Some blank)).
  - unfold overlay_axes, forRange.
    apply (foldl_inv _ (fun g => readCell g R C = Some blank)).
    + rewrite !readCell_writeCell_ne by (lia || (intros [=]; lia)).
      rewrite readCell_writeString_after by (simpl; lia).
      apply readCell_create; lia.
    + intros g row Hrow%elem_of_seqZ Hcell.
      rewrite readCell_writeCell_row by lia. done.
  - intros g row Hrow%elem_of_seqZ Hcell.
    apply (foldl_inv _ (fun g => readCell g R C = Some blank)); [done|].
    intros g' col _ Hcell'. unfold MatrixASCIIChart.copyGlyph.
    destruct (readCell (data m) row col); [|done].
    destruct (_ && _); [|done]. rewrite readCell_writeCell_row by lia. done.
Qed.

(** Where each label is written. *)
Lemma writeLabels_places m H W : ∀ cs pre g,
  proper m → candles m = pre ++ cs → Z.of_nat (length (candles m)) < 100000 →
  H = Z.to_nat (height m + 3) → W = Z.to_nat (width m + 4 + 10) →
  is_grid H W g →
  (∀ R C, columnOf (length pre) + 5 ≤ C →
          readCell g R C = readCell (overlay_candles m) R C) →
  ∀ j pc h o cl k a,
    (length pre ≤ j)%nat → candles m !! j = Some pc →
    priceToRow m (highPrice pc) = Some h → priceToRow m (openPrice pc) = Some o →
    priceToRow m (closePrice pc) = Some cl →
    MatrixASCIIChart.chars (MatrixASCIIChart.label j) !! k = Some a →
    readCell (MatrixASCIIChart.writeLabels cs (length pre) g)
      (Z.min h (Z.min o cl) + 1) (columnOf j + 5 + Z.of_nat k) = Some a.
Proof.
  induction cs as [|pc0 cs IH];
    intros pre g Hp Hcs Hn HH HW Hg Hright j pc h o cl k a Hj Hpc Hhigh Hopen Hclose Hk.
  { apply lookup_lt_Some in Hpc. rewrite Hcs, length_app in Hpc. simpl in Hpc. lia. }
  pose proof (proper_reachable m Hp) as Hr.
  pose proof (reachable_inv m Hr) as [Hok Hcols].
  pose proof Hok as (Hgm & Hh & Hw & _). unfold defaultHeight, defaultWidth in *.
  assert (candles m !! length pre = Some pc0) as Hpc0.
  { rewrite Hcs. by rewrite list_lookup_middle. }
  pose proof (Hcols _ _ Hpc0) as Hcol0.
  cbn [MatrixASCIIChart.writeLabels]. rewrite Hcol0.
  set (i := length pre) in *.
  set (t := MatrixASCIIChart.findCandleTop g (columnOf i + 6)).
  set (g' := if 0 <=? t - 1
             then MatrixASCIIChart.writeString g (t - 1) (columnOf i + 6 - 1)
                    (MatrixASCIIChart.label i)
             else g).
  pose proof (lookup_lt_Some _ _ _ Hpc0) as Hi.
  pose proof (label_length i ltac:(lia)) as Hlabel.
  assert (is_grid H W g') as Hg'.
  { subst g'. destruct (0 <=? t - 1); [by apply is_grid_writeString|done]. }
  destruct (decide (j = i)) as [->|Hne].
  - (* the label of this candle *)
    assert (pc0 = pc) as -> by congruence.
    pose proof (lookup_lt_Some _ _ _ Hk) as Hklt.
    rewrite writeLabels_left.
    2:{ apply Forall_forall. intros pc' Hpc'.
        apply list_elem_of_lookup_1 in Hpc' as [p Hp'].
        assert (candles m !! (S i + p)%nat = Some pc') as Hp''.
        { rewrite Hcs. subst i.
          replace (S (length pre) + p)%nat with (length pre + S p)%nat by lia.
          rewrite lookup_app_r by lia.
          by replace (length pre + S p - length pre)%nat with (S p) by lia. }
        rewrite (Hcols _ _ Hp''). unfold columnOf. lia. }
    destruct (session_shows_candle m i pc Hr Hpc0)
      as (h' & o' & cl' & l & Hhigh' & Hopen' & Hclose' & Hlow & Hcells & _).
    assert (h' = h) as -> by congruence. assert (o' = o) as -> by congruence.
    assert (cl' = cl) as -> by congruence.
    pose proof (priceToRow_on_canvas m _ _ Hok Hhigh) as Hh1.
    pose proof (priceToRow_on_canvas m _ _ Hok Hopen) as Ho1.
    pose proof (priceToRow_on_canvas m _ _ Hok Hclose) as Hcl1.
    pose proof (proper_room m _ _ Hp Hpc0) as [Hroom1 Hroom2]. rewrite Hcol0 in *.
    set (top := Z.min h (Z.min o cl)) in *.
    assert (∀ r, 0 ≤ r < height m →
              readCell g (r + 2) (columnOf i + 6)
              = drawnCell pc h o cl l r (columnOf i) (Some blank)) as Hcentre.
    { intros r Hrow. rewrite Hright by lia.
      assert (in_canvas m r (columnOf i) = true) as Hin
        by (unfold in_canvas; bool_cases; done).
      destruct (reachable_cells m r (columnOf i) Hr Hin) as (v & Hv & Hglyph).
      rewrite (overlay_candles_window m r (columnOf i) v Hgm Hv Hglyph).
      rewrite <- Hv. apply Hcells; [done|lia]. }
    assert (bodySymbolOf pc ≠ blank) as Hbody.
    { unfold bodySymbolOf. by destruct (decide (type pc = bullish)). }
    assert (t = top + 2) as Ht.
    { subst t.
      apply (findCandleTop_finds H W g (columnOf i + 6) (top + 2)
               (if decide (h < Z.min o cl) then wickSymbol else bodySymbolOf pc));
        [done|unfold columnOf; lia|subst W; lia|lia| | |].
      - intros R HR. destruct (decide (R < 2)) as [Htop|Hgrid].
        + rewrite Hright by lia. apply overlay_candles_top; lia.
        + replace R with (R - 2 + 2) by lia. rewrite Hcentre by lia.
          unfold drawnCell. rewrite Hcol0. bool_cases; done.
      - rewrite Hcentre by lia. unfold drawnCell. rewrite Hcol0.
        destruct (decide (h < Z.min o cl)); bool_cases; done.
      - by destruct (decide (h < Z.min o cl)). }
    subst g'. replace (0 <=? t - 1) with true by lia.
    rewrite (writeString_unfold H W) by (done || lia).
    replace (t - 1) with (top + 1) by lia.
    replace (columnOf i + 5 + Z.of_nat k) with (columnOf i + 6 - 1 + Z.of_nat k) by lia.
    apply (readCell_writeChars_at H W);
      [done|lia|lia|unfold columnOf; lia|subst W; lia|done].
  - (* a later label *)
    replace (S i) with (length (pre ++ [pc0])) by (rewrite length_app; simpl; lia).
    apply (IH (pre ++ [pc0]) g' Hp) with (pc := pc); try done.
    + by rewrite <- app_assoc.
    + intros R C HC. rewrite length_app in HC. simpl in HC.
      replace (length pre + 1)%nat with (S i) in HC by lia. rewrite columnOf_S in HC.
      subst g'. destruct (0 <=? t - 1).
      * rewrite readCell_writeString_after by lia. apply Hright. lia.
      * apply Hright. lia.
    + rewrite length_app. simpl. lia.
Qed.

(** X16 (where the labels are).  With the labels shown, in a session that
    starts with its first candle and holds fewer than 100000 candles, the
    text [C1], [C2], ... of a candle is in the chart row just above the
    candle's highest glyph, from the column left of the candle's centre. *)
Theorem label_sits_on_the_candle (this : MatrixASCIIChart.t) (i : nat)
    (pc : PositionedCandle) (h o cl : Z) (k : nat) (a : string) :
  let m := MatrixASCIIChart.matrix this in
  proper m → MatrixASCIIChart.showLabels this = true →
  Z.of_nat (length (candles m)) < 100000 →
  candles m !! i = Some pc →
  priceToRow m (highPrice pc) = Some h → priceToRow m (openPrice pc) = Some o →
  priceToRow m (closePrice pc) = Some cl →
  MatrixASCIIChart.chars (MatrixASCIIChart.label i) !! k = Some a →
  readCell (MatrixASCIIChart.overlay this)
    (Z.min h (Z.min o cl) + 2 - 1) (column pc + 6 - 1 + Z.of_nat k) = Some a.
Proof.
  intros m Hp Hlabels Hn Hpc Hhigh Hopen Hclose Hk.
  pose proof (proper_reachable m Hp) as Hr.
  pose proof (reachable_inv m Hr) as [Hok Hcols].
  pose proof Hok as (Hgm & Hh & Hw & _). unfold defaultHeight in Hh.
  pose proof (priceToRow_on_canvas m _ _ Hok Hhigh) as Hh1.
  pose proof (priceToRow_on_canvas m _ _ Hok Hopen) as Ho1.
  pose proof (priceToRow_on_canvas m _ _ Hok Hclose) as Hcl1.
  rewrite overlay_stages. fold m. rewrite overlay_time_rows by lia.
  unfold overlay_labels. fold m. rewrite Hlabels, (Hcols _ _ Hpc).
  replace (Z.min h (Z.min o cl) + 2 - 1) with (Z.min h (Z.min o cl) + 1) by lia.
  replace (columnOf i + 6 - 1 + Z.of_nat k) with (columnOf i + 5 + Z.of_nat k) by lia.
  apply (writeLabels_places m (Z.to_nat (height m + 3)) (Z.to_nat (width m + 4 + 10))
           (candles m) [] (overlay_candles m) Hp eq_refl Hn eq_refl eq_refl
           (is_grid_overlay_candles m) (fun _ _ _ => eq_refl) i pc h o cl k a);
    try done. simpl. lia.
Qed.

Lemma label_sits_on_the_candle_witness :
  readCell (MatrixASCIIChart.overlay (MatrixASCIIChart.mk session_bearish true true)) 2 9
  = Some "1"%string.
Proof.
  refine (label_sits_on_the_candle (MatrixASCIIChart.mk session_bearish true true) 0
            (mkPositioned (mkCandle bearish 3 1 2) 3 101 100 97 95) 1 2 5 1 "1"
            proper_session_bearish eq_refl _ eq_refl eq_refl eq_refl eq_refl eq_refl).
  reflexivity.
Defined.

(** * The exact model and the integer model *)

(** ** Whole numbers among the rationals *)

Lemma inject_Z_add (a b : Z) : (inject_Z a + inject_Z b)%Q = inject_Z (a + b).
Proof. unfold Qplus, inject_Z. simpl. f_equal. lia. Qed.

Lemma inject_Z_sub (a b : Z) : (inject_Z a - inject_Z b)%Q = inject_Z (a - b).
Proof. unfold Qminus, Qplus, Qopp, inject_Z. simpl. f_equal. lia. Qed.

Lemma inject_Z_mul (a b : Z) : (inject_Z a * inject_Z b)%Q = inject_Z (a * b).
Proof. reflexivity. Qed.

Lemma Qle_bool_inject (a b : Z) : Qle_bool (inject_Z a) (inject_Z b) = (a <=? b).
Proof. unfold Qle_bool. simpl. by rewrite !Z.mul_1_r. Qed.

Lemma Qlt_bool_inject (a b : Z) : Qlt_bool (inject_Z a) (inject_Z b) = (a <? b).
Proof. unfold Qlt_bool. rewrite Qle_bool_inject. apply eq_sym, Z.ltb_antisym. Qed.

Lemma Qeq_bool_inject (a b : Z) : Qeq_bool (inject_Z a) (inject_Z b) = (a =? b).
Proof. unfold Qeq_bool. simpl. by rewrite !Z.mul_1_r. Qed.

Lemma minQ_inject (a b : Z) : minQ (inject_Z a) (inject_Z b) = inject_Z (Z.min a b).
Proof.
  unfold minQ. rewrite Qle_bool_inject.
  destruct (a <=? b) eqn:E; [apply Z.leb_le in E|apply Z.leb_gt in E]; f_equal; lia.
Qed.

Lemma maxQ_inject (a b : Z) : maxQ (inject_Z a) (inject_Z b) = inject_Z (Z.max a b).
Proof.
  unfold maxQ. rewrite Qle_bool_inject.
  destruct (a <=? b) eqn:E; [apply Z.leb_le in E|apply Z.leb_gt in E]; f_equal; lia.
Qed.

Lemma iterations_lt_inject (a b : Z) :
  iterations_lt (inject_Z a) (inject_Z b) = Z.to_nat (b - a).
Proof. unfold iterations_lt. by rewrite inject_Z_sub, Qceiling_Z. Qed.

Lemma iterations_le_inject (a b : Z) :
  iterations_le (inject_Z a) (inject_Z b) = Z.to_nat (b + 1 - a).
Proof. unfold iterations_le. rewrite inject_Z_sub, Qfloor_Z. f_equal. lia. Qed.

(** ** The integer model is the exact model on whole numbers *)

Lemma exact_setCell (r c : Z) (v : string) (m : DynamicMatrix) :
  grid_ok m →
  Exact.setCell (inject_Z r) c v (exact m) = Returns (exact (setCell r c v m)).
Proof.
  intros (Hh & Hw & Hlen & Hall). unfold Exact.setCell, setCell.
  cbn [exact Exact.height Exact.width Exact.data].
  change 0%Q with (inject_Z 0). rewrite Qle_bool_inject, Qlt_bool_inject.
  destruct ((0 <=? r) && (r <? height m) && (0 <=? c) && (c <? width m)) eqn:Hguard;
    [|done].
  rewrite Qfloor_Z, Qeq_bool_inject, Z.eqb_refl. simpl.
  rewrite bool_decide_eq_true_2; [done|].
  apply lookup_lt_is_Some_2. rewrite Hlen.
  revert Hguard. bool_cases; intros; try done; lia.
Qed.

Lemma exact_forRows (bodyQ : Q → Exact.DynamicMatrix → outcome Exact.DynamicMatrix)
    (bodyZ : Z → DynamicMatrix → DynamicMatrix) :
  (∀ row m, grid_ok m →
     bodyQ (inject_Z row) (exact m) = Returns (exact (bodyZ row m)) ∧
     grid_ok (bodyZ row m)) →
  ∀ n a m, grid_ok m →
    forRows n (inject_Z a) bodyQ (exact m)
    = Returns (exact (forRange a (a + Z.of_nat n) bodyZ m)) ∧
    grid_ok (forRange a (a + Z.of_nat n) bodyZ m).
Proof.
  intros Hbody. unfold forRange.
  induction n as [|n IH]; intros a m Hg.
  - replace (a + Z.of_nat 0 - a) with 0 by lia. done.
  - destruct (Hbody a m Hg) as [Hstep Hg'].
    cbn [forRows]. rewrite Hstep. cbn [mbind outcome_bind].
    change 1%Q with (inject_Z 1). rewrite inject_Z_add.
    destruct (IH (a + 1) _ Hg') as [Hrest Hg''].
    replace (a + Z.of_nat (S n) - a) with (Z.succ (Z.of_nat n)) by lia.
    rewrite seqZ_cons by lia. cbn [foldl].
    replace (Z.pred (Z.succ (Z.of_nat n))) with (a + 1 + Z.of_nat n - (a + 1)) by lia.
    replace (Z.succ a) with (a + 1) by lia. done.
Qed.

(** The loop [for (row = a; row < b; row++)] over whole rows. *)
Lemma exact_forRows_range bodyQ bodyZ (n : nat) (a b : Z) (m : DynamicMatrix) :
  (∀ row m, grid_ok m →
     bodyQ (inject_Z row) (exact m) = Returns (exact (bodyZ row m)) ∧
     grid_ok (bodyZ row m)) →
  n = Z.to_nat (b - a) → grid_ok m →
  forRows n (inject_Z a) bodyQ (exact m) = Returns (exact (forRange a b bodyZ m)) ∧
  grid_ok (forRange a b bodyZ m).
Proof.
  intros Hbody -> Hg.
  destruct (exact_forRows bodyQ bodyZ Hbody (Z.to_nat (b - a)) a m Hg) as [Hrun Hg'].
  assert (forRange a (a + Z.of_nat (Z.to_nat (b - a))) bodyZ m = forRange a b bodyZ m)
    as Heq.
  { unfold forRange. f_equal. unfold seqZ. f_equal. f_equal. lia. }
  by rewrite Heq in Hrun, Hg'.
Qed.

Lemma exact_priceToRow (m : DynamicMatrix) (p : Z) :
  Exact.priceToRow (exact m) (inject_Z p)
  = match priceToRow m p with
    | Some r => Returns (inject_Z r)
    | None => NotFollowed
    end.
Proof.
  unfold Exact.priceToRow, priceToRow. simpl. rewrite length_fmap.
  destruct (length (candles m) =? 0)%nat; [done|].
  destruct (maxPrice m) as [|hi|]; simpl; try done.
  destruct (minPrice m) as [|lo|]; simpl; try done.
  cbn [mbind outcome_bind option_bind].
  rewrite !inject_Z_sub. change 0%Q with (inject_Z 0). rewrite Qeq_bool_inject.
  destruct (hi - lo =? 0).
  - f_equal. f_equal. unfold Qdiv, Qinv, Qmult, Qfloor. simpl. by rewrite Z.mul_1_r.
  - unfold Exact.buffer, buffer.
    change (2 * 1)%Q with (inject_Z (2 * 1)). change 1%Q with (inject_Z 1).
    rewrite !inject_Z_sub, inject_Z_add, minQ_inject, maxQ_inject.
    do 2 f_equal.
Qed.

Lemma exact_setCell_step (col : Z) (v : string) (row : Z) (m : DynamicMatrix) :
  grid_ok m →
  Exact.setCell (inject_Z row) col v (exact m) = Returns (exact (setCell row col v m)) ∧
  grid_ok (setCell row col v m).
Proof. intros Hg. split; [by apply exact_setCell|by apply grid_ok_setCell]. Qed.

Lemma exact_bodyStep (col : Z) (v : string) (row : Z) (m : DynamicMatrix) :
  grid_ok m →
  (m1 ← (if 0 <? col then Exact.setCell (inject_Z row) (col - 1) v (exact m)
         else Returns (exact m));
   m2 ← Exact.setCell (inject_Z row) col v m1;
   if col <? Exact.width m2 - 1 then Exact.setCell (inject_Z row) (col + 1) v m2
   else Returns m2)
  = Returns (exact (bodyStep col v row m)) ∧
  grid_ok (bodyStep col v row m).
Proof.
  intros Hg. unfold bodyStep.
  set (m1 := if 0 <? col then setCell row (col - 1) v m else m).
  assert (grid_ok m1) as Hg1.
  { subst m1. destruct (0 <? col); [by apply grid_ok_setCell|done]. }
  assert ((if 0 <? col then Exact.setCell (inject_Z row) (col - 1) v (exact m)
           else Returns (exact m)) = Returns (exact m1)) as ->.
  { subst m1. destruct (0 <? col); [by apply exact_setCell|done]. }
  cbn [mbind outcome_bind]. rewrite exact_setCell by done. cbn [mbind outcome_bind].
  pose proof (grid_ok_setCell row col v m1 Hg1) as Hg2.
  change (Exact.width (exact (setCell row col v m1))) with (width (setCell row col v m1)).
  destruct (col <? width (setCell row col v m1) - 1).
  - split; [by apply exact_setCell|by apply grid_ok_setCell].
  - done.
Qed.

Lemma exact_drawCandle (c : PositionedCandle) (m : DynamicMatrix) :
  grid_ok m →
  Exact.drawCandle (exactPositioned c) (exact m) = exactResult (drawCandle c m) ∧
  ∀ m', drawCandle c m = Some m' → grid_ok m'.
Proof.
  intros Hg. unfold Exact.drawCandle, drawCandle.
  cbn [exactPositioned Exact.highPrice Exact.openPrice Exact.closePrice Exact.lowPrice
       Exact.column Exact.candle exactCandle Exact.type].
  rewrite !exact_priceToRow.
  destruct (priceToRow m (highPrice c)) as [highRow|]; [|done].
  destruct (priceToRow m (openPrice c)) as [openRow|]; [|done].
  destruct (priceToRow m (closePrice c)) as [closeRow|]; [|done].
  destruct (priceToRow m (lowPrice c)) as [lowRow|]; [|done].
  cbn [mbind outcome_bind option_bind].
  rewrite minQ_inject, maxQ_inject.
  set (bodySymbol := if decide (type c = bullish) then bullishBody else bearishBody).
  set (top := Z.min openRow closeRow). set (bottom := Z.max openRow closeRow).
  destruct (exact_forRows_range
              (fun row => Exact.setCell row (column c) wickSymbol)
              (fun row => setCell row (column c) wickSymbol)
              (iterations_lt (inject_Z highRow) (inject_Z top)) highRow top m
              (exact_setCell_step (column c) wickSymbol)
              (iterations_lt_inject _ _) Hg) as [-> Hg1].
  cbn [mbind outcome_bind].
  set (m1 := forRange highRow top (fun row => setCell row (column c) wickSymbol) m) in *.
  destruct (exact_forRows_range
              (fun row m =>
                 m ← (if 0 <? column c
                      then Exact.setCell row (column c - 1) bodySymbol m else Returns m);
                 m ← Exact.setCell row (column c) bodySymbol m;
                 if column c <? Exact.width m - 1
                 then Exact.setCell row (column c + 1) bodySymbol m else Returns m)
              (bodyStep (column c) bodySymbol)
              (iterations_le (inject_Z top) (inject_Z bottom)) top (bottom + 1) m1
              (exact_bodyStep (column c) bodySymbol)
              (iterations_le_inject _ _) Hg1) as [-> Hg2].
  cbn [mbind outcome_bind].
  set (m2 := forRange top (bottom + 1) (bodyStep (column c) bodySymbol) m1) in *.
  change 1%Q with (inject_Z 1). rewrite inject_Z_add.
  destruct (exact_forRows_range
              (fun row => Exact.setCell row (column c) wickSymbol)
              (fun row => setCell row (column c) wickSymbol)
              (iterations_le (inject_Z (bottom + 1)) (inject_Z lowRow))
              (bottom + 1) (lowRow + 1) m2
              (exact_setCell_step (column c) wickSymbol)
              (iterations_le_inject _ _) Hg2) as [-> Hg3].
  split; [done|]. intros m' [= <-]. exact Hg3.
Qed.

Lemma exact_redrawFrom (idx : list nat) : ∀ (col : Z) (m : DynamicMatrix),
  grid_ok m →
  Exact.redrawFrom idx col (exact m) = exactResult (redrawFrom idx col m) ∧
  ∀ m', redrawFrom idx col m = Some m' → grid_ok m'.
Proof.
  induction idx as [|i idx IH]; intros col m Hg.
  { split; [done|]. by intros m' [= <-]. }
  cbn [Exact.redrawFrom redrawFrom]. cbn [exact Exact.candles].
  rewrite list_lookup_fmap.
  destruct (candles m !! i) as [c|]; [|done]. cbn [fmap option_fmap option_map mbind option_bind].
  set (m1 := set_candles (<[i := set_column col c]> (candles m)) m).
  assert (Exact.set_candles
            (<[i := Exact.set_column col (exactPositioned c)]> (exactPositioned <$> candles m))
            (exact m) = exact m1) as Hm1.
  { unfold exact, m1, Exact.set_candles. simpl. by rewrite list_fmap_insert. }
  fold (exact m). rewrite Hm1.
  change (Exact.set_column col (exactPositioned c)) with (exactPositioned (set_column col c)).
  assert (grid_ok m1) as Hg1 by exact Hg.
  destruct (exact_drawCandle (set_column col c) m1 Hg1) as [-> Hdraw].
  destruct (drawCandle (set_column col c) m1) as [m2|]; [|done].
  cbn [exactResult mbind outcome_bind option_bind].
  apply IH. by apply Hdraw.
Qed.

Lemma exact_redrawAllCandles (m : DynamicMatrix) :
  0 ≤ height m → 0 ≤ width m →
  Exact.redrawAllCandles (exact m) = exactResult (redrawAllCandles m) ∧
  ∀ m', redrawAllCandles m = Some m' → grid_ok m'.
Proof.
  intros Hh Hw. unfold Exact.redrawAllCandles, redrawAllCandles.
  set (m0 := set_data (createEmptyMatrix (width m) (height m)) m).
  assert (Exact.set_data (Exact.createEmptyMatrix (Exact.width (exact m))
                            (Exact.height (exact m))) (exact m) = exact m0) as ->.
  { unfold exact, m0, Exact.set_data, Exact.createEmptyMatrix. simpl.
    by rewrite Qceiling_Z. }
  assert (length (Exact.candles (exact m0)) = length (candles m0)) as ->
    by apply length_fmap.
  apply exact_redrawFrom. do 2 (split; [done|]). apply is_grid_create.
Qed.

Lemma exact_expandMatrix (newWidth newHeight : Z) (m : DynamicMatrix) :
  Exact.expandMatrix newWidth (inject_Z newHeight) (exact m)
  = exact (expandMatrix newWidth newHeight m).
Proof.
  unfold Exact.expandMatrix, expandMatrix. cbn [exact Exact.width Exact.height].
  rewrite Qle_bool_inject.
  destruct ((newWidth <=? width m) && (newHeight <=? height m)); [done|].
  unfold exact, Exact.createEmptyMatrix. simpl.
  by rewrite maxQ_inject, !Qceiling_Z.
Qed.

Lemma exactNum_min (x : num) (z : Z) :
  Exact.Math_min (exactNum x) (Exact.Num (inject_Z z)) = exactNum (Math_min x (Num z)).
Proof. destruct x; simpl; try done. by rewrite minQ_inject. Qed.

Lemma exactNum_max (x : num) (z : Z) :
  Exact.Math_max (exactNum x) (Exact.Num (inject_Z z)) = exactNum (Math_max x (Num z)).
Proof. destruct x; simpl; try done. by rewrite maxQ_inject. Qed.

(** [addFirstCandle] with whole magnitudes. *)
Lemma exact_addFirstCandle (c : Candle) (m : DynamicMatrix) :
  0 ≤ height m → 0 ≤ width m →
  Exact.addFirstCandle (exactCandle c) (exact m) = exactResult (addFirstCandle c m).
Proof.
  intros Hh Hw. unfold Exact.addFirstCandle, addFirstCandle.
  cbn [exactCandle Exact.bodySize Exact.upperWick Exact.lowerWick Exact.type].
  unfold Exact.buffer. change (2 * 1)%Q with (inject_Z (2 * buffer)).
  change 100%Q with (inject_Z 100).
  rewrite !inject_Z_add, !inject_Z_sub.
  cbn [exact Exact.height Exact.width]. rewrite Qlt_bool_inject. fold (exact m).
  set (requiredHeight := bodySize c + upperWick c + lowerWick c + 2 * buffer).
  set (m1 := if height m <? requiredHeight
             then expandMatrix (width m) requiredHeight m else m).
  assert ((if height m <? requiredHeight
           then Exact.expandMatrix (width m) (inject_Z requiredHeight) (exact m)
           else exact m) = exact m1) as ->.
  { subst m1. destruct (height m <? requiredHeight); [apply exact_expandMatrix|done]. }
  assert (0 ≤ height m1 ∧ 0 ≤ width m1) as [Hh1 Hw1].
  { subst m1. destruct (height m <? requiredHeight); [|done].
    unfold expandMatrix. destruct (_ && _); simpl; lia. }
  assert (∀ pc lo hi,
            Exact.redrawAllCandles
              (Exact.set_prices (Exact.Num (inject_Z lo)) (Exact.Num (inject_Z hi))
                 (Exact.set_candles (Exact.candles (exact m1) ++ [exactPositioned pc])
                    (exact m1)))
            = exactResult (redrawAllCandles
                (set_prices (Num lo) (Num hi) (set_candles (candles m1 ++ [pc]) m1))))
    as Hpush.
  { intros pc lo hi.
    rewrite <- (proj1 (exact_redrawAllCandles
                         (set_prices (Num lo) (Num hi)
                            (set_candles (candles m1 ++ [pc]) m1)) Hh1 Hw1)).
    f_equal. unfold exact, Exact.set_prices, Exact.set_candles. cbn - [inject_Z].
    by rewrite fmap_app. }
  destruct (decide (type c = bullish)).
  - exact (Hpush (mkPositioned c 3 (100 + upperWick c) (100 - bodySize c) 100
                    (100 - bodySize c - lowerWick c)) _ _).
  - exact (Hpush (mkPositioned c 3 (100 + upperWick c) 100 (100 - bodySize c)
                    (100 - bodySize c - lowerWick c)) _ _).
Qed.

Lemma exact_finite (x : num) :
  Exact.finite (exactNum x)
  = match finite x with Some z => Returns (inject_Z z) | None => NotFollowed end.
Proof. by destruct x. Qed.

(** [addCandle] from the prices of the new candle on. *)
Lemma exact_addCandle_place (c : Candle) (m : DynamicMatrix) (col : Z)
    (openPrice closePrice highPrice lowPrice : Z) :
  0 ≤ height m → 0 ≤ width m →
  (let m := Exact.set_prices
              (Exact.Math_min (Exact.minPrice (exact m)) (Exact.Num (inject_Z lowPrice)))
              (Exact.Math_max (Exact.maxPrice (exact m)) (Exact.Num (inject_Z highPrice)))
              (exact m) in
   hi ← Exact.finite (Exact.maxPrice m);
   lo ← Exact.finite (Exact.minPrice m);
   let requiredHeight := (inject_Z (Qceiling (hi - lo)) + inject_Z (2 * buffer))%Q in
   let requiredWidth := (Z.of_nat (length (Exact.candles m)) + 1) * 6 + 3 in
   let m := if Qlt_bool (Exact.height m) requiredHeight
               || (Exact.width m <? requiredWidth)
            then Exact.expandMatrix requiredWidth requiredHeight m else m in
   let positioned :=
     Exact.mkPositioned (exactCandle c) col (inject_Z highPrice) (inject_Z openPrice)
       (inject_Z closePrice) (inject_Z lowPrice) in
   Exact.redrawAllCandles (Exact.set_candles (Exact.candles m ++ [positioned]) m))
  = exactResult
      (let m := set_prices (Math_min (minPrice m) (Num lowPrice))
                           (Math_max (maxPrice m) (Num highPrice)) m in
       hi ← finite (maxPrice m);
       lo ← finite (minPrice m);
       let requiredHeight := Math_ceil (hi - lo) + 2 * buffer in
       let requiredWidth := (Z.of_nat (length (candles m)) + 1) * 6 + 3 in
       let m := if (height m <? requiredHeight) || (width m <? requiredWidth)
                then expandMatrix requiredWidth requiredHeight m else m in
       let positioned := mkPositioned c col highPrice openPrice closePrice lowPrice in
       redrawAllCandles (set_candles (candles m ++ [positioned]) m)).
Proof.
  intros Hh Hw. cbv zeta.
  cbn [exact Exact.minPrice Exact.maxPrice]. rewrite exactNum_min, exactNum_max.
  set (m2 := set_prices (Math_min (minPrice m) (Num lowPrice))
                        (Math_max (maxPrice m) (Num highPrice)) m).
  change (Exact.set_prices _ _ _) with (exact m2).
  change (Exact.maxPrice (exact m2)) with (exactNum (maxPrice m2)).
  change (Exact.minPrice (exact m2)) with (exactNum (minPrice m2)).
  rewrite !exact_finite.
  destruct (finite (maxPrice m2)) as [hi|]; [|done].
  destruct (finite (minPrice m2)) as [lo|]; [|done].
  cbn [mbind outcome_bind option_bind].
  rewrite inject_Z_sub, inject_Z_add. fold (Math_ceil (hi - lo)).
  change (Exact.height (exact m2)) with (inject_Z (height m2)).
  change (Exact.width (exact m2)) with (width m2).
  change (Exact.candles (exact m2)) with (exactPositioned <$> candles m2).
  rewrite Qlt_bool_inject, length_fmap.
  set (requiredHeight := Math_ceil (hi - lo) + 2 * buffer).
  set (requiredWidth := (Z.of_nat (length (candles m2)) + 1) * 6 + 3).
  set (m3 := if (height m2 <? requiredHeight) || (width m2 <? requiredWidth)
             then expandMatrix requiredWidth requiredHeight m2 else m2).
  assert ((if (height m2 <? requiredHeight) || (width m2 <? requiredWidth)
           then Exact.expandMatrix requiredWidth (inject_Z requiredHeight) (exact m2)
           else exact m2) = exact m3) as ->.
  { subst m3. destruct (_ || _); [apply exact_expandMatrix|done]. }
  assert (0 ≤ height m3 ∧ 0 ≤ width m3) as [Hh3 Hw3].
  { subst m3. destruct (_ || _); [|done].
    unfold expandMatrix. destruct (_ && _); simpl; lia. }
  rewrite <- (proj1 (exact_redrawAllCandles
                       (set_candles (candles m3 ++
                          [mkPositioned c col highPrice openPrice closePrice lowPrice]) m3)
                       Hh3 Hw3)).
  f_equal. unfold exact, Exact.set_candles. cbn - [inject_Z]. by rewrite fmap_app.
Qed.

(** [addCandle] with whole magnitudes. *)
Lemma exact_addCandle (c : Candle) (m : DynamicMatrix) :
  0 ≤ height m → 0 ≤ width m →
  Exact.addCandle (exactCandle c) (exact m) = exactResult (addCandle c m).
Proof.
  intros Hh Hw. unfold Exact.addCandle, addCandle.
  cbn [exact Exact.candles]. rewrite length_fmap, fmap_last. fold (exact m).
  destruct (length (candles m) =? 0)%nat; [by apply exact_addFirstCandle|].
  destruct (last (candles m)) as [prev|]; [|done].
  cbn [fmap option_fmap option_map mbind option_bind].
  cbn [exactPositioned Exact.bodySize Exact.upperWick Exact.lowerWick
       Exact.type Exact.closePrice Exact.candle Exact.column].
  change (Exact.type (exactCandle c)) with (type c).
  change (Exact.bodySize (exactCandle c)) with (inject_Z (bodySize c)).
  change (Exact.upperWick (exactCandle c)) with (inject_Z (upperWick c)).
  change (Exact.lowerWick (exactCandle c)) with (inject_Z (lowerWick c)).
  change (Exact.type (exactCandle prev)) with (type prev).
  unfold Exact.buffer. change (2 * 1)%Q with (inject_Z (2 * buffer)).
  change 1%Q with (inject_Z 1).
  destruct (decide (type c = bullish));
    destruct (decide (type prev = bullish ∧ type c = bullish));
    destruct (decide (type prev = bearish ∧ type c = bearish));
    repeat (rewrite inject_Z_add || rewrite inject_Z_sub);
    by apply exact_addCandle_place.
Qed.

(** ** Sessions built from whole candles *)

Lemma exact_new : Exact.new_DynamicMatrix = exact new_DynamicMatrix.
Proof. reflexivity. Qed.

Lemma Returns_exact_inj (r : option DynamicMatrix) (mq : Exact.DynamicMatrix) :
  exactResult r = Returns mq → ∃ m, r = Some m ∧ mq = exact m.
Proof. destruct r as [m|]; [|done]. intros [= <-]. by exists m. Qed.

Lemma reachable_nonneg (m : DynamicMatrix) : reachable m → 0 ≤ height m ∧ 0 ≤ width m.
Proof. intros [(Hg & _) _]%reachable_inv. destruct Hg as (? & ? & _). done. Qed.

(** The sessions of the exact model built from whole candles are the
    sessions of the integer model. *)
Lemma whole_sessions (mq : Exact.DynamicMatrix) :
  Exact.reachableBy whole mq → ∃ m, reachable m ∧ mq = exact m.
Proof.
  induction 1 as [|c mq mq' _ (m & Hr & ->) [c0 ->] Hadd
                  |c mq mq' _ (m & Hr & ->) [c0 ->] Hadd].
  - exists new_DynamicMatrix. split; [apply reach_new|apply exact_new].
  - destruct (reachable_nonneg m Hr) as [Hh Hw].
    rewrite exact_addFirstCandle in Hadd by done.
    apply Returns_exact_inj in Hadd as (m' & Hadd & ->).
    exists m'. split; [|done]. by eapply reach_addFirstCandle.
  - destruct (reachable_nonneg m Hr) as [Hh Hw].
    rewrite exact_addCandle in Hadd by done.
    apply Returns_exact_inj in Hadd as (m' & Hadd & ->).
    exists m'. split; [|done]. by eapply reach_addCandle.
Qed.

Lemma reachable_exact (m : DynamicMatrix) :
  reachable m → Exact.reachableBy whole (exact m).
Proof.
  induction 1 as [|c m m' Hr IH _ Hadd|c m m' Hr IH _ Hadd].
  - rewrite <- exact_new. apply Exact.reach_new.
  - destruct (reachable_nonneg m Hr) as [Hh Hw].
    apply (Exact.reach_addFirstCandle whole (exactCandle c) (exact m)); [done|by exists c|].
    by rewrite exact_addFirstCandle, Hadd.
  - destruct (reachable_nonneg m Hr) as [Hh Hw].
    apply (Exact.reach_addCandle whole (exactCandle c) (exact m)); [done|by exists c|].
    by rewrite exact_addCandle, Hadd.
Qed.

Lemma exact_calls (ops : list (bool * Candle)) : ∀ m,
  reachable m →
  Exact.calls (exactCall <$> ops) (exact m) = exactResult (calls ops m).
Proof.
  induction ops as [|[first c] ops IH]; intros m Hr; [done|].
  destruct (reachable_nonneg m Hr) as [Hh Hw].
  cbn [fmap list_fmap Exact.calls calls].
  assert (Exact.call (exactCall (first, c)) (exact m) = exactResult (call (first, c) m))
    as ->.
  { unfold Exact.call, call, exactCall. simpl.
    destruct first; [by apply exact_addFirstCandle|by apply exact_addCandle]. }
  destruct (call (first, c) m) as [m1|] eqn:Hcall; [|done].
  cbn [exactResult mbind outcome_bind option_bind]. apply IH.
  unfold call in Hcall. simpl in Hcall.
  destruct first; [by eapply reach_addFirstCandle|by eapply reach_addCandle].
Qed.

Lemma whole_calls (ops : list (bool * Exact.Candle)) :
  Forall (fun op => whole op.2) ops → ∃ ops0, ops = exactCall <$> ops0.
Proof.
  induction 1 as [|[first c] ops [c0 Hc] _ [ops0 ->]]; [by exists []|].
  simpl in Hc. subst c. by exists ((first, c0) :: ops0).
Qed.

(** ** The chart over whole sessions *)

Lemma exact_writeLabels (cs : list PositionedCandle) : ∀ index g,
  ExactChart.writeLabels (exactPositioned <$> cs) index g
  = MatrixASCIIChart.writeLabels cs index g.
Proof.
  induction cs as [|c cs IH]; intros index g; [done|].
  cbn [fmap list_fmap ExactChart.writeLabels MatrixASCIIChart.writeLabels].
  by rewrite IH.
Qed.

Lemma exact_writeDots (totalWidth timeRow : Z) (cs : list PositionedCandle) : ∀ g,
  foldl (ExactChart.writeDot totalWidth timeRow) g (exactPositioned <$> cs)
  = foldl (MatrixASCIIChart.writeDot totalWidth timeRow) g cs.
Proof. induction cs as [|c cs IH]; intros g; [done|]. simpl. by rewrite IH. Qed.

Lemma exact_overlay (this : MatrixASCIIChart.t) :
  ExactChart.overlay (exactChart this) = MatrixASCIIChart.overlay this.
Proof.
  unfold ExactChart.overlay, MatrixASCIIChart.overlay.
  cbn [exactChart ExactChart.matrix ExactChart.showLabels Exact.getDimensions
       Exact.getMatrix Exact.getCandlePositions getDimensions getCandlePositions
       exact Exact.width Exact.height Exact.data Exact.candles].
  change 3%Q with (inject_Z 3). change 1%Q with (inject_Z 1).
  rewrite inject_Z_add, inject_Z_sub. unfold Exact.createEmptyMatrix.
  rewrite !Qceiling_Z, !Qfloor_Z, Qeq_bool_inject, Z.eqb_refl.
  rewrite exact_writeLabels.
  destruct (MatrixASCIIChart.showLabels this); by rewrite exact_writeDots.
Qed.

Lemma exact_toLines (this : MatrixASCIIChart.t) :
  ExactChart.toLines (exactChart this) = MatrixASCIIChart.toLines this.
Proof.
  unfold ExactChart.toLines, MatrixASCIIChart.toLines.
  destruct (negb _); [done|]. by rewrite exact_overlay.
Qed.

(** ** The grid of every session of the exact model *)

Lemma canvas_kept_refl (m : Exact.DynamicMatrix) : Exact.canvas_kept m m.
Proof. do 2 (split; [done|]). split; auto. Qed.

Lemma canvas_kept_trans (m1 m2 m3 : Exact.DynamicMatrix) :
  Exact.canvas_kept m1 m2 → Exact.canvas_kept m2 m3 → Exact.canvas_kept m1 m3.
Proof.
  intros (Hw1 & Hh1 & Hg1 & Hc1) (Hw2 & Hh2 & Hg2 & Hc2).
  split; [congruence|]. split; [congruence|]. split.
  - intros H W Hg. by apply Hg2, Hg1.
  - intros Hc. by apply Hc2, Hc1.
Qed.

Lemma exact_setCell_kept (row : Q) (col : Z) (v : string) (m m' : Exact.DynamicMatrix) :
  glyph v → Exact.setCell row col v m = Returns m' → Exact.canvas_kept m m'.
Proof.
  intros Hv. unfold Exact.setCell.
  destruct (_ && _ && _ && _) eqn:Hguard;
    [|intros ?; simplify_eq; apply canvas_kept_refl].
  destruct (Qeq_bool _ _ && _); [|done]. intros [= <-].
  do 2 (split; [done|]). simpl. split.
  - intros H W Hg. by apply is_grid_writeCell.
  - intros Hcells r c v' Hread.
    destruct (decide ((r, c) = (Qfloor row, col))) as [[= -> ->]|Hne].
    + destruct (readCell (Exact.data m) (Qfloor row) col) as [old|] eqn:Hold.
      * rewrite readCell_writeCell_eq in Hread by (by rewrite Hold). by simplify_eq.
      * unfold readCell, writeCell in Hread, Hold.
        destruct ((0 <=? Qfloor row) && (0 <=? col)); [|done].
        rewrite list_lookup_alter_eq in Hread.
        destruct (Exact.data m !! Z.to_nat (Qfloor row)) as [x|]; [|done].
        simpl in *. apply lookup_lt_Some in Hread. rewrite length_insert in Hread.
        apply lookup_ge_None in Hold. lia.
    + destruct (decide (0 ≤ Qfloor row ∧ 0 ≤ col)) as [[Hr Hc]|Hneg].
      * rewrite readCell_writeCell_ne in Hread by done. by eapply Hcells.
      * revert Hguard. unfold Qlt_bool. intros Hguard.
        apply andb_prop in Hguard as [Hguard Hc2].
        apply andb_prop in Hguard as [Hguard Hc1].
        apply andb_prop in Hguard as [Hr1 _].
        apply Qle_bool_iff in Hr1. apply Z.leb_le in Hc1.
        pose proof (Qfloor_resp_le _ _ Hr1) as Hfloor.
        change (Qfloor 0) with 0 in Hfloor. lia.
Qed.

Lemma forRows_kept (body : Q → Exact.DynamicMatrix → outcome Exact.DynamicMatrix) :
  (∀ row s s', body row s = Returns s' → Exact.canvas_kept s s') →
  ∀ n row s s', forRows n row body s = Returns s' → Exact.canvas_kept s s'.
Proof.
  intros Hbody. induction n as [|n IH]; intros row s s'; cbn [forRows].
  - intros [= <-]. apply canvas_kept_refl.
  - destruct (body row s) as [s1| |] eqn:Hstep; try done.
    cbn [mbind outcome_bind]. intros Hrest.
    eapply canvas_kept_trans; [by eapply Hbody|by eapply IH].
Qed.

Lemma bodySymbol_glyph (t : CandleType) :
  glyph (if decide (t = bullish) then bullishBody else bearishBody).
Proof. unfold glyph. destruct (decide (t = bullish)); auto. Qed.

Lemma exact_drawCandle_kept (c : Exact.PositionedCandle) (m m' : Exact.DynamicMatrix) :
  Exact.drawCandle c m = Returns m' → Exact.canvas_kept m m'.
Proof.
  unfold Exact.drawCandle.
  destruct (Exact.priceToRow m (Exact.highPrice c)) as [highRow| |]; try done.
  destruct (Exact.priceToRow m (Exact.openPrice c)) as [openRow| |]; try done.
  destruct (Exact.priceToRow m (Exact.closePrice c)) as [closeRow| |]; try done.
  destruct (Exact.priceToRow m (Exact.lowPrice c)) as [lowRow| |]; try done.
  cbn [mbind outcome_bind].
  assert (glyph wickSymbol) as Hwick by (unfold glyph; auto).
  pose proof (bodySymbol_glyph (Exact.type (Exact.candle c))) as Hbody.
  set (bodySymbol := if decide (Exact.type (Exact.candle c) = bullish) then bullishBody else bearishBody)
    in *.
  destruct (forRows _ highRow _ m) as [m1| |] eqn:H1; try done.
  cbn [mbind outcome_bind].
  destruct (forRows _ (minQ openRow closeRow) _ m1) as [m2| |] eqn:H2; try done.
  cbn [mbind outcome_bind]. intros H3.
  eapply canvas_kept_trans; [|eapply canvas_kept_trans].
  - eapply forRows_kept; [|exact H1]. intros row s s'. by apply exact_setCell_kept.
  - eapply forRows_kept; [|exact H2]. intros row s s'.
    assert (∀ (b : bool) col s s',
              (if b then Exact.setCell row col bodySymbol s else Returns s) = Returns s' →
              Exact.canvas_kept s s') as Hside.
    { intros [] col s0 s0'; [by apply exact_setCell_kept|].
      intros [= <-]. apply canvas_kept_refl. }
    cbn beta.
    destruct (if 0 <? Exact.column c
              then Exact.setCell row (Exact.column c - 1) bodySymbol s
              else Returns s) as [s1| |] eqn:Hleft; try done.
    cbn [mbind outcome_bind].
    destruct (Exact.setCell row (Exact.column c) bodySymbol s1) as [s2| |] eqn:Hmid;
      try done.
    cbn [mbind outcome_bind]. intros Hright.
    eapply canvas_kept_trans; [by eapply Hside|].
    eapply canvas_kept_trans; [by eapply exact_setCell_kept|by eapply Hside].
  - eapply forRows_kept; [|exact H3]. intros row s s'. by apply exact_setCell_kept.
Qed.

Lemma exact_redrawFrom_kept (idx : list nat) : ∀ col (m m' : Exact.DynamicMatrix),
  Exact.redrawFrom idx col m = Returns m' → Exact.canvas_kept m m'.
Proof.
  induction idx as [|i idx IH]; intros col m m'; cbn [Exact.redrawFrom].
  - intros [= <-]. apply canvas_kept_refl.
  - destruct (Exact.candles m !! i) as [c|]; [|done].
    destruct (Exact.drawCandle _ _) as [m1| |] eqn:Hdraw; try done.
    cbn [mbind outcome_bind]. intros Hrest.
    eapply canvas_kept_trans; [|by eapply IH].
    by apply exact_drawCandle_kept in Hdraw.
Qed.

Lemma exact_redrawAllCandles_grid (m m' : Exact.DynamicMatrix) :
  0 ≤ Exact.width m → Exact.redrawAllCandles m = Returns m' →
  Exact.grid_ok m' ∧ Exact.width m' = Exact.width m ∧
  Exact.height m' = Exact.height m ∧
  ∀ r c v, readCell (Exact.data m') r c = Some v → glyph v.
Proof.
  intros Hw Hre. unfold Exact.redrawAllCandles in Hre.
  apply exact_redrawFrom_kept in Hre as (Hw' & Hh' & Hg & Hcells).
  simpl in *. split; [|split; [done|split; [done|]]].
  - split; [lia|]. rewrite Hw', Hh'. apply Hg. apply is_grid_create.
  - apply Hcells. intros r c v Hread. left.
    unfold Exact.createEmptyMatrix, createEmptyMatrix, readCell in Hread.
    destruct (_ && _); [|done].
    destruct (replicate _ _ !! Z.to_nat r) as [x|] eqn:Hx; [|done].
    apply lookup_replicate in Hx as [-> _]. simpl in Hread.
    by apply lookup_replicate in Hread as [-> _].
Qed.

Lemma exact_expandMatrix_width (newWidth : Z) (newHeight : Q) (m : Exact.DynamicMatrix) :
  Exact.width m ≤ Exact.width (Exact.expandMatrix newWidth newHeight m).
Proof. unfold Exact.expandMatrix. destruct (_ && _); simpl; lia. Qed.

(** Both add methods end in [redrawAllCandles], on a state that is no
    narrower than the session was. *)
Lemma exact_addFirstCandle_redraws (c : Exact.Candle) (m m' : Exact.DynamicMatrix) :
  Exact.addFirstCandle c m = Returns m' →
  ∃ m0, Exact.redrawAllCandles m0 = Returns m' ∧ Exact.width m ≤ Exact.width m0.
Proof.
  unfold Exact.addFirstCandle. intros Hadd.
  destruct (decide (Exact.type c = bullish)); cbv zeta iota beta in Hadd;
    (eexists; split; [exact Hadd|]); simpl;
    destruct (Qlt_bool _ _); try apply exact_expandMatrix_width; lia.
Qed.

Lemma exact_addCandle_redraws (c : Exact.Candle) (m m' : Exact.DynamicMatrix) :
  Exact.addCandle c m = Returns m' →
  ∃ m0, Exact.redrawAllCandles m0 = Returns m' ∧ Exact.width m ≤ Exact.width m0.
Proof.
  unfold Exact.addCandle.
  destruct (length (Exact.candles m) =? 0)%nat;
    [apply exact_addFirstCandle_redraws|].
  destruct (last (Exact.candles m)) as [prev|]; [|done].
  destruct (decide (Exact.type c = bullish)); cbv zeta iota beta;
    (do 2 (destruct (Exact.finite _) as [?| |]; cbn [mbind outcome_bind]; try done);
     intros Hadd; eexists; split; [exact Hadd|]; simpl;
     destruct (_ || _); [|simpl; lia];
     etrans; [|apply exact_expandMatrix_width]; simpl; lia).
Qed.

Lemma exact_reachable_grid (m : Exact.DynamicMatrix) :
  Exact.reachable m →
  Exact.grid_ok m ∧ defaultWidth ≤ Exact.width m ∧
  ∀ r c v, readCell (Exact.data m) r c = Some v → glyph v.
Proof.
  unfold defaultWidth.
  induction 1 as [|c m m' _ (_ & Hw & _) _ Hadd|c m m' _ (_ & Hw & _) _ Hadd].
  - split; [|split; [done|]].
    + split; [done|]. apply is_grid_create.
    + intros r c v Hread. left.
      unfold readCell in Hread. destruct (_ && _); [|done].
      destruct (Z.to_nat r) as [|[|[|[|[|[|[|n]]]]]]]; simpl in Hread;
        try done;
        destruct (Z.to_nat c) as [|[|[|[|[|[|[|k]]]]]]]; simpl in Hread; by simplify_eq.
  - apply exact_addFirstCandle_redraws in Hadd as (m0 & Hre & Hw0).
    destruct (exact_redrawAllCandles_grid m0 m' ltac:(lia) Hre) as (Hg & Hw' & _ & Hcells).
    split; [done|]. split; [lia|done].
  - apply exact_addCandle_redraws in Hadd as (m0 & Hre & Hw0).
    destruct (exact_redrawAllCandles_grid m0 m' ltac:(lia) Hre) as (Hg & Hw' & _ & Hcells).
    split; [done|]. split; [lia|done].
Qed.

(** ** Sessions that start with the first candle, from whole candles *)

Lemma whole_proper (mq : Exact.DynamicMatrix) :
  Exact.properBy whole mq → ∃ m, proper m ∧ mq = exact m.
Proof.
  induction 1 as [|c mq mq' _ (m & Hp & ->) [c0 ->] He Hadd
                  |c mq mq' _ (m & Hp & ->) [c0 ->] Hadd].
  - exists new_DynamicMatrix. split; [apply proper_new|apply exact_new].
  - destruct (reachable_nonneg m (proper_reachable m Hp)) as [Hh Hw].
    rewrite exact_addFirstCandle in Hadd by done.
    apply Returns_exact_inj in Hadd as (m' & Hadd & ->).
    exists m'. split; [|done].
    apply (proper_first c0 m); [done| |done]. by apply fmap_nil_inv in He.
  - destruct (reachable_nonneg m (proper_reachable m Hp)) as [Hh Hw].
    rewrite exact_addCandle in Hadd by done.
    apply Returns_exact_inj in Hadd as (m' & Hadd & ->).
    exists m'. split; [|done]. by eapply proper_add.
Qed.

Lemma proper_exact (m : DynamicMatrix) : proper m → Exact.properBy whole (exact m).
Proof.
  induction 1 as [|c m m' Hp IH He Hadd|c m m' Hp IH Hadd].
  - rewrite <- exact_new. apply Exact.proper_new.
  - destruct (reachable_nonneg m (proper_reachable m Hp)) as [Hh Hw].
    apply (Exact.proper_first whole (exactCandle c) (exact m)); [done|by exists c| |].
    + simpl. by rewrite He.
    + by rewrite exact_addFirstCandle, Hadd.
  - destruct (reachable_nonneg m (proper_reachable m Hp)) as [Hh Hw].
    apply (Exact.proper_add whole (exactCandle c) (exact m)); [done|by exists c|].
    by rewrite exact_addCandle, Hadd.
Qed.

(** * Properties of the exact model *)

Lemma reachable_session_fractional : Exact.reachable session_fractional.
Proof.
  apply (Exact.reach_addFirstCandle _ (Exact.mkCandle bearish (13 # 2) 0 0)
           Exact.new_DynamicMatrix); [apply Exact.reach_new|done|].
  vm_compute. reflexivity.
Qed.

(** X3 (the grid of a session).  In every session of the exact model,
    whatever the magnitudes of its candles, the grid has as many rows as
    [height] rounded up, each of [width] cells; the cells that can be read
    are those of the rows below [height] and the columns below [width], and
    each holds one of the four glyphs.  With a fractional [height] the last
    row lies partly beyond it. *)
Theorem session_grid_holds_glyphs (m : Exact.DynamicMatrix) (r col : Z) :
  Exact.reachable m →
  length (Exact.data m) = Z.to_nat (Qceiling (Exact.height m)) ∧
  Forall (fun row => length row = Z.to_nat (Exact.width m)) (Exact.data m) ∧
  (is_Some (readCell (Exact.data m) r col) ↔
   0 ≤ r ∧ (inject_Z r < Exact.height m)%Q ∧ 0 ≤ col < Exact.width m) ∧
  (∀ v, readCell (Exact.data m) r col = Some v → glyph v).
Proof.
  intros Hr. destruct (exact_reachable_grid m Hr) as ((Hw & Hlen & Hall) & _ & Hcells).
  split; [done|]. split; [done|]. split; [|by apply Hcells].
  assert (r < Qceiling (Exact.height m) ↔ (inject_Z r < Exact.height m)%Q) as Hrow.
  { split.
    - intros Hlt. apply Qle_lt_trans with (inject_Z (Qceiling (Exact.height m) - 1)).
      + rewrite <- Zle_Qle. lia.
      + apply Qceiling_lt.
    - intros Hlt. rewrite Zlt_Qlt.
      apply Qlt_le_trans with (Exact.height m); [done|apply Qle_ceiling]. }
  split.
  - intros [v Hv].
    destruct (readCell_Some_nonneg _ _ _ _ Hv) as [Hr0 Hc0].
    destruct (readCell_Some_lt _ _ _ _ _ _ (conj Hlen Hall) Hv) as [Hr1 Hc1].
    split; [done|]. split; [apply Hrow; lia|lia].
  - intros (Hr0 & Hr1 & Hc0 & Hc1). apply Hrow in Hr1.
    eapply is_grid_readCell; [exact (conj Hlen Hall)|lia|lia|lia|lia].
Qed.

Lemma session_grid_holds_glyphs_witness :
  length (Exact.data session_fractional) = 9%nat ∧
  (Exact.height session_fractional == 17 # 2)%Q ∧
  is_Some (readCell (Exact.data session_fractional) 8 3).
Proof.
  destruct (session_grid_holds_glyphs session_fractional 8 3
              reachable_session_fractional) as (Hlen & _ & Hsome & _).
  split; [exact Hlen|]. split; [reflexivity|].
  apply Hsome. split; [lia|]. split; [reflexivity|]. split; [lia|reflexivity].
Defined.

(** X2 ([expandMatrix], [createEmptyMatrix]).  [expandMatrix] keeps the
    larger of the old and the new extent on each axis, the height as it is
    passed: the grid it returns has as many rows as that height rounded up,
    every cell that the old grid did not have is blank, and the bounds and
    the candles are not touched. *)
Theorem expandMatrix_adds_blank_cells (m : Exact.DynamicMatrix) (newWidth : Z)
    (newHeight : Q) :
  Exact.grid_ok m →
  Exact.grid_ok (Exact.expandMatrix newWidth newHeight m) ∧
  Exact.width (Exact.expandMatrix newWidth newHeight m)
  = Z.max (Exact.width m) newWidth ∧
  (Exact.height (Exact.expandMatrix newWidth newHeight m)
   == maxQ (Exact.height m) newHeight)%Q ∧
  (∀ r c, is_Some (readCell (Exact.data (Exact.expandMatrix newWidth newHeight m)) r c) →
          readCell (Exact.data m) r c = None →
          readCell (Exact.data (Exact.expandMatrix newWidth newHeight m)) r c
          = Some blank) ∧
  Exact.minPrice (Exact.expandMatrix newWidth newHeight m) = Exact.minPrice m ∧
  Exact.maxPrice (Exact.expandMatrix newWidth newHeight m) = Exact.maxPrice m ∧
  Exact.candles (Exact.expandMatrix newWidth newHeight m) = Exact.candles m.
Proof.
  intros (Hw & Hg). unfold Exact.expandMatrix.
  destruct ((newWidth <=? Exact.width m) && Qle_bool newHeight (Exact.height m))
    eqn:Hnoop.
  - apply andb_prop in Hnoop as [Hnw Hnh]. apply Z.leb_le in Hnw.
    apply Qle_bool_iff in Hnh.
    split; [by split|]. split; [lia|]. split.
    { unfold maxQ. destruct (Qle_bool (Exact.height m) newHeight) eqn:Hle; [|reflexivity].
      apply Qle_bool_iff in Hle. by apply Qle_antisym. }
    split; [|done]. intros r c [v Hv] Hnone. by rewrite Hv in Hnone.
  - simpl.
    set (H' := Z.to_nat (Qceiling (maxQ (Exact.height m) newHeight))).
    set (W' := Z.to_nat (Z.max (Exact.width m) newWidth)).
    assert (is_grid H' W'
              (forRange 0 (Qceiling (Exact.height m))
                 (fun row => forRange 0 (Exact.width m)
                               (fun col => copyCell (Exact.data m) row col))
                 (Exact.createEmptyMatrix (Z.max (Exact.width m) newWidth)
                    (maxQ (Exact.height m) newHeight)))) as Hg'.
    { unfold forRange. apply foldl_inv; [apply is_grid_create|].
      intros g row _ Hgrid. apply foldl_inv; [done|].
      intros g' col _ Hgrid'. by apply is_grid_copyCell. }
    split; [split; [simpl; lia|exact Hg']|]. split; [done|]. split; [reflexivity|].
    split; [|done]. intros r c [v Hv] Hnone.
    destruct (readCell_Some_nonneg _ _ _ _ Hv) as [Hr0 Hc0].
    destruct (readCell_Some_lt _ _ _ _ _ _ Hg' Hv) as [Hr1 Hc1].
    clear Hv. unfold forRange.
    apply (foldl_inv _ (fun g => readCell g r c = Some blank)).
    + apply readCell_create; subst H' W'; lia.
    + intros g row _ Hkeep.
      apply (foldl_inv _ (fun g => readCell g r c = Some blank)); [done|].
      intros g' col _ Hkeep'. unfold copyCell.
      destruct (readCell (Exact.data m) row col) as [v'|] eqn:Hold; [|done].
      destruct (readCell_Some_nonneg _ _ _ _ Hold) as [Hrow Hcol].
      rewrite readCell_writeCell_ne; [done|lia|lia|].
      intros [= -> ->]. by rewrite Hold in Hnone.
Qed.

Lemma expandMatrix_adds_blank_cells_witness :
  length (Exact.data (Exact.expandMatrix 7 (19 # 2) session_fractional)) = 10%nat ∧
  readCell (Exact.data (Exact.expandMatrix 7 (19 # 2) session_fractional)) 9 3
  = Some blank.
Proof.
  destruct (expandMatrix_adds_blank_cells session_fractional 7 (19 # 2))
    as ((_ & Hlen & _) & _ & _ & Hblank & _).
  { exact (proj1 (exact_reachable_grid _ reachable_session_fractional)). }
  split; [exact Hlen|]. apply Hblank; [by eexists|reflexivity].
Defined.

(** ** A session with a fractional height *)

(** In the session with the height 8.5 the body of the candle runs from the
    row of its open, 1, to the row of its close, 6.5, and holds the body
    glyph in the six rows 1 to 6. *)
Example fractional_body_rows :
  ∃ pc openRow closeRow,
    Exact.candles session_fractional = [pc] ∧
    Exact.priceToRow session_fractional (Exact.openPrice pc) = Returns openRow ∧
    Exact.priceToRow session_fractional (Exact.closePrice pc) = Returns closeRow ∧
    (openRow == 1)%Q ∧ (closeRow == 13 # 2)%Q ∧
    filter (fun r => readCell (Exact.data session_fractional) r 3 = Some bearishBody)
           (seqZ 0 9) = [1; 2; 3; 4; 5; 6].
Proof.
  eexists _, _, _. split; [reflexivity|].
  split; [by vm_compute|]. split; [by vm_compute|].
  split; [reflexivity|]. split; [reflexivity|]. by vm_compute.
Qed.

(** Its chart with axes has no time axis: [timeRow] is 10.5, no row of the
    composed grid, and the last row stays blank and is dropped. *)
Example fractional_chart_has_no_time_axis :
  ExactChart.toLines (ExactChart.mk session_fractional true false)
  = [" Price"; "   ↑ "; "   |"; "   |    ░░░"; "   |    ░░░"; "   |    ░░░";
     "   |    ░░░"; "   |    ░░░"; "   |    ░░░"; "   |"; "   |"]%string.
Proof. by vm_compute. Qed.

(** C9 ([addCandle] on a session without candles).  On the new session
    [addCandle] hands the candle to [addFirstCandle]; for the candle with an
    upper wick of six and a half and nothing else the call throws: the
    height becomes 8.5, the rows of open and close are clamped to 6.5, and
    [setCell] assigns to an element of [this.data[6.5]]. *)
Theorem addCandle_on_empty_throws :
  Exact.candles Exact.new_DynamicMatrix = [] ∧
  Exact.addCandle candle_six_and_a_half Exact.new_DynamicMatrix = Throws ∧
  Exact.addFirstCandle candle_six_and_a_half Exact.new_DynamicMatrix = Throws.
Proof. split; [done|]. split; vm_compute; reflexivity. Qed.

(** C10 ([addFirstCandle] on a session with candles).  On the session that
    holds the bearish candle of body 3 and wicks 1 and 2, [addFirstCandle]
    of the candle with an upper wick of six and a half throws: the height
    becomes 8.5 and the body of the first candle is redrawn from row 6.5. *)
Theorem addFirstCandle_on_nonempty_throws :
  Exact.addFirstCandle (exactCandle (mkCandle bearish 3 1 2)) Exact.new_DynamicMatrix
  = Returns (exact session_bearish) ∧
  Exact.candles (exact session_bearish) ≠ [] ∧
  Exact.addFirstCandle candle_six_and_a_half (exact session_bearish) = Throws.
Proof. split; [by vm_compute|]. split; [done|]. vm_compute. reflexivity. Qed.

(** X17 ([addCandle] on a session without candles, whole magnitudes).  For
    a candle with whole magnitudes, on a session without candles built from
    such candles, [addCandle] returns, and returns the session that
    [addFirstCandle] returns. *)
Theorem addCandle_on_empty_whole (m : Exact.DynamicMatrix) (c : Exact.Candle) :
  Exact.reachableBy whole m → whole c → Exact.candles m = [] →
  ∃ m', Exact.addFirstCandle c m = Returns m' ∧ Exact.addCandle c m = Returns m'.
Proof.
  intros (m0 & Hr & ->)%whole_sessions [c0 ->] He.
  apply fmap_nil_inv in He.
  destruct (reachable_nonneg m0 Hr) as [Hh Hw].
  destruct (addFirstCandle_total c0 m0 Hr) as [m' Hadd].
  exists (exact m'). rewrite exact_addCandle, exact_addFirstCandle by done.
  rewrite addCandle_empty by done. by rewrite Hadd.
Qed.

Lemma addCandle_on_empty_whole_witness :
  ∃ m', Exact.addFirstCandle (exactCandle (mkCandle bearish 3 1 2))
          Exact.new_DynamicMatrix = Returns m' ∧
        Exact.addCandle (exactCandle (mkCandle bearish 3 1 2))
          Exact.new_DynamicMatrix = Returns m'.
Proof.
  apply (addCandle_on_empty_whole Exact.new_DynamicMatrix
           (exactCandle (mkCandle bearish 3 1 2))).
  - apply Exact.reach_new.
  - by exists (mkCandle bearish 3 1 2).
  - reflexivity.
Defined.

(** X18 ([addFirstCandle] on a session with candles, whole magnitudes).
    [addFirstCandle] does not look at the candles the session has: for a
    candle with whole magnitudes, on a session with candles built from such
    candles, it returns a session with one more candle, whose prices are
    anchored at the baseline 100 whatever the last close was, and
    [minPrice] and [maxPrice] become this candle's low and high, whatever
    they were. *)
Theorem addFirstCandle_on_nonempty_whole (m : Exact.DynamicMatrix) (c : Exact.Candle) :
  Exact.reachableBy whole m → whole c → Exact.candles m ≠ [] →
  ∃ m' pc, Exact.addFirstCandle c m = Returns m' ∧
    Exact.candles m' = Exact.candles m ++ [pc] ∧
    Exact.candle pc = c ∧
    Exact.highPrice pc = (100 + Exact.upperWick c)%Q ∧
    Exact.lowPrice pc = (100 - Exact.bodySize c - Exact.lowerWick c)%Q ∧
    Exact.openPrice pc
    = (if decide (Exact.type c = bullish) then 100 - Exact.bodySize c else 100)%Q ∧
    Exact.closePrice pc
    = (if decide (Exact.type c = bullish) then 100 else 100 - Exact.bodySize c)%Q ∧
    Exact.minPrice m' = Exact.Num (Exact.lowPrice pc) ∧
    Exact.maxPrice m' = Exact.Num (Exact.highPrice pc).
Proof.
  intros (m0 & Hr & ->)%whole_sessions [c0 ->] _.
  destruct (reachable_nonneg m0 Hr) as [Hh Hw].
  pose proof (reachable_inv m0 Hr) as [(_ & Hh7 & Hw7 & _) Hcols].
  destruct (addFirstCandle_spec c0 m0 Hh7 Hw7)
    as (m' & pc & Hadd & _ & Hcs & Hc & Hhigh & Hlow & Hopen & Hclose & Hlo & Hhi & _).
  exists (exact m'), (exactPositioned (set_column (columnOf (length (candles m0))) pc)).
  rewrite exact_addFirstCandle, Hadd by done. split; [done|].
  split. { simpl. by rewrite Hcs, recolumned_snoc, fmap_app. }
  cbn [exactPositioned Exact.candle Exact.highPrice Exact.lowPrice Exact.openPrice
       Exact.closePrice set_column candle highPrice lowPrice openPrice closePrice
       exactCandle Exact.type Exact.bodySize Exact.upperWick Exact.lowerWick
       exact Exact.minPrice Exact.maxPrice].
  change 100%Q with (inject_Z 100). rewrite inject_Z_add, !inject_Z_sub.
  rewrite Hc, Hhigh, Hlow, Hopen, Hclose, Hlo, Hhi, Hlow, Hhigh.
  repeat split; try done; by destruct (decide (type c0 = bullish)).
Qed.

Lemma addFirstCandle_on_nonempty_whole_witness :
  ∃ m' pc, Exact.addFirstCandle (exactCandle (mkCandle bullish 1 0 0))
             (exact session_bearish) = Returns m' ∧
    Exact.candles m' = Exact.candles (exact session_bearish) ++ [pc] ∧
    Exact.minPrice m' = Exact.Num (Exact.lowPrice pc) ∧
    Exact.minPrice (exact session_bearish) = Exact.Num 95.
Proof.
  destruct (addFirstCandle_on_nonempty_whole (exact session_bearish)
              (exactCandle (mkCandle bullish 1 0 0)))
    as (m' & pc & Hadd & Hcs & _ & _ & _ & _ & _ & Hlo & _).
  - exact (reachable_exact _ (reachableBy_weaken _ _ reachable_session_bearish)).
  - by exists (mkCandle bullish 1 0 0).
  - discriminate.
  - exists m', pc. split; [exact Hadd|]. split; [exact Hcs|]. split; [exact Hlo|].
    reflexivity.
Defined.

(** X7 (a sequence of calls).  On a session built from candles with whole
    magnitudes, any sequence of calls of the two add methods with such
    candles returns a session, whose candles are the old ones followed by
    the candles passed, in the order of the calls and with their type and
    magnitudes unchanged. *)
Theorem calls_append_candles (ops : list (bool * Exact.Candle))
    (m : Exact.DynamicMatrix) :
  Exact.reachableBy whole m → Forall (fun op => whole op.2) ops →
  ∃ m', Exact.calls ops m = Returns m' ∧ Exact.reachableBy whole m' ∧
        Exact.candle <$> Exact.candles m'
        = (Exact.candle <$> Exact.candles m) ++ (snd <$> ops) ∧
        take (length (Exact.candles m)) (Exact.candles m') = Exact.candles m.
Proof.
  intros (m0 & Hr & ->)%whole_sessions [ops0 ->]%whole_calls.
  destruct (int_calls_append_candles ops0 m0 Hr) as (m' & Hcalls & Hr' & Hcs & Htake).
  exists (exact m'). rewrite exact_calls, Hcalls by done.
  split; [done|]. split; [by apply reachable_exact|].
  cbn [exact Exact.candles]. split.
  - rewrite <- !list_fmap_compose.
    assert (∀ l : list PositionedCandle,
              Exact.candle ∘ exactPositioned <$> l = exactCandle <$> (candle <$> l))
      as Hmap by (intros l; by rewrite <- list_fmap_compose).
    rewrite !Hmap, Hcs, fmap_app. f_equal. by rewrite <- list_fmap_compose.
  - rewrite length_fmap, <- fmap_take. by rewrite Htake.
Qed.

Lemma calls_append_candles_witness :
  ∃ m', Exact.calls [(false, exactCandle (mkCandle bullish 2 1 1));
                     (false, exactCandle (mkCandle bearish 1 0 0))]
          (exact session_bearish) = Returns m' ∧
        Exact.candle <$> Exact.candles m' =
        [exactCandle (mkCandle bearish 3 1 2); exactCandle (mkCandle bullish 2 1 1);
         exactCandle (mkCandle bearish 1 0 0)].
Proof.
  destruct (calls_append_candles
              [(false, exactCandle (mkCandle bullish 2 1 1));
               (false, exactCandle (mkCandle bearish 1 0 0))]
              (exact session_bearish)
              (reachable_exact _ (reachableBy_weaken _ _ reachable_session_bearish)))
    as (m' & Hcalls & _ & Hcs & _).
  - repeat constructor; simpl; by eexists.
  - exists m'. split; [exact Hcalls | exact Hcs].
Defined.

(** X13 (the lines of the chart).  With the axes shown, the chart of a
    session built from candles with whole magnitudes has [height + 3]
    lines: the line " Price", the line of the arrow, and for every further
    row of the composed grid, the time axis included, that row without its
    trailing blanks; no line is dropped. *)
Theorem chart_lines (this : ExactChart.t) :
  let m := ExactChart.matrix this in
  Exact.reachableBy whole m → ExactChart.showAxes this = true →
  ∃ rest, ExactChart.toLines this = " Price"%string :: "   ↑ "%string :: rest ∧
    length rest = Z.to_nat (Qceiling (Exact.height m) + 1) ∧
    ∀ i line, rest !! i = Some line →
      ∃ row, ExactChart.overlay this !! (i + 2)%nat = Some row ∧
             line = MatrixASCIIChart.trimEnd (String.concat EmptyString row).
Proof.
  destruct this as [mq axes labels]. cbn [ExactChart.matrix ExactChart.showAxes].
  intros (m0 & Hr & ->)%whole_sessions ->.
  change (ExactChart.mk (exact m0) true labels)
    with (exactChart (MatrixASCIIChart.mk m0 true labels)).
  rewrite exact_toLines, exact_overlay. cbn [exact Exact.height]. rewrite Qceiling_Z.
  exact (int_chart_lines (MatrixASCIIChart.mk m0 true labels) Hr eq_refl).
Qed.

Lemma chart_lines_witness :
  ∃ rest, ExactChart.toLines (ExactChart.mk (exact session_bearish) true false)
          = " Price"%string :: "   ↑ "%string :: rest ∧ length rest = 9%nat.
Proof.
  destruct (chart_lines (ExactChart.mk (exact session_bearish) true false)
              (reachable_exact _ (reachableBy_weaken _ _ reachable_session_bearish))
              eq_refl) as (rest & Hlines & Hlen & _).
  exists rest. split; [exact Hlines|exact Hlen].
Defined.

(** X14 (the dots of the time axis).  In the chart of a session that starts
    with its first candle and is built from candles with whole magnitudes,
    the time axis has a dot under the column of every candle, the ninth
    excepted: under the ninth candle stands the [m] of [Time]. *)
Theorem time_axis_dots (this : ExactChart.t) (i : nat) (pc : Exact.PositionedCandle) :
  let m := ExactChart.matrix this in
  Exact.properBy whole m → Exact.candles m !! i = Some pc →
  readCell (ExactChart.overlay this) (Qceiling (Exact.height m) + 2)
    (Exact.column pc + 6)
  = Some (if decide (i = 8%nat) then "m" else ".")%string.
Proof.
  destruct this as [mq axes labels]. cbn [ExactChart.matrix].
  intros (m0 & Hp & ->)%whole_proper Hpc.
  cbn [exact Exact.candles] in Hpc. rewrite list_lookup_fmap in Hpc.
  destruct (candles m0 !! i) as [pc0|] eqn:Hpc0; [|done]. simpl in Hpc.
  injection Hpc as <-.
  change (ExactChart.mk (exact m0) axes labels)
    with (exactChart (MatrixASCIIChart.mk m0 axes labels)).
  rewrite exact_overlay. cbn [exact Exact.height exactPositioned Exact.column].
  rewrite Qceiling_Z.
  exact (int_time_axis_dots (MatrixASCIIChart.mk m0 axes labels) i pc0 Hp Hpc0).
Qed.

Lemma time_axis_dots_witness :
  readCell (ExactChart.overlay (ExactChart.mk (exact session_bearish) true false)) 10 9
  = Some "."%string.
Proof.
  exact (time_axis_dots (ExactChart.mk (exact session_bearish) true false) 0
           (exactPositioned (mkPositioned (mkCandle bearish 3 1 2) 3 101 100 97 95))
           (proper_exact _ proper_session_bearish) eq_refl).
Defined.
